(** * GoLeagueMelo: a four-team league simulator

    Shallow embedding of [main.go] (data model, fixture generator, match
    outcome engine, standings builder, weekly simulator, championship
    predictor, the season of [main]), of the HTTP service layer
    (SimulateNextWeek, SimulateAllMatches, the handlers of the table,
    of the simulation and of the correction of a result) and of the SQL
    store with the start of the server, followed by the theorems about
    them.

    Conventions of the embedding
    - Go's [int] is the 64-bit two's complement integer: a value is a [Z]
      and every arithmetic result is passed through [wrap].
    - [*Team] is an address into a store of [Team] objects ([heap]); two
      matches that refer to the same competitor hold the same address, so
      an update through one alias is seen through the other.  Go has no
      dangling pointer: the addresses a League holds are allocated, and
      no operation on a League allocates or frees; the objects are made
      by [createPremierLeagueTeams] and by the loaders of the SQL store,
      at the end of the store.
    - [float64] arithmetic goes through the interface [Float64], with the
      instances [Binary64] (IEEE 754) and [Exact] (rationals); the ledger
      theorems hold for every instance, the predictor's normalisation is
      proved for exact arithmetic.
    - [math/rand] is the sequence [rand_Float64] of the values successive
      calls return, with the number of calls made so far in the state.
    - An HTTP handler is given the request as [strconv.Atoi] and the JSON
      decoder have read it, and the [http.ResponseWriter] as far as the
      answer depends on it: whether the table can be encoded to it. *)

From Stdlib Require Import ZArith QArith Qcanon Lia PrimFloat FloatOps SpecFloat Uint63.
From stdpp Require Import base numbers list sorting strings gmap fin_maps.

Local Open Scope Z_scope.

(** ** Go's [int] *)

Module GoInt.

Definition modulus : Z := 2 ^ 64.
Definition half : Z := 2 ^ 63.

(** Result of an [int] operation whose mathematical value is [x]. *)
Definition wrap (x : Z) : Z := (x + half) mod modulus - half.
Arguments wrap : simpl never.

Definition in_range (x : Z) : Prop := - half <= x < half.

End GoInt.
Import GoInt.

(** ** Go's [float64]

    The operations the program uses.  [f_lit q] is the constant written
    as the decimal [q] in the source, [f_to_int] the conversion [int(x)]
    (truncation toward zero), [f_max] is [math.Max]. *)

Class Float64 (F : Type) := {
  f_lit : Q -> F;
  f_of_int : Z -> F;
  f_to_int : F -> Z;
  f_add : F -> F -> F;
  f_sub : F -> F -> F;
  f_mul : F -> F -> F;
  f_div : F -> F -> F;
  f_lt : F -> F -> bool;
  f_max : F -> F -> F
}.

(** Exact arithmetic: a float is the rational it denotes and no operation
    rounds.  Division by zero, which IEEE arithmetic answers with an
    infinity or NaN, is [0] here; the program divides by [100.0] and by a
    total it has just tested to be positive. *)
#[export] Instance Exact : Float64 Qc := {
  f_lit q := Q2Qc q;
  f_of_int n := Qc_of_Z n;
  f_to_int x := Z.quot (Qnum (this x)) (Z.pos (Qden (this x)));
  f_add := Qcplus;
  f_sub := Qcminus;
  f_mul := Qcmult;
  f_div := Qcdiv;
  f_lt x y := bool_decide (x < y)%Qc;
  f_max x y := if bool_decide (x < y)%Qc then y else x
}.

(** IEEE 754 binary64, round to nearest even: Rocq's primitive floats.
    A decimal constant is the correctly rounded quotient of its
    numerator and denominator, both small enough to be exact.
    [float_of_Z z] is [float64(z)] for an [int] [z]: the magnitude goes
    through the 63-bit integers of Rocq, which hold every magnitude but
    that of the least [int], [2^63], converted as twice [2^62]. *)
Definition float_of_Z (z : Z) : float :=
  match z with
  | Z0 => PrimFloat.zero
  | Zpos _ => PrimFloat.of_uint63 (Uint63.of_Z z)
  | Zneg p =>
    if Zpos p <? half
    then PrimFloat.opp (PrimFloat.of_uint63 (Uint63.of_Z (Zpos p)))
    else PrimFloat.opp (PrimFloat.mul (PrimFloat.of_uint63 (Uint63.of_Z (2 ^ 62)))
                                      (PrimFloat.of_uint63 2))
  end.

Definition Z_of_float (x : float) : Z :=
  match Prim2SF x with
  | S754_finite sg m e =>
    let v := match e with
             | Z0 => Zpos m
             | Zpos _ => Z.shiftl (Zpos m) e
             | Zneg k => Z.shiftr (Zpos m) (Zpos k)
             end in
    if sg then - v else v
  | _ => 0
  end.

#[export] Instance Binary64 : Float64 float := {
  f_lit q := PrimFloat.div (float_of_Z (Qnum q)) (float_of_Z (Zpos (Qden q)));
  f_of_int := float_of_Z;
  f_to_int := Z_of_float;
  f_add := PrimFloat.add;
  f_sub := PrimFloat.sub;
  f_mul := PrimFloat.mul;
  f_div := PrimFloat.div;
  f_lt := PrimFloat.ltb;
  f_max x y := if PrimFloat.ltb x y then y else x
}.

(** ** Data model *)

(** Address of a [Team] object. *)
Abbreviation ptr := nat.

Record Team := mkTeam {
  TeamName : string;
  TeamId : Z;
  TeamStrength : Z;
  GoalsFor : Z;
  GoalsAgainst : Z;
  Wins : Z;
  Draws : Z;
  Losses : Z;
  Points : Z;
  GoalsDifference : Z
}.

#[export] Instance Team_inhabited : Inhabited Team :=
  populate (mkTeam "" 0 0 0 0 0 0 0 0 0).

(** The store of [Team] objects. *)
Abbreviation heap := (list Team).

Record Match := mkMatch {
  MatchId : Z;
  Week : Z;
  HomeTeam : ptr;
  AwayTeam : ptr;
  HomeTeamScore : Z;
  AwayTeamScore : Z;
  Played : bool
}.

Module LTE.
Record LeagueTableEntry := mk {
  TeamName : string;
  Played : Z;
  Wins : Z;
  Draws : Z;
  Losses : Z;
  GoalsFor : Z;
  GoalsAgainst : Z;
  GoalsDifference : Z;
  Points : Z;
  Position : Z
}.
End LTE.
Abbreviation LeagueTableEntry := LTE.LeagueTableEntry.

Record League := mkLeague {
  Teams : list ptr;
  Matches : list Match;
  CurrentWeek : Z;
  LeagueTable : list LeagueTableEntry
}.

(** The program's memory: the [Team] objects, the League aggregate and
    the number of [rand.Float64] calls made so far. *)
Record State := mkState {
  st_heap : heap;
  st_league : League;
  st_rand : nat
}.

(** *** Field assignments

    [set_F v t] is [t] after [t.F = v]. *)

Definition set_GoalsFor (v : Z) (t : Team) : Team :=
  mkTeam (TeamName t) (TeamId t) (TeamStrength t) v (GoalsAgainst t)
         (Wins t) (Draws t) (Losses t) (Points t) (GoalsDifference t).
Definition set_GoalsAgainst (v : Z) (t : Team) : Team :=
  mkTeam (TeamName t) (TeamId t) (TeamStrength t) (GoalsFor t) v
         (Wins t) (Draws t) (Losses t) (Points t) (GoalsDifference t).
Definition set_Wins (v : Z) (t : Team) : Team :=
  mkTeam (TeamName t) (TeamId t) (TeamStrength t) (GoalsFor t) (GoalsAgainst t)
         v (Draws t) (Losses t) (Points t) (GoalsDifference t).
Definition set_Draws (v : Z) (t : Team) : Team :=
  mkTeam (TeamName t) (TeamId t) (TeamStrength t) (GoalsFor t) (GoalsAgainst t)
         (Wins t) v (Losses t) (Points t) (GoalsDifference t).
Definition set_Losses (v : Z) (t : Team) : Team :=
  mkTeam (TeamName t) (TeamId t) (TeamStrength t) (GoalsFor t) (GoalsAgainst t)
         (Wins t) (Draws t) v (Points t) (GoalsDifference t).
Definition set_Points (v : Z) (t : Team) : Team :=
  mkTeam (TeamName t) (TeamId t) (TeamStrength t) (GoalsFor t) (GoalsAgainst t)
         (Wins t) (Draws t) (Losses t) v (GoalsDifference t).
Definition set_GoalsDifference (v : Z) (t : Team) : Team :=
  mkTeam (TeamName t) (TeamId t) (TeamStrength t) (GoalsFor t) (GoalsAgainst t)
         (Wins t) (Draws t) (Losses t) (Points t) v.

Definition set_Score (hs aws : Z) (m : Match) : Match :=
  mkMatch (MatchId m) (Week m) (HomeTeam m) (AwayTeam m) hs aws (Played m).
Definition set_Played (b : bool) (m : Match) : Match :=
  mkMatch (MatchId m) (Week m) (HomeTeam m) (AwayTeam m)
          (HomeTeamScore m) (AwayTeamScore m) b.
Definition set_Position (v : Z) (e : LeagueTableEntry) : LeagueTableEntry :=
  LTE.mk (LTE.TeamName e) (LTE.Played e) (LTE.Wins e) (LTE.Draws e)
         (LTE.Losses e) (LTE.GoalsFor e) (LTE.GoalsAgainst e)
         (LTE.GoalsDifference e) (LTE.Points e) v.

Definition set_Matches (ms : list Match) (l : League) : League :=
  mkLeague (Teams l) ms (CurrentWeek l) (LeagueTable l).
Definition set_CurrentWeek (w : Z) (l : League) : League :=
  mkLeague (Teams l) (Matches l) w (LeagueTable l).
Definition set_LeagueTable (tb : list LeagueTableEntry) (l : League) : League :=
  mkLeague (Teams l) (Matches l) (CurrentWeek l) tb.

(** *** Statements on a [*Team]

    [p.F += v], [p.F -= v] and [p.GoalsDifference = p.GoalsFor -
    p.GoalsAgainst], executed on the store. *)

Definition add_GoalsFor (p : ptr) (v : Z) (h : heap) : heap :=
  alter (fun t => set_GoalsFor (wrap (GoalsFor t + v)) t) p h.
Definition add_GoalsAgainst (p : ptr) (v : Z) (h : heap) : heap :=
  alter (fun t => set_GoalsAgainst (wrap (GoalsAgainst t + v)) t) p h.
Definition add_Wins (p : ptr) (v : Z) (h : heap) : heap :=
  alter (fun t => set_Wins (wrap (Wins t + v)) t) p h.
Definition add_Draws (p : ptr) (v : Z) (h : heap) : heap :=
  alter (fun t => set_Draws (wrap (Draws t + v)) t) p h.
Definition add_Losses (p : ptr) (v : Z) (h : heap) : heap :=
  alter (fun t => set_Losses (wrap (Losses t + v)) t) p h.
Definition add_Points (p : ptr) (v : Z) (h : heap) : heap :=
  alter (fun t => set_Points (wrap (Points t + v)) t) p h.
Definition sub_GoalsFor (p : ptr) (v : Z) (h : heap) : heap :=
  alter (fun t => set_GoalsFor (wrap (GoalsFor t - v)) t) p h.
Definition sub_GoalsAgainst (p : ptr) (v : Z) (h : heap) : heap :=
  alter (fun t => set_GoalsAgainst (wrap (GoalsAgainst t - v)) t) p h.
Definition sub_Wins (p : ptr) (v : Z) (h : heap) : heap :=
  alter (fun t => set_Wins (wrap (Wins t - v)) t) p h.
Definition sub_Draws (p : ptr) (v : Z) (h : heap) : heap :=
  alter (fun t => set_Draws (wrap (Draws t - v)) t) p h.
Definition sub_Losses (p : ptr) (v : Z) (h : heap) : heap :=
  alter (fun t => set_Losses (wrap (Losses t - v)) t) p h.
Definition sub_Points (p : ptr) (v : Z) (h : heap) : heap :=
  alter (fun t => set_Points (wrap (Points t - v)) t) p h.
Definition recompute_GoalsDifference (p : ptr) (h : heap) : heap :=
  alter (fun t => set_GoalsDifference (wrap (GoalsFor t - GoalsAgainst t)) t) p h.

(** ** Fixture generator *)

(** [createPremierLeagueTeams] allocates four [Team] objects; it returns
    their addresses and the extended store. *)
Definition createPremierLeagueTeams (h : heap) : list ptr * heap :=
  let a := length h in
  ([a; S a; S (S a); S (S (S a))],
   h ++ [mkTeam "Manchester United" 1 80 0 0 0 0 0 0 0;
         mkTeam "Liverpool" 2 85 0 0 0 0 0 0 0;
         mkTeam "Manchester City" 3 90 0 0 0 0 0 0 0;
         mkTeam "Chelsea" 4 88 0 0 0 0 0 0 0]).

Definition weekFixtures : list (list (nat * nat)) :=
  [ [(0, 1); (2, 3)];
    [(0, 2); (1, 3)];
    [(0, 3); (1, 2)] ]%nat.

(** One leg of the schedule: the two nested loops over [weekFixtures],
    threading [matches], [matchId] and [week].  [None] is the run-time
    panic of [teams[k]] with [k] out of range. *)
Definition fixtureLeg (reversed : bool) (teams : list ptr)
    (st : list Match * Z * Z) : option (list Match * Z * Z) :=
  foldl (fun acc fixtures =>
           '(matches, matchId, week) ← acc;
           '(matches, matchId) ←
             foldl (fun acc (fixture : nat * nat) =>
                      '(matches, matchId) ← acc;
                      home ← teams !! (if reversed then fixture.2 else fixture.1);
                      away ← teams !! (if reversed then fixture.1 else fixture.2);
                      Some (matches ++ [mkMatch matchId week home away 0 0 false],
                            wrap (matchId + 1)))
                   (Some (matches, matchId)) fixtures;
           Some (matches, matchId, wrap (week + 1)))
        (Some st) weekFixtures.

Definition createPremierLeagueMatches (teams : list ptr) : option (list Match) :=
  st ← fixtureLeg false teams ([], 1, 1);
  '(matches, _, _) ← fixtureLeg true teams st;
  Some matches.

(** ** Match outcome engine: the ledger update *)

(** Lines "Update team stats" to the recomputation of the goal
    differences of [simulateMatch]: what a scoreline does to the ledgers
    of the two teams the match points to. *)
Definition updateTeamStats (homeTeam awayTeam : ptr)
    (homeTeamScore awayTeamScore : Z) (h : heap) : heap :=
  let h := add_GoalsFor homeTeam homeTeamScore h in
  let h := add_GoalsFor awayTeam awayTeamScore h in
  let h := add_GoalsAgainst homeTeam awayTeamScore h in
  let h := add_GoalsAgainst awayTeam homeTeamScore h in
  let h :=
    if homeTeamScore >? awayTeamScore then
      add_Points homeTeam 3 (add_Losses awayTeam 1 (add_Wins homeTeam 1 h))
    else if homeTeamScore <? awayTeamScore then
      add_Points awayTeam 3 (add_Losses homeTeam 1 (add_Wins awayTeam 1 h))
    else
      add_Points awayTeam 1 (add_Points homeTeam 1
        (add_Draws awayTeam 1 (add_Draws homeTeam 1 h))) in
  let h := recompute_GoalsDifference homeTeam h in
  recompute_GoalsDifference awayTeam h.

(** ** Standings builder *)

(** [sort.Slice] on a slice of at most twelve elements is this insertion
    sort (package [sort] of Go 1.24, the toolchain of the Dockerfile:
    [pdqsort_func] calls [insertionSort_func] when [b - a <= 12]):
    element [i] moves left while [less(j, j-1)].  [sift x r] is that
    inner loop, [r] being the already sorted prefix read from right to
    left.  On longer slices [sort.Slice] is another algorithm, not
    stable and not modelled: the theorems on the order of the table are
    stated for at most twelve teams (the League has four), and the
    others use of the sorted table only that it is a permutation of the
    entries that the entries determine. *)
Fixpoint sift {A : Type} (less : A -> A -> bool) (x : A) (r : list A) : list A :=
  match r with
  | [] => [x]
  | y :: r' => if less x y then y :: sift less x r' else x :: y :: r'
  end.

Definition insertionSort {A : Type} (less : A -> A -> bool) (l : list A) : list A :=
  reverse (foldl (fun r x => sift less x r) [] l).

(** The comparison closure handed to [sort.Slice]. *)
Definition tableLess (a b : LeagueTableEntry) : bool :=
  if LTE.Points a =? LTE.Points b
  then LTE.GoalsDifference a >? LTE.GoalsDifference b
  else LTE.Points a >? LTE.Points b.

(** The entry built from one team, [Position] still at its zero value. *)
Definition tableEntry (team : Team) : LeagueTableEntry :=
  LTE.mk (TeamName team)
         (wrap (wrap (Wins team + Draws team) + Losses team))
         (Wins team) (Draws team) (Losses team)
         (GoalsFor team) (GoalsAgainst team)
         (wrap (GoalsFor team - GoalsAgainst team))
         (Points team) 0.

Definition assignPositions (table : list LeagueTableEntry) : list LeagueTableEntry :=
  imap (fun i entry => set_Position (wrap (Z.of_nat i + 1)) entry) table.

Definition buildTable (h : heap) (teams : list ptr) : list LeagueTableEntry :=
  let table := fmap (fun team => tableEntry (h !!! team)) teams in
  let table := insertionSort tableLess table in
  assignPositions table.

Definition updateLeagueTable (s : State) : State :=
  mkState (st_heap s)
          (set_LeagueTable (buildTable (st_heap s) (Teams (st_league s))) (st_league s))
          (st_rand s).

(** ** Persistence collaborator

    The three methods of [StorageService] the service layer calls, as
    seen from it: each returns an [error] ([None] is [nil]). *)
Class StorageService (DB : Type) := {
  SaveMatchResult : DB -> Match -> option string;
  UpdateTeam : DB -> Team -> option string;
  UpdateCurrentWeek : DB -> Z -> option string
}.

(** A store whose writes all succeed. *)
#[export] Instance AlwaysOk : StorageService unit := {
  SaveMatchResult _ _ := None;
  UpdateTeam _ _ := None;
  UpdateCurrentWeek _ _ := None
}.

(** ** Result correction *)

(** What the handler is given: the outcome of [strconv.Atoi] on the
    path variable and of decoding the body into
    [struct{HomeScore, AwayScore int}] ([None]: the call returned an
    error). *)
Record Request := mkRequest {
  req_id : option Z;
  req_body : option (Z * Z)
}.

(** What the handler writes: [http.Error(w, msg, code)] or the league
    table as JSON. *)
Inductive Response :=
  | HttpError (msg : string) (code : Z)
  | HttpTable (table : list LeagueTableEntry).

(** The [http.ResponseWriter] a handler is given, as far as a handler
    depends on it: the [error] of [json.NewEncoder(w).Encode(table)]
    ([None] is [nil]).  The table always has a JSON form, so the error
    is that of the write to the connection. *)
Record ResponseWriter := mkResponseWriter {
  Encode : list LeagueTableEntry -> option string
}.

(** The last statement of the handlers that answer with the table:
    [Encode], and [http.Error] with status 500 when it fails. *)
Definition encodeLeagueTable (w : ResponseWriter) (table : list LeagueTableEntry)
    : Response :=
  match Encode w table with
  | Some _ => HttpError "Error encoding league table" 500
  | None => HttpTable table
  end.

Definition findMatch (matchId : Z) (ms : list Match) : option (nat * Match) :=
  list_find (fun m => MatchId m = matchId) ms.

(** "Revert old match statistics" of [editMatchResultHandler]. *)
Definition revertTeamStats (homeTeam awayTeam : ptr) (oldHome oldAway : Z)
    (h : heap) : heap :=
  let h := sub_GoalsFor homeTeam oldHome h in
  let h := sub_GoalsFor awayTeam oldAway h in
  let h := sub_GoalsAgainst homeTeam oldAway h in
  let h := sub_GoalsAgainst awayTeam oldHome h in
  if oldHome >? oldAway then
    sub_Points homeTeam 3 (sub_Losses awayTeam 1 (sub_Wins homeTeam 1 h))
  else if oldHome <? oldAway then
    sub_Points awayTeam 3 (sub_Losses homeTeam 1 (sub_Wins awayTeam 1 h))
  else
    sub_Points awayTeam 1 (sub_Points homeTeam 1
      (sub_Draws awayTeam 1 (sub_Draws homeTeam 1 h))).

(** "Apply new match result" of [editMatchResultHandler], from "Update
    goals" to "Update goal differences". *)
Definition applyNewResult (homeTeam awayTeam : ptr) (newHome newAway : Z)
    (h : heap) : heap :=
  let h := add_GoalsFor homeTeam newHome h in
  let h := add_GoalsFor awayTeam newAway h in
  let h := add_GoalsAgainst homeTeam newAway h in
  let h := add_GoalsAgainst awayTeam newHome h in
  let h :=
    if newHome >? newAway then
      add_Points homeTeam 3 (add_Losses awayTeam 1 (add_Wins homeTeam 1 h))
    else if newHome <? newAway then
      add_Points awayTeam 3 (add_Losses homeTeam 1 (add_Wins awayTeam 1 h))
    else
      add_Points awayTeam 1 (add_Points homeTeam 1
        (add_Draws awayTeam 1 (add_Draws homeTeam 1 h))) in
  let h := recompute_GoalsDifference homeTeam h in
  recompute_GoalsDifference awayTeam h.

Section Handler.
Context {DB : Type} `{StorageService DB}.
Variable storageService : option DB.

Definition editMatchResultHandler (w : ResponseWriter) (r : Request) (s : State)
    : Response * State :=
  match req_id r with
  | None => (HttpError "Invalid match ID" 400, s)
  | Some matchId =>
  match req_body r with
  | None => (HttpError "Invalid request body" 400, s)
  | Some (HomeScore, AwayScore) =>
  match findMatch matchId (Matches (st_league s)) with
  | None => (HttpError "Match not found" 404, s)
  | Some (i, targetMatch) =>
    if negb (Played targetMatch) then
      (HttpError "Cannot edit unplayed match" 400, s)
    else
      let homeTeam := HomeTeam targetMatch in
      let awayTeam := AwayTeam targetMatch in
      let h := revertTeamStats homeTeam awayTeam
                 (HomeTeamScore targetMatch) (AwayTeamScore targetMatch) (st_heap s) in
      let targetMatch := set_Score HomeScore AwayScore targetMatch in
      let h := applyNewResult homeTeam awayTeam
                 (HomeTeamScore targetMatch) (AwayTeamScore targetMatch) h in
      let s' := updateLeagueTable
                  (mkState h (set_Matches (<[i := targetMatch]> (Matches (st_league s)))
                                          (st_league s))
                           (st_rand s)) in
      let saved :=
        match storageService with
        | None => None
        | Some db =>
          match SaveMatchResult db targetMatch with
          | Some err => Some (HttpError ("Failed to save match: " +:+ err) 500)
          | None =>
          match UpdateTeam db (st_heap s' !!! homeTeam) with
          | Some err => Some (HttpError ("Failed to update home team: " +:+ err) 500)
          | None =>
          match UpdateTeam db (st_heap s' !!! awayTeam) with
          | Some err => Some (HttpError ("Failed to update away team: " +:+ err) 500)
          | None => None
          end end end
        end in
      match saved with
      | Some failure => (failure, s')
      | None => (encodeLeagueTable w (LeagueTable (st_league s')), s')
      end
  end end end.

End Handler.

(** ** Match outcome engine, weekly scheduler, predictor *)

Section Engine.
Context {F : Type} `{Float64 F}.
Variable rand_Float64 : nat -> F.

(** The scoreline drawn for a home side of strength [hstr] against an
    away side of strength [astr], from the random values [r1] and [r2]. *)
Definition drawScore (hstr astr : Z) (r1 r2 : F) : Z * Z :=
  let homeStrength := f_add (f_of_int hstr) (f_lit 5.0) in
  let awayStrength := f_of_int astr in
  let homeAttack := f_add (f_mul (f_div homeStrength (f_lit 100.0)) (f_lit 4.0)) (f_lit 0.5) in
  let awayAttack := f_add (f_mul (f_div awayStrength (f_lit 100.0)) (f_lit 4.0)) (f_lit 0.5) in
  let homeRandomFactor := f_sub (f_mul r1 (f_lit 2.0)) (f_lit 1.0) in
  let awayRandomFactor := f_sub (f_mul r2 (f_lit 2.0)) (f_lit 1.0) in
  let homeExpected := f_add homeAttack homeRandomFactor in
  let awayExpected := f_add awayAttack awayRandomFactor in
  let homeExpected := if f_lt homeExpected (f_lit 0) then f_lit 0 else homeExpected in
  let awayExpected := if f_lt awayExpected (f_lit 0) then f_lit 0 else awayExpected in
  let homeTeamScore := f_to_int (f_add homeExpected (f_lit 0.5)) in
  let awayTeamScore := f_to_int (f_add awayExpected (f_lit 0.5)) in
  let homeTeamScore := if homeTeamScore >? 6 then 6 else homeTeamScore in
  let awayTeamScore := if awayTeamScore >? 6 then 6 else awayTeamScore in
  (homeTeamScore, awayTeamScore).

(** [simulateMatch(match)], the match being the [i]-th of the league. *)
Definition simulateMatch (i : nat) (s : State) : State :=
  match Matches (st_league s) !! i with
  | None => s
  | Some m =>
    if Played m then s else
    let homeTeam := HomeTeam m in
    let awayTeam := AwayTeam m in
    let '(homeTeamScore, awayTeamScore) :=
      drawScore (TeamStrength (st_heap s !!! homeTeam))
                (TeamStrength (st_heap s !!! awayTeam))
                (rand_Float64 (st_rand s)) (rand_Float64 (S (st_rand s))) in
    let m := set_Score homeTeamScore awayTeamScore m in
    let h := updateTeamStats homeTeam awayTeam homeTeamScore awayTeamScore (st_heap s) in
    let m := set_Played true m in
    mkState h (set_Matches (<[i := m]> (Matches (st_league s))) (st_league s))
            (S (S (st_rand s)))
  end.

(** ** Weekly scheduler *)

Definition weeklySimulator (s : State) : State :=
  let s := mkState (st_heap s)
             (set_CurrentWeek (wrap (CurrentWeek (st_league s) + 1)) (st_league s))
             (st_rand s) in
  let s := foldl (fun s i =>
                    match Matches (st_league s) !! i with
                    | Some m =>
                      if (Week m =? CurrentWeek (st_league s)) && negb (Played m)
                      then simulateMatch i s else s
                    | None => s
                    end)
                 s (seq 0 (length (Matches (st_league s)))) in
  updateLeagueTable s.

(** "Calculate total weeks from matches". *)
Definition totalWeeks (ms : list Match) : Z :=
  foldl (fun tw m => if Week m >? tw then Week m else tw) 0 ms.

(** [playSeason] without its printing: one [weeklySimulator] per week. *)
Definition playSeason (s : State) : State :=
  Nat.iter (Z.to_nat (totalWeeks (Matches (st_league s)))) weeklySimulator s.

(** ** Outcome predictor *)

(** The body of the loop "for _, entry := range league.LeagueTable" up
    to the bonus: the weight of one table entry. *)
Definition entryWeight (s : State) (entry : LeagueTableEntry) : F :=
  let league := st_league s in
  let teamStrength :=
    match list_find (fun team => TeamName (st_heap s !!! team) = LTE.TeamName entry)
                    (Teams league) with
    | Some (_, team) => f_of_int (TeamStrength (st_heap s !!! team))
    | None => f_lit 75
    end in
  let pointsWeight := f_mul (f_of_int (LTE.Points entry)) (f_lit 0.4) in
  let strengthWeight := f_mul (f_div teamStrength (f_lit 100.0)) (f_lit 30.0) in
  let gdWeight :=
    f_max (f_mul (f_of_int (LTE.GoalsDifference entry)) (f_lit 0.2)) (f_lit 0) in
  let formWeight := f_mul (f_of_int (LTE.Wins entry)) (f_lit 1.0) in
  let weight :=
    f_add (f_add (f_add pointsWeight strengthWeight) gdWeight) formWeight in
  if LTE.Position entry =? 1 then f_mul weight (f_lit 1.2)
  else if LTE.Position entry =? 2 then f_mul weight (f_lit 1.1)
  else weight.

Definition predictChampionship (s : State) : gmap string F :=
  let league := st_league s in
  let name_of (team : ptr) := TeamName (st_heap s !!! team) in
  let remainingMatches : gmap string Z :=
    foldl (fun rm team => <[name_of team := 0]> rm) ∅ (Teams league) in
  let remainingMatches :=
    foldl (fun rm m =>
             if Played m then rm else
             let rm := <[name_of (HomeTeam m) :=
                           wrap (default 0 (rm !! name_of (HomeTeam m)) + 1)]> rm in
             <[name_of (AwayTeam m) :=
                 wrap (default 0 (rm !! name_of (AwayTeam m)) + 1)]> rm)
          remainingMatches (Matches league) in
  let maxPossiblePoints : gmap string Z :=
    foldl (fun mp entry =>
             <[LTE.TeamName entry :=
                 wrap (LTE.Points entry +
                       wrap (default 0 (remainingMatches !! LTE.TeamName entry) * 3))]> mp)
          ∅ (LeagueTable league) in
  let '(teamWeights, totalWeight) :=
    foldl (fun '(teamWeights, totalWeight) entry =>
             let weight := entryWeight s entry in
             (<[LTE.TeamName entry := weight]> teamWeights, f_add totalWeight weight))
          ((∅ : gmap string F), f_lit 0.0) (LeagueTable league) in
  (fun weight =>
     if f_lt (f_lit 0) totalWeight
     then f_mul (f_div weight totalWeight) (f_lit 100)
     else f_lit 25.0) <$> teamWeights.

(** ** Simulator service *)

Section Service.
Context {DB : Type} `{StorageService DB}.
Variable storageService : option DB.

Definition firstError {A : Type} (f : A -> option string) (l : list A) : option string :=
  foldr (fun x rest => match f x with Some err => Some err | None => rest end) None l.

(** "Save updated data to database": the block that follows
    [weeklySimulator] in both service methods. *)
Definition saveWeek (db : DB) (s : State) : option string :=
  let league := st_league s in
  match UpdateCurrentWeek db (CurrentWeek league) with
  | Some err => Some ("failed to update current week: " +:+ err)
  | None =>
  match firstError (fun m =>
                      if (Week m =? CurrentWeek league) && Played m
                      then SaveMatchResult db m else None) (Matches league) with
  | Some err => Some ("failed to save match result: " +:+ err)
  | None =>
  match firstError (fun team => UpdateTeam db (st_heap s !!! team)) (Teams league) with
  | Some err => Some ("failed to update team: " +:+ err)
  | None => None
  end end end.

(** Returns the [error] and the memory the call leaves. *)
Definition SimulateNextWeek (s : State) : option string * State :=
  let nextWeek := wrap (CurrentWeek (st_league s) + 1) in
  let hasMatches :=
    existsb (fun m => (Week m =? nextWeek) && negb (Played m)) (Matches (st_league s)) in
  if negb hasMatches then (Some "no more matches to simulate", s)
  else
    let s := weeklySimulator s in
    match storageService with
    | Some db => (saveWeek db s, s)
    | None => (None, s)
    end.

(** The body of the loop of [SimulateAllMatches], run [n] times or
    until the store fails. *)
Fixpoint simulateWeeks (n : nat) (s : State) : option string * State :=
  match n with
  | O => (None, s)
  | S n =>
    let s := weeklySimulator s in
    match storageService with
    | Some db =>
      match saveWeek db s with
      | Some err => (Some err, s)
      | None => simulateWeeks n s
      end
    | None => simulateWeeks n s
    end
  end.

(** [for week := CurrentWeek + 1; week <= totalWeeks; week++]: the
    counter [week] is local, so the number of rounds is fixed on entry
    (a last week equal to the largest [int], with which the Go loop
    would not end, aside). *)
Definition SimulateAllMatches (s : State) : option string * State :=
  let first := wrap (CurrentWeek (st_league s) + 1) in
  simulateWeeks (Z.to_nat (totalWeeks (Matches (st_league s)) - first + 1)) s.

End Service.

End Engine.

(** ** The league of [main] *)

Definition main_state : State :=
  let '(teams, h) := createPremierLeagueTeams [] in
  mkState h (mkLeague teams (default [] (createPremierLeagueMatches teams)) 0 []) 0.


(** ** The season's end *)

(** The team [declareChampions] congratulates: the first entry of the
    table whose position is 1 ([None]: no entry has it and the block is
    not printed). *)
Definition declareChampions (s : State) : option string :=
  match list_find (fun entry => LTE.Position entry = 1) (LeagueTable (st_league s)) with
  | Some (_, entry) => Some (LTE.TeamName entry)
  | None => None
  end.

(** ** HTTP handlers of the simulation endpoints *)

Section Handlers.
Context {F : Type} `{Float64 F}.
Variable rand_Float64 : nat -> F.
Context {DB : Type} `{StorageService DB}.
Variable storageService : option DB.

(** [main] without the server branch: the season is played and the
    champion declared. *)
Definition main (s : State) : option string :=
  declareChampions (playSeason rand_Float64 s).

(** GET /league/table. *)
Definition getLeagueTableHandler (w : ResponseWriter) (s : State) : Response :=
  encodeLeagueTable w (LeagueTable (st_league s)).

(** POST /league/next-week. *)
Definition simulateNextWeekHandler (w : ResponseWriter) (s : State)
    : Response * State :=
  let '(err, s) := SimulateNextWeek rand_Float64 storageService s in
  match err with
  | Some err => (HttpError err 400, s)
  | None => (encodeLeagueTable w (LeagueTable (st_league s)), s)
  end.

(** POST /league/play-all. *)
Definition simulateAllMatchesHandler (w : ResponseWriter) (s : State)
    : Response * State :=
  let '(err, s) := SimulateAllMatches rand_Float64 storageService s in
  match err with
  | Some err => (HttpError err 400, s)
  | None => (encodeLeagueTable w (LeagueTable (st_league s)), s)
  end.

End Handlers.

(** ** The SQL store

    [SQLStorageService] keeps the League in three tables.  A table is
    the finite map from its primary key [id] to the other columns, and a
    SQL statement is what it does to the tables when the driver reports
    no error: the database is ideal, no [Exec], [Query] or [Scan] fails
    and the error branches that follow them are not taken.  The one
    error that depends on the data alone, [sql.ErrNoRows], is kept.  The
    SQLite and the PostgreSQL wording of an upsert are one statement
    here; foreign keys are not enforced (SQLite's default). *)

Module SQLStorageService.

(** The columns of [teams], of [matches] and of [league_state] after
    [id]. *)
Record TeamRow := mkTeamRow {
  name : string;
  strength : Z;
  goals_for : Z;
  goals_against : Z;
  wins : Z;
  draws : Z;
  losses : Z;
  points : Z;
  goals_difference : Z
}.

Record MatchRow := mkMatchRow {
  week : Z;
  home_team_id : Z;
  away_team_id : Z;
  home_score : Z;
  away_score : Z;
  played : bool
}.

Record Database := mkDatabase {
  teams : gmap Z TeamRow;
  matches : gmap Z MatchRow;
  league_state : gmap Z Z
}.

(** The database file before anything is written to it. *)
Definition empty : Database := mkDatabase ∅ ∅ ∅.

(** [ORDER BY id] and [ORDER BY m.week, m.id]. *)
Definition id_le {A : Type} (a b : Z * A) : Prop := a.1 <= b.1.

#[global] Instance id_le_dec {A : Type} (a b : Z * A) : Decision (id_le a b) :=
  decide (a.1 <= b.1).

Definition week_id_le (a b : Z * MatchRow) : Prop :=
  week a.2 < week b.2 \/ (week a.2 = week b.2 /\ a.1 <= b.1).

#[global] Instance week_id_le_dec (a b : Z * MatchRow) : Decision (week_id_le a b) :=
  decide (week a.2 < week b.2 \/ (week a.2 = week b.2 /\ a.1 <= b.1)).

Definition by_id {A : Type} (table : gmap Z A) : list (Z * A) :=
  merge_sort id_le (map_to_list table).

Definition by_week_and_id (table : gmap Z MatchRow) : list (Z * MatchRow) :=
  merge_sort week_id_le (map_to_list table).

(** The tables exist from the start; what [InitializeDatabase] adds is
    the row of [league_state], when the table has none: the first row of
    an [INTEGER PRIMARY KEY] table gets the id 1. *)
Definition InitializeDatabase (db : Database) : Database :=
  if bool_decide (size (league_state db) = 0%nat)
  then mkDatabase (teams db) (matches db) (<[1 := 0]> (league_state db))
  else db.

(** [sql.Open] and [Ping] succeed. *)
Definition NewSQLStorageService (db : Database) : Database :=
  InitializeDatabase db.

(** [INSERT OR REPLACE INTO matches]; the team ids are read through the
    two pointers of the match. *)
Definition SaveMatchResult (h : heap) (m : Match) (db : Database) : Database :=
  mkDatabase (teams db)
             (<[MatchId m := mkMatchRow (Week m)
                               (TeamId (h !!! HomeTeam m)) (TeamId (h !!! AwayTeam m))
                               (HomeTeamScore m) (AwayTeamScore m) (Played m)]>
                (matches db))
             (league_state db).

(** [INSERT OR REPLACE INTO teams]. *)
Definition UpdateTeam (team : Team) (db : Database) : Database :=
  mkDatabase (<[TeamId team := mkTeamRow (TeamName team) (TeamStrength team)
                                 (GoalsFor team) (GoalsAgainst team)
                                 (Wins team) (Draws team) (Losses team)
                                 (Points team) (GoalsDifference team)]>
                (teams db))
             (matches db) (league_state db).

(** [SELECT current_week FROM league_state WHERE id = 1]; [None] is
    [sql.ErrNoRows]. *)
Definition GetCurrentWeek (db : Database) : option Z :=
  league_state db !! 1.

(** [UPDATE league_state SET current_week = ? WHERE id = 1]. *)
Definition UpdateCurrentWeek (currentWeek : Z) (db : Database) : Database :=
  mkDatabase (teams db) (matches db) (alter (fun _ => currentWeek) 1 (league_state db)).

(** [GetTeams]: one new [Team] object per row, in the order of the
    query. *)
Definition GetTeams (db : Database) (h : heap) : list ptr * heap :=
  foldl (fun '(teams, h) '(id, row) =>
           (teams ++ [length h],
            h ++ [mkTeam (name row) id (strength row) (goals_for row)
                         (goals_against row) (wins row) (draws row) (losses row)
                         (points row) (goals_difference row)]))
        ([], h) (by_id (teams db)).

(** A row of the query of [GetMatches]: a match joined with the name
    and strength of its two teams. *)
Record JoinedRow := mkJoinedRow {
  m_id : Z;
  m_week : Z;
  m_home_team_id : Z;
  m_away_team_id : Z;
  m_home_score : Z;
  m_away_score : Z;
  m_played : bool;
  home_name : string;
  home_strength : Z;
  away_name : string;
  away_strength : Z
}.

(** The two inner joins drop a match one of whose teams has no row. *)
Definition matches_query (db : Database) : list JoinedRow :=
  omap (fun '(id, m) =>
          ht ← teams db !! home_team_id m;
          at' ← teams db !! away_team_id m;
          Some (mkJoinedRow id (week m) (home_team_id m) (away_team_id m)
                            (home_score m) (away_score m) (played m)
                            (name ht) (strength ht) (name at') (strength at')))
       (by_week_and_id (matches db)).

(** "Get or create": the object [teamCache] holds for the id, or a new
    one, entered in the cache, that has the id, name and strength and
    zero everywhere else. *)
Definition getOrCreate (id : Z) (teamName : string) (teamStrength : Z)
    (teamCache : gmap Z ptr) (h : heap) : ptr * gmap Z ptr * heap :=
  match teamCache !! id with
  | Some team => (team, teamCache, h)
  | None =>
    (length h, <[id := length h]> teamCache,
     h ++ [mkTeam teamName id teamStrength 0 0 0 0 0 0 0])
  end.

(** One round of the loop of [GetMatches]: the row becomes a [Match]
    whose two sides are got or created. *)
Definition scanRow (acc : list Match * gmap Z ptr * heap) (row : JoinedRow)
    : list Match * gmap Z ptr * heap :=
  let '(matches, teamCache, h) := acc in
  let '(homeTeam, teamCache, h) :=
    getOrCreate (m_home_team_id row) (home_name row) (home_strength row) teamCache h in
  let '(awayTeam, teamCache, h) :=
    getOrCreate (m_away_team_id row) (away_name row) (away_strength row) teamCache h in
  (matches ++ [mkMatch (m_id row) (m_week row) homeTeam awayTeam
                       (m_home_score row) (m_away_score row) (m_played row)],
   teamCache, h).

Definition GetMatches (db : Database) (h : heap) : list Match * heap :=
  let '(matches, _, h) := foldl scanRow ([], ∅, h) (matches_query db) in
  (matches, h).

(** [InitializeTeamsAndMatches]: nothing when the table of teams has a
    row; else the four teams and the twelve fixtures are written.
    [None] is the panic of [createPremierLeagueMatches]. *)
Definition InitializeTeamsAndMatches (db : Database) (h : heap)
    : option (Database * heap) :=
  let '(teams, h) := GetTeams db h in
  if bool_decide (0 < length teams)%nat then Some (db, h)
  else
    let '(initialTeams, h) := createPremierLeagueTeams h in
    let db := foldl (fun db team => UpdateTeam (h !!! team) db) db initialTeams in
    initialMatches ← createPremierLeagueMatches initialTeams;
    Some (foldl (fun db m => SaveMatchResult h m db) db initialMatches, h).

End SQLStorageService.

(** ** Start of the server *)

(** [initializeLeague] on the database file [db]: the memory of the
    server once [globalLeague] is set and its table built, and the
    database as it then is.  [None] is a [log.Fatalf]. *)
Definition initializeLeague (db : SQLStorageService.Database)
    : option (State * SQLStorageService.Database) :=
  let db := SQLStorageService.NewSQLStorageService db in
  '(db, h) ← SQLStorageService.InitializeTeamsAndMatches db [];
  let '(teams, h) := SQLStorageService.GetTeams db h in
  let '(matches, h) := SQLStorageService.GetMatches db h in
  currentWeek ← SQLStorageService.GetCurrentWeek db;
  Some (updateLeagueTable (mkState h (mkLeague teams matches currentWeek []) 0), db).

(** ** The server and its database

    What the handlers write to the ideal database, beside what they do
    to the memory.  The error view of the ideal database is [AlwaysOk]:
    none of its writes fails. *)

(** "Save updated data to database", the block that follows
    [weeklySimulator] in [SimulateNextWeek] and [SimulateAllMatches]:
    the week counter, the matches of the week that are played, and the
    teams of [league.Teams]. *)
Definition saveWeek_writes (s : State) (db : SQLStorageService.Database)
    : SQLStorageService.Database :=
  let league := st_league s in
  let db := SQLStorageService.UpdateCurrentWeek (CurrentWeek league) db in
  let db := foldl (fun db m =>
                     if (Week m =? CurrentWeek league) && Played m
                     then SQLStorageService.SaveMatchResult (st_heap s) m db
                     else db)
                  db (Matches league) in
  foldl (fun db team => SQLStorageService.UpdateTeam (st_heap s !!! team) db)
        db (Teams league).

(** "Save to database" of [editMatchResultHandler]: the corrected match
    and the two sides of it. *)
Definition saveCorrection_writes (s : State) (targetMatch : Match)
    (db : SQLStorageService.Database) : SQLStorageService.Database :=
  let db := SQLStorageService.SaveMatchResult (st_heap s) targetMatch db in
  let db := SQLStorageService.UpdateTeam (st_heap s !!! HomeTeam targetMatch) db in
  SQLStorageService.UpdateTeam (st_heap s !!! AwayTeam targetMatch) db.

(** The server: [globalLeague] and the database file. *)
Definition Server : Type := State * SQLStorageService.Database.

Section Server.
Context {F : Type} `{Float64 F}.
Variable rand_Float64 : nat -> F.

(** POST /league/next-week: the answer, and the server after it.  The
    database is written to when the week has been simulated. *)
Definition serve_next_week (w : ResponseWriter) (sv : Server) : Response * Server :=
  let '(s, db) := sv in
  let nextWeek := wrap (CurrentWeek (st_league s) + 1) in
  let hasMatches :=
    existsb (fun m => (Week m =? nextWeek) && negb (Played m)) (Matches (st_league s)) in
  let '(response, s') := simulateNextWeekHandler rand_Float64 (Some tt) w s in
  (response, (s', if hasMatches then saveWeek_writes s' db else db)).

(** PUT /league/matches/{id}: the answer, and the server after it.  The
    database is written to when the correction has been made. *)
Definition serve_correction (w : ResponseWriter) (r : Request) (sv : Server)
    : Response * Server :=
  let '(s, db) := sv in
  let '(response, s') := editMatchResultHandler (Some tt) w r s in
  let db :=
    match req_id r, req_body r with
    | Some matchId, Some _ =>
      match findMatch matchId (Matches (st_league s')) with
      | Some (_, targetMatch) =>
        if Played targetMatch then saveCorrection_writes s' targetMatch db else db
      | None => db
      end
    | _, _ => db
    end in
  (response, (s', db)).

End Server.

(** The server is stopped and started again: the memory is lost and
    [initializeLeague] runs on the database file. *)
Definition restart (sv : Server) : option Server := initializeLeague sv.2.

(** * Specification vocabulary *)

(** ** The ledger a list of results implies

    A [Ledger] is what the delta rule adds to one team: goals for,
    goals against, wins, draws, losses, points, as mathematical
    integers. *)

Record Ledger := mkLedger {
  l_gf : Z; l_ga : Z; l_w : Z; l_d : Z; l_l : Z; l_pts : Z
}.

Definition ledger0 : Ledger := mkLedger 0 0 0 0 0 0.

Definition ledger_add (a b : Ledger) : Ledger :=
  mkLedger (l_gf a + l_gf b) (l_ga a + l_ga b) (l_w a + l_w b)
           (l_d a + l_d b) (l_l a + l_l b) (l_pts a + l_pts b).

Definition ledger_opp (a : Ledger) : Ledger :=
  mkLedger (- l_gf a) (- l_ga a) (- l_w a) (- l_d a) (- l_l a) (- l_pts a).

(** What a scoreline adds to the home side and to the away side. *)
Definition homeDelta (hs aws : Z) : Ledger :=
  if hs >? aws then mkLedger hs aws 1 0 0 3
  else if hs <? aws then mkLedger hs aws 0 0 1 0
  else mkLedger hs aws 0 1 0 1.

Definition awayDelta (hs aws : Z) : Ledger :=
  if hs >? aws then mkLedger aws hs 0 0 1 0
  else if hs <? aws then mkLedger aws hs 1 0 0 3
  else mkLedger aws hs 0 1 0 1.

(** What the scoreline of a match between [home] and [away] adds to the
    team at address [p] (both summands when [home = away = p]). *)
Definition delta (home away : ptr) (hs aws : Z) (p : ptr) : Ledger :=
  ledger_add (if decide (home = p) then homeDelta hs aws else ledger0)
             (if decide (away = p) then awayDelta hs aws else ledger0).

Definition contrib (p : ptr) (m : Match) : Ledger :=
  if Played m
  then delta (HomeTeam m) (AwayTeam m) (HomeTeamScore m) (AwayTeamScore m) p
  else ledger0.

(** The ledger of [p] recomputed from the played matches. *)
Definition ideal (p : ptr) (ms : list Match) : Ledger :=
  foldr (fun m acc => ledger_add (contrib p m) acc) ledger0 ms.

(** [t] after the six counters moved by [d], in [int] arithmetic. *)
Definition bump (d : Ledger) (t : Team) : Team :=
  mkTeam (TeamName t) (TeamId t) (TeamStrength t)
         (wrap (GoalsFor t + l_gf d)) (wrap (GoalsAgainst t + l_ga d))
         (wrap (Wins t + l_w d)) (wrap (Draws t + l_d d))
         (wrap (Losses t + l_l d)) (wrap (Points t + l_pts d))
         (GoalsDifference t).

Definition fixGD (t : Team) : Team :=
  set_GoalsDifference (wrap (GoalsFor t - GoalsAgainst t)) t.

(** The goal difference is recomputed for the two sides only. *)
Definition settle (home away p : ptr) (t : Team) : Team :=
  if decide (home = p) then fixGD t
  else if decide (away = p) then fixGD t else t.

(** The seven counters of a [Team] are [int]s. *)
Definition int_team (t : Team) : Prop :=
  in_range (GoalsFor t) /\ in_range (GoalsAgainst t) /\ in_range (Wins t) /\
  in_range (Draws t) /\ in_range (Losses t) /\ in_range (Points t) /\
  in_range (GoalsDifference t).

(** ** Ledgers that agree with the results

    [agrees t d]: the counters of [t] are the [int] images of the
    recomputed ledger [d], and its goal difference is up to date. *)

Definition agrees (t : Team) (d : Ledger) : Prop :=
  GoalsFor t = wrap (l_gf d) /\ GoalsAgainst t = wrap (l_ga d) /\
  Wins t = wrap (l_w d) /\ Draws t = wrap (l_d d) /\
  Losses t = wrap (l_l d) /\ Points t = wrap (l_pts d) /\
  GoalsDifference t = wrap (l_gf d - l_ga d).

(** ** The invariant of the League

    Every ledger in the store is the one the played matches imply. *)

Definition Inv (s : State) : Prop :=
  forall p t, st_heap s !! p = Some t ->
              agrees t (ideal p (Matches (st_league s))).

(** What no operation changes: who the teams are, which addresses the
    League lists, and the fixture list up to scores and played flags. *)
Definition statics (t : Team) : string * Z * Z :=
  (TeamName t, TeamId t, TeamStrength t).

Definition skeleton (m : Match) : Z * Z * ptr * ptr :=
  (MatchId m, Week m, HomeTeam m, AwayTeam m).

Definition same_frame (s s' : State) : Prop :=
  fmap statics (st_heap s) = fmap statics (st_heap s') /\
  Teams (st_league s) = Teams (st_league s') /\
  fmap skeleton (Matches (st_league s)) = fmap skeleton (Matches (st_league s')).

(** The state after a scoreline has been recorded on the unplayed
    match [i] (the tail of [simulateMatch]). *)
Definition recorded (i : nat) (m : Match) (hs aws : Z) (s : State) : State :=
  mkState (updateTeamStats (HomeTeam m) (AwayTeam m) hs aws (st_heap s))
          (set_Matches (<[i := set_Played true (set_Score hs aws m)]>
                          (Matches (st_league s))) (st_league s))
          (S (S (st_rand s))).

(** The state after the played match [i] has been given the scoreline
    [(hs, aws)] by the correction, before the table is rebuilt. *)
Definition rescored (i : nat) (m : Match) (hs aws : Z) (s : State) : State :=
  mkState (applyNewResult (HomeTeam m) (AwayTeam m) hs aws
             (revertTeamStats (HomeTeam m) (AwayTeam m)
                (HomeTeamScore m) (AwayTeamScore m) (st_heap s)))
          (set_Matches (<[i := set_Score hs aws m]> (Matches (st_league s)))
                       (st_league s))
          (st_rand s).

(** ** Reachable states *)

(** A ledger with every counter at zero. *)
Definition zero_ledger (t : Team) : Prop :=
  GoalsFor t = 0 /\ GoalsAgainst t = 0 /\ Wins t = 0 /\ Draws t = 0 /\
  Losses t = 0 /\ Points t = 0 /\ GoalsDifference t = 0.

(** A League before its first match: every ledger is zero and no match
    is played. *)
Definition initial (s : State) : Prop :=
  Forall zero_ledger (st_heap s) /\
  Forall (fun m => Played m = false) (Matches (st_league s)).

Section Operations.
Context {F : Type} `{Float64 F}.
Variable rand_Float64 : nat -> F.
Context {DB : Type} `{StorageService DB}.
Variable storageService : option DB.

(** One mutating operation of the program: a week or the rest of the
    season simulated, a result corrected, or, taken on its own, one
    match simulated. *)
Inductive step : State -> State -> Prop :=
  | step_simulateMatch i s :
      step s (simulateMatch rand_Float64 i s)
  | step_weeklySimulator s :
      step s (weeklySimulator rand_Float64 s)
  | step_SimulateNextWeek s :
      step s (SimulateNextWeek rand_Float64 storageService s).2
  | step_SimulateAllMatches s :
      step s (SimulateAllMatches rand_Float64 storageService s).2
  | step_editMatchResultHandler w r s :
      step s (editMatchResultHandler storageService w r s).2.

(** The memories the operations lead to from such a League. *)
Definition reachable (s : State) : Prop :=
  exists s0, initial s0 /\ rtc step s0 s.

End Operations.

(** ** Vocabulary of the ledger theorems *)

(** The played matches in which the team at [p] is one of the sides. *)
Definition played_matches_of (p : ptr) (ms : list Match) : list Match :=
  filter (fun m => Played m = true /\ (HomeTeam m = p \/ AwayTeam m = p)) ms.

(** [total := 0; for _, team := range teams { total += f(team) }]. *)
Definition goSum (f : Team -> Z) (h : heap) (teams : list ptr) : Z :=
  foldl (fun total team => wrap (total + f (h !!! team))) 0 teams.

(** Mathematical sum of [g] over a list of addresses. *)
Definition sum_over (g : ptr -> Z) (ps : list ptr) : Z :=
  foldr (fun p acc => g p + acc) 0 ps.

(** A team with its ledger cleared. *)
Definition zeroed (t : Team) : Team :=
  mkTeam (TeamName t) (TeamId t) (TeamStrength t) 0 0 0 0 0 0 0.

(** The engine's ledger update applied, in fixture order, to every
    played match with the scoreline it records. *)
Definition replay (ms : list Match) (h : heap) : heap :=
  foldl (fun h m =>
           if Played m
           then updateTeamStats (HomeTeam m) (AwayTeam m)
                                (HomeTeamScore m) (AwayTeamScore m) h
           else h)
        h ms.

(** Every team's counters are [int]s and its goal difference is up to
    date. *)
Definition ledger_consistent (s : State) : Prop :=
  Forall (fun t => int_team t /\
                   GoalsDifference t = wrap (GoalsFor t - GoalsAgainst t))
         (st_heap s).

(** The League lists each team once, every listed address is
    allocated, and both sides of every match are listed teams. *)
Definition roster_ok (s : State) : Prop :=
  NoDup (Teams (st_league s)) /\
  Forall (fun p => (p < length (st_heap s))%nat) (Teams (st_league s)) /\
  Forall (fun m => HomeTeam m ∈ Teams (st_league s) /\
                   AwayTeam m ∈ Teams (st_league s))
         (Matches (st_league s)).

(** Goals scored and conceded, wins and losses, totalled over the
    League's teams in [int] arithmetic, balance. *)
Definition conserved (s : State) : Prop :=
  goSum GoalsFor (st_heap s) (Teams (st_league s))
  = goSum GoalsAgainst (st_heap s) (Teams (st_league s)) /\
  goSum Wins (st_heap s) (Teams (st_league s))
  = goSum Losses (st_heap s) (Teams (st_league s)).

(** ** Vocabulary of the error-handling theorems *)

(** No unplayed match is scheduled for the week after the current one. *)
Definition no_match_due (s : State) : Prop :=
  Forall (fun m => ~ (Week m = wrap (CurrentWeek (st_league s) + 1) /\ Played m = false))
         (Matches (st_league s)).

(** A replacement scoreline that is malformed in the specification's
    sense: the body does not decode, or a goal count is negative. *)
Definition malformed_scoreline (body : option (Z * Z)) : Prop :=
  body = None \/ exists hs aws, body = Some (hs, aws) /\ (hs < 0 \/ aws < 0).

(** The answer is an [http.Error]. *)
Definition is_error (r : Response) : Prop :=
  exists msg code, r = HttpError msg code.

(** ** Vocabulary of the fixture theorem *)

(** How many matches of [ms] the team at [t] plays at home, away, in
    all, and in week [w]. *)
Definition home_games (t : ptr) (ms : list Match) : nat :=
  length (filter (fun m => HomeTeam m = t) ms).

Definition away_games (t : ptr) (ms : list Match) : nat :=
  length (filter (fun m => AwayTeam m = t) ms).

Definition games (t : ptr) (ms : list Match) : nat :=
  length (filter (fun m => HomeTeam m = t \/ AwayTeam m = t) ms).

Definition games_in_week (t : ptr) (w : Z) (ms : list Match) : nat :=
  length (filter (fun m => Week m = w /\ (HomeTeam m = t \/ AwayTeam m = t)) ms).

(** Some team is a side of both matches. *)
Definition share_competitor (m1 m2 : Match) : Prop :=
  HomeTeam m1 = HomeTeam m2 \/ HomeTeam m1 = AwayTeam m2 \/
  AwayTeam m1 = HomeTeam m2 \/ AwayTeam m1 = AwayTeam m2.

(** The schedule with the team at position [k] of the input written [k]. *)
Definition index_fixtures : list Match :=
  default [] (createPremierLeagueMatches [0; 1; 2; 3]%nat).

(** A match with its two sides renamed by [f]. *)
Definition rename (f : nat -> ptr) (m : Match) : Match :=
  mkMatch (MatchId m) (Week m) (f (HomeTeam m)) (f (AwayTeam m))
          (HomeTeamScore m) (AwayTeamScore m) (Played m).

(** ** Vocabulary of the standings theorem *)

(** [a] may stand above [b]: it has more points, or as many points and
    at least the goal difference. *)
Definition ranks_no_lower (a b : LeagueTableEntry) : Prop :=
  LTE.Points b < LTE.Points a \/
  (LTE.Points b = LTE.Points a /\ LTE.GoalsDifference b <= LTE.GoalsDifference a).

(** The entries tied on the pair (points, goal difference). *)
Definition tied_on (pts gd : Z) (e : LeagueTableEntry) : Prop :=
  LTE.Points e = pts /\ LTE.GoalsDifference e = gd.

(** The entry [e] shows the team [t]: its name and its counters, and
    the matches played and the goal difference computed from them. *)
Definition shows (e : LeagueTableEntry) (t : Team) : Prop :=
  LTE.TeamName e = TeamName t /\
  LTE.Played e = wrap (wrap (Wins t + Draws t) + Losses t) /\
  LTE.Wins e = Wins t /\ LTE.Draws e = Draws t /\ LTE.Losses e = Losses t /\
  LTE.GoalsFor e = GoalsFor t /\ LTE.GoalsAgainst e = GoalsAgainst t /\
  LTE.GoalsDifference e = wrap (GoalsFor t - GoalsAgainst t) /\
  LTE.Points e = Points t.

(** The two keys of the order, read off the team: its points and its
    goals scored minus its goals conceded. *)
Definition goal_difference (t : Team) : Z := wrap (GoalsFor t - GoalsAgainst t).

(** The team [a] may stand above [b]: it has more points, or as many
    points and at least the goal difference. *)
Definition stands_no_lower (a b : Team) : Prop :=
  Points b < Points a \/
  (Points b = Points a /\ goal_difference b <= goal_difference a).

(** The teams level on the pair (points, goal difference). *)
Definition level_on (pts gd : Z) (t : Team) : Prop :=
  Points t = pts /\ goal_difference t = gd.

(** ** Vocabulary of the predictor theorem *)

(** The sum of the percentages a prediction map holds. *)
Definition pct_sum (m : gmap string Qc) : Qc :=
  map_fold (fun _ pct acc => (pct + acc)%Qc) 0%Qc m.

(** The sum of a list of rationals. *)
Definition Qc_sum (l : list Qc) : Qc := foldr Qcplus 0%Qc l.

(** The weight formula of the specification, in exact arithmetic. *)
Definition bonus (position : Z) : Qc :=
  if position =? 1 then Q2Qc 1.2 else if position =? 2 then Q2Qc 1.1 else 1%Qc.

(** [0.4 points + 0.3 strength + 0.2 max(gd, 0) + 1.0 wins], times the
    bonus of the position. *)
Definition claimed_weight (points strength gd wins position : Z) : Qc :=
  ((Q2Qc 0.4 * Qc_of_Z points + Q2Qc 0.3 * Qc_of_Z strength
    + Q2Qc 0.2 * Qc_of_Z (Z.max gd 0) + Q2Qc 1.0 * Qc_of_Z wins)
   * bonus position)%Qc.

(** The name of the team at an address. *)
Definition team_name (s : State) (team : ptr) : string :=
  TeamName (st_heap s !!! team).

(** The strength the predictor finds for a table entry: that of the
    first team of that name, 75 when there is none. *)
Definition strength_of (s : State) (name : string) : Z :=
  match list_find (fun team => team_name s team = name) (Teams (st_league s)) with
  | Some (_, team) => TeamStrength (st_heap s !!! team)
  | None => 75
  end.

(** The weight of a table entry, the total of the table, and the map
    from names to weights the predictor's loop builds. *)
Definition weight_of (s : State) (e : LeagueTableEntry) : Qc :=
  claimed_weight (LTE.Points e) (strength_of s (LTE.TeamName e))
                 (LTE.GoalsDifference e) (LTE.Wins e) (LTE.Position e).

Definition total_weight (s : State) : Qc :=
  Qc_sum (weight_of s <$> LeagueTable (st_league s)).

Definition weight_map (s : State) : gmap string Qc :=
  foldl (fun m e => <[LTE.TeamName e := weight_of s e]> m) ∅
        (LeagueTable (st_league s)).

(** ** A sample run

    The league of [main] with a random source that alternates between
    0.9 and 0.1, no store attached; [week1] is the memory after the
    first [weeklySimulator]. *)

Definition sample_rand : nat -> Qc :=
  fun n => Q2Qc (if Nat.even n then 0.9 else 0.1).

Definition no_store : option unit := None.

(** A client that receives what is written to it, and one that has
    hung up. *)
Definition client : ResponseWriter := mkResponseWriter (fun _ => None).

Definition hung_up : ResponseWriter :=
  mkResponseWriter (fun _ => Some "write: broken pipe").

Definition week1 : State := weeklySimulator sample_rand main_state.

(** The memory once the whole season of the sample run is played. *)
Definition season_end : State := playSeason sample_rand main_state.

(** The same run in binary64 arithmetic, and the distance of the sum of
    its predictions from 100. *)
Definition sample_rand64 : nat -> float :=
  fun n => if Nat.even n
           then PrimFloat.div (float_of_Z 9) (float_of_Z 10)
           else PrimFloat.div (float_of_Z 1) (float_of_Z 10).

Definition week1_binary64 : State := weeklySimulator sample_rand64 main_state.

Definition pct_error64 (m : gmap string float) : float :=
  PrimFloat.abs
    (PrimFloat.sub (map_fold (fun _ pct acc => PrimFloat.add pct acc) PrimFloat.zero m)
                   (float_of_Z 100)).

(** ** Vocabulary of the engine and scheduler theorems *)

(** Every recorded result has between 0 and 6 goals a side. *)
Definition scores_within_cap (s : State) : Prop :=
  Forall (fun m => Played m = true ->
                   0 <= HomeTeamScore m <= 6 /\ 0 <= AwayTeamScore m <= 6)
         (Matches (st_league s)).

(** No recorded result has more than 6 goals a side. *)
Definition scores_capped (s : State) : Prop :=
  Forall (fun m => Played m = true ->
                   HomeTeamScore m <= 6 /\ AwayTeamScore m <= 6)
         (Matches (st_league s)).

Section Drawn.
Context {F : Type} `{Float64 F}.
Variable rand_Float64 : nat -> F.

(** The scoreline [simulateMatch] draws for the match [m] in [s]. *)
Definition drawn (m : Match) (s : State) : Z * Z :=
  drawScore (TeamStrength (st_heap s !!! HomeTeam m))
            (TeamStrength (st_heap s !!! AwayTeam m))
            (rand_Float64 (st_rand s)) (rand_Float64 (S (st_rand s))).

End Drawn.

(** The store is absent or none of its writes fails. *)
Definition store_ok {DB : Type} `{StorageService DB} (storageService : option DB) : Prop :=
  match storageService with
  | None => True
  | Some db =>
    (forall m, SaveMatchResult db m = None) /\
    (forall t, UpdateTeam db t = None) /\
    (forall w, UpdateCurrentWeek db w = None)
  end.

(** The league table is the one [updateLeagueTable] would build now. *)
Definition table_fresh (s : State) : Prop :=
  LeagueTable (st_league s) = buildTable (st_heap s) (Teams (st_league s)).


(** Every counter of every team in the store is an [int]. *)
Definition int_heap (s : State) : Prop := Forall int_team (st_heap s).

(** ** Vocabulary of the storage theorems *)

(** The [Team] object [GetTeams] makes of a row. *)
Definition team_of_row (r : Z * SQLStorageService.TeamRow) : Team :=
  mkTeam (SQLStorageService.name r.2) r.1 (SQLStorageService.strength r.2)
         (SQLStorageService.goals_for r.2) (SQLStorageService.goals_against r.2)
         (SQLStorageService.wins r.2) (SQLStorageService.draws r.2)
         (SQLStorageService.losses r.2) (SQLStorageService.points r.2)
         (SQLStorageService.goals_difference r.2).

(** The row [UpdateTeam] writes for a [Team]. *)
Definition row_of_team (t : Team) : Z * SQLStorageService.TeamRow :=
  (TeamId t,
   SQLStorageService.mkTeamRow (TeamName t) (TeamStrength t) (GoalsFor t)
     (GoalsAgainst t) (Wins t) (Draws t) (Losses t) (Points t) (GoalsDifference t)).

(** No side of a match is one of the objects [league.Teams] lists. *)
Definition sides_apart (s : State) : Prop :=
  Forall (fun m => (HomeTeam m ∉ Teams (st_league s)) /\
                   (AwayTeam m ∉ Teams (st_league s)))
         (Matches (st_league s)).

(** The object at [p] was made by [GetMatches] for the team [id]: it
    carries the id and an empty ledger. *)
Definition cached_team (h : heap) (id : Z) (p : ptr) : Prop :=
  exists t, h !! p = Some t /\ TeamId t = id /\ zero_ledger t.

(** The match [m] is what [GetMatches] makes of the row [row], its
    sides being the objects [teamCache] holds for the two team ids. *)
Definition match_of_row (teamCache : gmap Z ptr)
    (row : SQLStorageService.JoinedRow) (m : Match) : Prop :=
  MatchId m = SQLStorageService.m_id row /\
  Week m = SQLStorageService.m_week row /\
  HomeTeamScore m = SQLStorageService.m_home_score row /\
  AwayTeamScore m = SQLStorageService.m_away_score row /\
  Played m = SQLStorageService.m_played row /\
  teamCache !! SQLStorageService.m_home_team_id row = Some (HomeTeam m) /\
  teamCache !! SQLStorageService.m_away_team_id row = Some (AwayTeam m).

(** Every object of [teamCache] was made by [GetMatches], after the
    [n0] objects there were, for the id it is filed under. *)
Definition cache_ok (n0 : nat) (teamCache : gmap Z ptr) (h : heap) : Prop :=
  forall id p, teamCache !! id = Some p -> (n0 <= p)%nat /\ cached_team h id p.

(** The [Team] objects a call of [GetTeams] returns, by value. *)
Definition loaded (r : list ptr * heap) : list Team :=
  (fun p => r.2 !!! p) <$> r.1.

(** The League as the database sees it: its teams by value, and its
    matches with each side named by its team id. *)
Definition team_values (s : State) : list Team :=
  (fun p => st_heap s !!! p) <$> Teams (st_league s).

Definition match_values (h : heap) (ms : list Match)
    : list (Z * Z * Z * Z * Z * Z * bool) :=
  (fun m => (MatchId m, Week m, TeamId (h !!! HomeTeam m), TeamId (h !!! AwayTeam m),
             HomeTeamScore m, AwayTeamScore m, Played m)) <$> ms.

(** The same seven values read off a row of the query of [GetMatches]. *)
Definition row_values (row : SQLStorageService.JoinedRow)
    : Z * Z * Z * Z * Z * Z * bool :=
  (SQLStorageService.m_id row, SQLStorageService.m_week row,
   SQLStorageService.m_home_team_id row, SQLStorageService.m_away_team_id row,
   SQLStorageService.m_home_score row, SQLStorageService.m_away_score row,
   SQLStorageService.m_played row).

(** Since [s0] the frame of the League is the same and the objects of
    [league.Teams] have not been written to. *)
Definition quiet (s0 s : State) : Prop :=
  same_frame s0 s /\
  forall p, p ∈ Teams (st_league s0) -> st_heap s !! p = st_heap s0 !! p.

(** A database whose table of teams holds the four teams of [main]. *)
Definition sample_db : SQLStorageService.Database :=
  foldl (fun db team => SQLStorageService.UpdateTeam team db)
        SQLStorageService.empty (st_heap main_state).

(** ** Vocabulary of the theorems on the server *)

(** The seven counters of a team: goals for and against, wins, draws,
    losses, points, goal difference. *)
Definition counters (t : Team) : Z * Z * Z * Z * Z * Z * Z :=
  (GoalsFor t, GoalsAgainst t, Wins t, Draws t, Losses t, Points t, GoalsDifference t).

(** The played matches one of whose sides is the team of id [id]. *)
Definition played_matches_of_id (h : heap) (id : Z) (ms : list Match) : list Match :=
  filter (fun m => Played m = true /\
                   (TeamId (h !!! HomeTeam m) = id \/ TeamId (h !!! AwayTeam m) = id)) ms.

(** The identities of a ledger that do not depend on the matches: the
    points are those of the wins and draws and the goal difference is
    up to date, the counters being [int]s. *)
Definition ledger_identities (t : Team) : Prop :=
  int_team t /\
  Points t = wrap (3 * Wins t + Draws t) /\
  GoalsDifference t = wrap (GoalsFor t - GoalsAgainst t).

Definition identities_hold (s : State) : Prop :=
  Forall ledger_identities (st_heap s).

(** ** A sample run of the server

    The server is started on an empty database file and asked for the
    first week ([served_week1]) and the second ([served_week2]); then
    match 1 is corrected to 6-0 ([served_correction]).  [reloaded_week1]
    and [reloaded_correction] are the server stopped and started again
    after the first week and after the correction.  The random source is
    that of the sample run and the client receives the answers. *)
Definition served_start : option Server := initializeLeague SQLStorageService.empty.

Definition served_week1 : option Server :=
  sv ← served_start; Some (serve_next_week sample_rand client sv).2.

Definition served_week2 : option Server :=
  sv ← served_week1; Some (serve_next_week sample_rand client sv).2.

Definition served_correction : option Server :=
  sv ← served_week2;
  Some (serve_correction client (mkRequest (Some 1) (Some (6, 0))) sv).2.

Definition reloaded_week1 : option Server := served_week1 ≫= restart.

Definition reloaded_correction : option Server := served_correction ≫= restart.

(** * Verification *)

(** ** Arithmetic of [wrap] *)

Lemma wrap_in_range x : in_range (wrap x).
Proof.
  unfold in_range, wrap.
  pose proof (Z.mod_pos_bound (x + half) modulus) as Hb.
  unfold modulus, half in *. lia.
Qed.

Lemma wrap_small x : in_range x -> wrap x = x.
Proof.
  unfold in_range, wrap, modulus, half. intros Hx.
  rewrite Z.mod_small by lia. lia.
Qed.

Lemma wrap_wrap x : wrap (wrap x) = wrap x.
Proof. apply wrap_small, wrap_in_range. Qed.

Lemma wrap_shift x k : wrap (x + k * modulus) = wrap x.
Proof. unfold wrap. f_equal. replace (x + k * modulus + half) with (x + half + k * modulus) by lia.
       apply Z_mod_plus_full. Qed.

(** [wrap x] differs from [x] by a multiple of the modulus. *)
Lemma wrap_decomp x : exists k, wrap x = x + k * modulus.
Proof.
  exists (- ((x + half) / modulus)). unfold wrap.
  rewrite (Z.mod_eq (x + half) modulus) by (unfold modulus; lia). lia.
Qed.

Lemma wrap_add_l x y : wrap (wrap x + y) = wrap (x + y).
Proof.
  destruct (wrap_decomp x) as [k ->].
  replace (x + k * modulus + y) with (x + y + k * modulus) by lia.
  apply wrap_shift.
Qed.

Lemma wrap_add_r x y : wrap (x + wrap y) = wrap (x + y).
Proof. rewrite Z.add_comm, wrap_add_l. f_equal. lia. Qed.

Lemma wrap_sub_l x y : wrap (wrap x - y) = wrap (x - y).
Proof. unfold Z.sub. apply wrap_add_l. Qed.

Lemma wrap_sub_r x y : wrap (x - wrap y) = wrap (x - y).
Proof.
  destruct (wrap_decomp y) as [k ->].
  replace (x - (y + k * modulus)) with (x - y + (- k) * modulus) by lia.
  apply wrap_shift.
Qed.

Lemma wrap_mul_r c x : wrap (c * wrap x) = wrap (c * x).
Proof.
  destruct (wrap_decomp x) as [k ->].
  replace (c * (x + k * modulus)) with (c * x + (c * k) * modulus) by lia.
  apply wrap_shift.
Qed.

(** Goals about [wrap] and [in_range] are linear arithmetic with one
    Euclidean division by a constant. *)
Ltac wrap_lia :=
  unfold in_range, wrap, modulus, half in *;
  change (2 ^ 64) with 18446744073709551616 in *;
  change (2 ^ 63) with 9223372036854775808 in *;
  Z.to_euclidean_division_equations; lia.

Lemma ledger_eq a b :
  l_gf a = l_gf b -> l_ga a = l_ga b -> l_w a = l_w b ->
  l_d a = l_d b -> l_l a = l_l b -> l_pts a = l_pts b -> a = b.
Proof. destruct a, b; simpl; congruence. Qed.

Lemma ledger_add_0_l a : ledger_add ledger0 a = a.
Proof. apply ledger_eq; simpl; lia. Qed.

Lemma ledger_add_0_r a : ledger_add a ledger0 = a.
Proof. apply ledger_eq; simpl; lia. Qed.

Lemma ledger_add_comm a b : ledger_add a b = ledger_add b a.
Proof. apply ledger_eq; simpl; lia. Qed.

Lemma ledger_add_assoc a b c :
  ledger_add a (ledger_add b c) = ledger_add (ledger_add a b) c.
Proof. apply ledger_eq; simpl; lia. Qed.

Lemma ledger_add_opp a : ledger_add a (ledger_opp a) = ledger0.
Proof. apply ledger_eq; simpl; lia. Qed.

(** *** The engine's ledger update, address by address *)

Ltac heap_steps :=
  unfold add_GoalsFor, add_GoalsAgainst, add_Wins, add_Draws, add_Losses,
    add_Points, sub_GoalsFor, sub_GoalsAgainst, sub_Wins, sub_Draws,
    sub_Losses, sub_Points, recompute_GoalsDifference;
  cbv zeta;
  repeat (rewrite list_lookup_alter_eq || rewrite list_lookup_alter_ne by done).

(** Evaluates the field assignments on a [Team] given by its fields,
    innermost first. *)
Ltac team_eval :=
  cbv beta iota zeta delta
    [bump fixGD settle set_GoalsDifference set_GoalsFor set_GoalsAgainst
     set_Wins set_Draws set_Losses set_Points
     TeamName TeamId TeamStrength GoalsFor GoalsAgainst Wins Draws Losses
     Points GoalsDifference
     ledger_add ledger_opp ledger0 l_gf l_ga l_w l_d l_l l_pts
     fmap option_fmap option_map].

Ltac team_fields :=
  match goal with
  | Hi : int_team ?t |- _ =>
    destruct t; unfold int_team in Hi; cbn in Hi;
    team_eval; try reflexivity; do 2 f_equal; wrap_lia
  end.

Lemma lookup_updateTeamStats home away hs aws h p t :
  h !! p = Some t -> int_team t ->
  updateTeamStats home away hs aws h !! p
  = Some (settle home away p (bump (delta home away hs aws p) t)).
Proof.
  intros Hp Hi.
  unfold updateTeamStats, settle, delta, homeDelta, awayDelta.
  destruct (decide (home = p)) as [->|Hh], (decide (away = p)) as [->|Ha];
    (destruct (hs >? aws); [|destruct (hs <? aws)]); heap_steps;
    rewrite Hp; team_fields.
Qed.

Lemma length_updateTeamStats home away hs aws h :
  length (updateTeamStats home away hs aws h) = length h.
Proof.
  unfold updateTeamStats.
  destruct (hs >? aws); [|destruct (hs <? aws)]; heap_steps;
    cbv zeta; rewrite ?length_alter; reflexivity.
Qed.

Lemma lookup_revertTeamStats home away hs aws h p t :
  h !! p = Some t -> int_team t ->
  revertTeamStats home away hs aws h !! p
  = Some (bump (ledger_opp (delta home away hs aws p)) t).
Proof.
  intros Hp Hi.
  unfold revertTeamStats, delta, homeDelta, awayDelta.
  destruct (decide (home = p)) as [->|Hh], (decide (away = p)) as [->|Ha];
    (destruct (hs >? aws); [|destruct (hs <? aws)]); heap_steps;
    rewrite Hp; team_fields.
Qed.

Lemma length_revertTeamStats home away hs aws h :
  length (revertTeamStats home away hs aws h) = length h.
Proof.
  unfold revertTeamStats.
  destruct (hs >? aws); [|destruct (hs <? aws)]; heap_steps;
    cbv zeta; rewrite ?length_alter; reflexivity.
Qed.

(** The second half of the correction is the engine's update, line for
    line. *)
Lemma applyNewResult_updateTeamStats : applyNewResult = updateTeamStats.
Proof. reflexivity. Qed.

Ltac agrees_fields :=
  repeat match goal with
         | t : Team |- _ => destruct t
         | d : Ledger |- _ => destruct d
         end;
  unfold agrees, int_team in *;
  cbv beta iota zeta delta
    [bump fixGD settle set_GoalsDifference
     TeamName TeamId TeamStrength GoalsFor GoalsAgainst Wins Draws Losses
     Points GoalsDifference
     ledger_add ledger_opp ledger0 l_gf l_ga l_w l_d l_l l_pts] in *;
  repeat match goal with
         | H : _ /\ _ |- _ => destruct H
         end;
  subst.

Lemma agrees_int_team t d : agrees t d -> int_team t.
Proof.
  unfold agrees, int_team. intros (-> & -> & -> & -> & -> & -> & ->).
  repeat split; apply wrap_in_range.
Qed.

Lemma int_team_bump d t : int_team t -> int_team (bump d t).
Proof.
  unfold int_team, bump; simpl. intros (_ & _ & _ & _ & _ & _ & Hgd).
  repeat split; try apply wrap_in_range; apply Hgd.
Qed.

Lemma bump_ledger0 t : int_team t -> bump ledger0 t = t.
Proof.
  intros Hi. destruct t. unfold int_team in Hi. cbn in Hi.
  unfold bump, ledger0; cbn. f_equal; wrap_lia.
Qed.

Lemma agrees_fixGD_bump t d e :
  agrees t d -> agrees (fixGD (bump e t)) (ledger_add d e).
Proof. intros Ha. agrees_fields. repeat split; wrap_lia. Qed.

Lemma agrees_unique t t' d :
  TeamName t = TeamName t' -> TeamId t = TeamId t' ->
  TeamStrength t = TeamStrength t' ->
  agrees t d -> agrees t' d -> t = t'.
Proof.
  destruct t, t'; unfold agrees; simpl.
  intros -> -> -> (-> & -> & -> & -> & -> & -> & ->) (-> & -> & -> & -> & -> & -> & ->).
  reflexivity.
Qed.

Lemma delta_untouched home away hs aws p :
  home <> p -> away <> p -> delta home away hs aws p = ledger0.
Proof.
  intros Hh Ha. unfold delta.
  destruct (decide (home = p)); [contradiction|].
  destruct (decide (away = p)); [contradiction|]. reflexivity.
Qed.

Lemma agrees_settle home away hs aws p t d :
  agrees t d ->
  agrees (settle home away p (bump (delta home away hs aws p) t))
         (ledger_add d (delta home away hs aws p)).
Proof.
  intros Ha. unfold settle.
  destruct (decide (home = p)) as [Hh|Hh]; [by apply agrees_fixGD_bump|].
  destruct (decide (away = p)) as [Haw|Haw]; [by apply agrees_fixGD_bump|].
  rewrite delta_untouched by done.
  rewrite bump_ledger0 by eauto using agrees_int_team.
  by rewrite ledger_add_0_r.
Qed.

(** Reverting a delta and applying another one. *)
Lemma agrees_settle_revert home away p t d old new :
  agrees t d ->
  (home <> p -> away <> p -> old = ledger0 /\ new = ledger0) ->
  agrees (settle home away p (bump new (bump (ledger_opp old) t)))
         (ledger_add (ledger_add d (ledger_opp old)) new).
Proof.
  intros Ha Hun. unfold settle.
  destruct (decide (home = p)) as [Hh|Hh];
    [clear Hun; agrees_fields; repeat split; wrap_lia|].
  destruct (decide (away = p)) as [Haw|Haw];
    [clear Hun; agrees_fields; repeat split; wrap_lia|].
  destruct (Hun Hh Haw) as [-> ->]. clear Hun.
  agrees_fields; repeat split; wrap_lia.
Qed.

(** *** Recomputation and in-place replacement of a match *)

Lemma ideal_cons p m ms : ideal p (m :: ms) = ledger_add (contrib p m) (ideal p ms).
Proof. reflexivity. Qed.

Lemma ideal_insert p ms i m m' :
  ms !! i = Some m ->
  ideal p (<[i := m']> ms)
  = ledger_add (ledger_add (ideal p ms) (ledger_opp (contrib p m))) (contrib p m').
Proof.
  revert i. induction ms as [|x ms IH]; intros [|i] Hi; simplify_eq/=.
  - apply ledger_eq; simpl; lia.
  - rewrite (IH _ Hi). apply ledger_eq; simpl; lia.
Qed.

Lemma contrib_unplayed p m : Played m = false -> contrib p m = ledger0.
Proof. unfold contrib. by intros ->. Qed.

Lemma same_frame_refl s : same_frame s s.
Proof. by repeat split. Qed.

Lemma same_frame_trans s1 s2 s3 :
  same_frame s1 s2 -> same_frame s2 s3 -> same_frame s1 s3.
Proof. intros (? & ? & ?) (? & ? & ?). repeat split; congruence. Qed.

Lemma lookup_same_length {A} (l l' : list A) i x :
  length l' = length l -> l' !! i = Some x -> exists y, l !! i = Some y.
Proof.
  intros Hl Hi. apply lookup_lt_Some in Hi. rewrite Hl in Hi.
  by apply lookup_lt_is_Some_2 in Hi.
Qed.

Lemma statics_pointwise (h h' : heap) :
  length h' = length h ->
  (forall p t t', h !! p = Some t -> h' !! p = Some t' -> statics t = statics t') ->
  fmap statics h = fmap statics h'.
Proof.
  intros Hl Hp. apply list_eq. intros p. rewrite !list_lookup_fmap.
  destruct (h !! p) as [t|] eqn:E.
  - destruct (lookup_lt_is_Some_2 h' p) as [t' E'].
    { rewrite Hl. by eapply lookup_lt_Some. }
    rewrite E'. simpl. f_equal. by eapply Hp.
  - apply lookup_ge_None in E. rewrite <- Hl in E.
    apply lookup_ge_None in E. by rewrite E.
Qed.

Lemma statics_settle_bump home away p d t :
  statics (settle home away p (bump d t)) = statics t.
Proof. unfold settle; repeat case_decide; reflexivity. Qed.

Lemma skeleton_insert (ms : list Match) i m m' :
  ms !! i = Some m -> skeleton m' = skeleton m ->
  fmap skeleton (<[i := m']> ms) = fmap skeleton ms.
Proof.
  intros Hi Hs. rewrite list_fmap_insert, Hs.
  apply list_insert_id. by rewrite list_lookup_fmap, Hi.
Qed.

Lemma Inv_recorded i m hs aws s :
  Inv s -> Matches (st_league s) !! i = Some m -> Played m = false ->
  Inv (recorded i m hs aws s).
Proof.
  intros HI Hm Hu p t' Hp. unfold recorded in *. simpl in *.
  destruct (lookup_same_length (st_heap s) _ p t' (length_updateTeamStats _ _ _ _ _) Hp)
    as [t Ht].
  pose proof (HI p t Ht) as Ha.
  rewrite (lookup_updateTeamStats _ _ _ _ _ _ t Ht) in Hp
    by eauto using agrees_int_team.
  injection Hp as <-.
  rewrite (ideal_insert p _ i m _ Hm), (contrib_unplayed p m Hu).
  replace (ledger_add (ideal p (Matches (st_league s))) (ledger_opp ledger0))
    with (ideal p (Matches (st_league s))) by (apply ledger_eq; simpl; lia).
  unfold contrib; simpl. by apply agrees_settle.
Qed.

Lemma Inv_rescored i m hs aws s :
  Inv s -> Matches (st_league s) !! i = Some m -> Played m = true ->
  Inv (rescored i m hs aws s).
Proof.
  intros HI Hm Hpl p t' Hp. unfold rescored in *. simpl in *.
  rewrite applyNewResult_updateTeamStats in Hp.
  destruct (lookup_same_length (st_heap s) _ p t'
              (eq_trans (length_updateTeamStats _ _ _ _ _)
                        (length_revertTeamStats _ _ _ _ _)) Hp) as [t Ht].
  pose proof (HI p t Ht) as Ha.
  pose proof (agrees_int_team _ _ Ha) as Hint.
  rewrite (lookup_updateTeamStats _ _ _ _ _ _ _
             (lookup_revertTeamStats _ _ _ _ _ _ _ Ht Hint)
             (int_team_bump _ _ Hint)) in Hp.
  injection Hp as <-.
  rewrite (ideal_insert p _ i m _ Hm).
  unfold contrib. simpl. rewrite Hpl.
  apply agrees_settle_revert; [done|].
  intros Hh Haw. by rewrite !delta_untouched.
Qed.

Lemma statics_alter (f : Team -> Team) p (h : heap) :
  (forall t, statics (f t) = statics t) ->
  fmap statics (alter f p h) = fmap statics h.
Proof.
  intros Hf. apply list_eq. intros j.
  rewrite !list_lookup_fmap, list_lookup_alter.
  case_decide; [subst|done]. destruct (h !! j); simpl; [|done]. by rewrite Hf.
Qed.

Ltac statics_steps :=
  unfold add_GoalsFor, add_GoalsAgainst, add_Wins, add_Draws, add_Losses,
    add_Points, sub_GoalsFor, sub_GoalsAgainst, sub_Wins, sub_Draws,
    sub_Losses, sub_Points, recompute_GoalsDifference;
  cbv zeta; repeat (rewrite statics_alter by done); reflexivity.

Lemma statics_updateTeamStats home away hs aws h :
  fmap statics (updateTeamStats home away hs aws h) = fmap statics h.
Proof.
  unfold updateTeamStats.
  destruct (hs >? aws); [|destruct (hs <? aws)]; statics_steps.
Qed.

Lemma statics_revertTeamStats home away hs aws h :
  fmap statics (revertTeamStats home away hs aws h) = fmap statics h.
Proof.
  unfold revertTeamStats.
  destruct (hs >? aws); [|destruct (hs <? aws)]; statics_steps.
Qed.

Lemma frame_recorded i m hs aws s :
  Matches (st_league s) !! i = Some m -> same_frame s (recorded i m hs aws s).
Proof.
  intros Hm. split; [|split]; simpl; [|done|].
  - by rewrite statics_updateTeamStats.
  - symmetry. by apply (skeleton_insert _ _ m).
Qed.

Lemma frame_rescored i m hs aws s :
  Matches (st_league s) !! i = Some m -> same_frame s (rescored i m hs aws s).
Proof.
  intros Hm. split; [|split]; simpl; [|done|].
  - by rewrite applyNewResult_updateTeamStats, statics_updateTeamStats,
      statics_revertTeamStats.
  - symmetry. by apply (skeleton_insert _ _ m).
Qed.

Lemma Inv_updateLeagueTable s : Inv s -> Inv (updateLeagueTable s).
Proof. intros HI. exact HI. Qed.

Lemma frame_updateLeagueTable s : same_frame s (updateLeagueTable s).
Proof. by repeat split. Qed.


(** ** The correction handler *)

Section HandlerFacts.
Context {DB : Type} `{StorageService DB}.
Variable storageService : option DB.

(** The correction either leaves the memory as it is or rescores a
    played match and rebuilds the table. *)
Lemma editMatchResultHandler_cases w r s :
  (editMatchResultHandler storageService w r s).2 = s \/
  exists matchId hs aws i m,
    req_id r = Some matchId /\ req_body r = Some (hs, aws) /\
    findMatch matchId (Matches (st_league s)) = Some (i, m) /\
    Played m = true /\
    (editMatchResultHandler storageService w r s).2
    = updateLeagueTable (rescored i m hs aws s).
Proof.
  unfold editMatchResultHandler.
  destruct (req_id r) as [matchId|]; [|by left].
  destruct (req_body r) as [[hs aws]|]; [|by left].
  destruct (findMatch _ _) as [[i m]|] eqn:Hf; [|by left].
  destruct (Played m) eqn:Hp; simpl; [|by left].
  right. exists matchId, hs, aws, i, m. repeat split; try done.
  by destruct (match storageService with Some _ => _ | None => _ end).
Qed.

Lemma findMatch_lookup matchId ms i m :
  findMatch matchId ms = Some (i, m) -> ms !! i = Some m /\ MatchId m = matchId.
Proof. unfold findMatch. intros Hf. apply list_find_Some in Hf. tauto. Qed.

Lemma Inv_editMatchResultHandler w r s :
  Inv s -> Inv (editMatchResultHandler storageService w r s).2.
Proof.
  intros HI.
  destruct (editMatchResultHandler_cases w r s)
    as [->|(id & hs & aws & i & m & _ & _ & Hf & Hp & ->)]; [done|].
  apply Inv_updateLeagueTable, Inv_rescored; [done| |done].
  by apply findMatch_lookup in Hf as [? _].
Qed.

Lemma frame_editMatchResultHandler w r s :
  same_frame s (editMatchResultHandler storageService w r s).2.
Proof.
  destruct (editMatchResultHandler_cases w r s)
    as [->|(id & hs & aws & i & m & _ & _ & Hf & Hp & ->)]; [apply same_frame_refl|].
  eapply same_frame_trans; [|apply frame_updateLeagueTable].
  apply frame_rescored. by apply findMatch_lookup in Hf as [? _].
Qed.

Lemma findMatch_insert matchId (ms : list Match) i m m' :
  findMatch matchId ms = Some (i, m) -> MatchId m' = MatchId m ->
  findMatch matchId (<[i := m']> ms) = Some (i, m').
Proof.
  unfold findMatch. intros Hf Hid. apply list_find_Some in Hf as (Hi & Hm & Hlt).
  apply list_find_Some. split; [|split].
  - apply list_lookup_insert_eq. by eapply lookup_lt_Some.
  - congruence.
  - intros j y Hj Hji. rewrite list_lookup_insert_ne in Hj by lia. by eapply Hlt.
Qed.

(** The correction of a played match found under its id. *)
Lemma editMatchResultHandler_played w matchId hs aws i m s :
  findMatch matchId (Matches (st_league s)) = Some (i, m) -> Played m = true ->
  (editMatchResultHandler storageService w (mkRequest (Some matchId) (Some (hs, aws))) s).2
  = updateLeagueTable (rescored i m hs aws s).
Proof.
  intros Hf Hp. unfold editMatchResultHandler. simpl. rewrite Hf, Hp. simpl.
  by destruct (match storageService with Some _ => _ | None => _ end).
Qed.

End HandlerFacts.

(** ** The operations preserve the invariant *)

Section Reachability.
Context {F : Type} `{Float64 F}.
Variable rand_Float64 : nat -> F.
Context {DB : Type} `{StorageService DB}.
Variable storageService : option DB.

Local Abbreviation step := (step rand_Float64 storageService).
Local Abbreviation reachable := (reachable rand_Float64 storageService).

Lemma simulateMatch_cases i s :
  simulateMatch rand_Float64 i s = s \/
  exists m hs aws,
    Matches (st_league s) !! i = Some m /\ Played m = false /\
    simulateMatch rand_Float64 i s = recorded i m hs aws s.
Proof.
  unfold simulateMatch.
  destruct (Matches (st_league s) !! i) as [m|] eqn:Hm; [|by left].
  destruct (Played m) eqn:Hp; [by left|].
  destruct (drawScore _ _ _ _) as [hs aws].
  right. by exists m, hs, aws.
Qed.

Lemma Inv_simulateMatch i s : Inv s -> Inv (simulateMatch rand_Float64 i s).
Proof.
  intros HI. destruct (simulateMatch_cases i s) as [->|(m & hs & aws & Hm & Hp & ->)];
    [done|]. by apply Inv_recorded.
Qed.

Lemma frame_simulateMatch i s : same_frame s (simulateMatch rand_Float64 i s).
Proof.
  destruct (simulateMatch_cases i s) as [->|(m & hs & aws & Hm & Hp & ->)];
    [apply same_frame_refl|]. by apply frame_recorded.
Qed.

(** A loop whose every round keeps [P] keeps [P]. *)
Lemma foldl_preserves {A B} (P : A -> Prop) (f : A -> B -> A) (l : list B) a :
  (forall a b, P a -> P (f a b)) -> P a -> P (foldl f a l).
Proof. intros Hf. revert a. induction l; simpl; auto. Qed.

Lemma weeklySimulator_preserves (P : State -> Prop) s :
  (forall i s, P s -> P (simulateMatch rand_Float64 i s)) ->
  (forall s, P s -> P (updateLeagueTable s)) ->
  (forall s w, P s -> P (mkState (st_heap s) (set_CurrentWeek w (st_league s)) (st_rand s))) ->
  P s -> P (weeklySimulator rand_Float64 s).
Proof.
  intros Hsim Htab Hweek Hs. unfold weeklySimulator.
  apply Htab. apply foldl_preserves; [|by apply Hweek].
  intros a i Ha. destruct (Matches (st_league a) !! i); [|done].
  destruct (_ && _); auto.
Qed.

Lemma Inv_weeklySimulator s : Inv s -> Inv (weeklySimulator rand_Float64 s).
Proof.
  apply weeklySimulator_preserves; auto using Inv_simulateMatch.
Qed.

Lemma frame_weeklySimulator s : same_frame s (weeklySimulator rand_Float64 s).
Proof.
  apply (weeklySimulator_preserves (same_frame s)).
  - intros i a Ha. eapply same_frame_trans; [done|apply frame_simulateMatch].
  - intros a Ha. eapply same_frame_trans; [done|apply frame_updateLeagueTable].
  - intros a w Ha. eapply same_frame_trans; [done|]. by repeat split.
  - apply same_frame_refl.
Qed.

Lemma SimulateNextWeek_cases s :
  (SimulateNextWeek rand_Float64 storageService s).2 = s \/
  (SimulateNextWeek rand_Float64 storageService s).2 = weeklySimulator rand_Float64 s.
Proof.
  unfold SimulateNextWeek. destruct (negb _); [by left|right].
  by destruct storageService.
Qed.

Lemma simulateWeeks_preserves (P : State -> Prop) n s :
  (forall s, P s -> P (weeklySimulator rand_Float64 s)) ->
  P s -> P (simulateWeeks rand_Float64 storageService n s).2.
Proof.
  intros Hw. revert s. induction n as [|n IH]; intros s Hs; simpl; [done|].
  destruct storageService as [db|]; [|by apply IH, Hw].
  destruct (saveWeek db _); [by apply Hw|by apply IH, Hw].
Qed.

Lemma ideal_unplayed p ms :
  Forall (fun m => Played m = false) ms -> ideal p ms = ledger0.
Proof.
  induction 1 as [|m ms Hm _ IH]; [done|].
  by rewrite ideal_cons, IH, contrib_unplayed.
Qed.

Lemma Inv_initial s : initial s -> Inv s.
Proof.
  intros [Hz Hu] p t Hp. rewrite ideal_unplayed by done.
  rewrite Forall_lookup in Hz. specialize (Hz p t Hp).
  unfold agrees. destruct Hz as (-> & -> & -> & -> & -> & -> & ->).
  by vm_compute.
Qed.

Lemma Inv_step s s' : step s s' -> Inv s -> Inv s'.
Proof.
  destruct 1; intros HI.
  - by apply Inv_simulateMatch.
  - by apply Inv_weeklySimulator.
  - by destruct (SimulateNextWeek_cases s) as [-> | ->];
      [|apply Inv_weeklySimulator].
  - unfold SimulateAllMatches.
    apply simulateWeeks_preserves; auto using Inv_weeklySimulator.
  - by apply Inv_editMatchResultHandler.
Qed.

Lemma frame_step s s' : step s s' -> same_frame s s'.
Proof.
  destruct 1.
  - apply frame_simulateMatch.
  - apply frame_weeklySimulator.
  - destruct (SimulateNextWeek_cases s) as [-> | ->];
      [apply same_frame_refl|apply frame_weeklySimulator].
  - unfold SimulateAllMatches.
    apply (simulateWeeks_preserves (same_frame s)); [|apply same_frame_refl].
    intros a Ha. eapply same_frame_trans; [done|apply frame_weeklySimulator].
  - apply frame_editMatchResultHandler.
Qed.

Lemma Inv_reachable s : reachable s -> Inv s.
Proof.
  intros (s0 & Hinit & Hsteps). apply Inv_initial in Hinit.
  induction Hsteps; eauto using Inv_step.
Qed.

End Reachability.

(** ** Properties of the recomputed ledger *)

Lemma delta_pts home away hs aws p :
  l_pts (delta home away hs aws p)
  = 3 * l_w (delta home away hs aws p) + l_d (delta home away hs aws p).
Proof.
  unfold delta, homeDelta, awayDelta.
  repeat case_decide; destruct (hs >? aws), (hs <? aws); simpl; lia.
Qed.

Lemma delta_nonneg home away hs aws p :
  0 <= l_w (delta home away hs aws p) /\ 0 <= l_d (delta home away hs aws p) /\
  0 <= l_l (delta home away hs aws p).
Proof.
  unfold delta, homeDelta, awayDelta.
  repeat case_decide; destruct (hs >? aws), (hs <? aws); simpl; lia.
Qed.

Lemma delta_results home away hs aws p :
  home <> away ->
  l_w (delta home away hs aws p) + l_d (delta home away hs aws p)
  + l_l (delta home away hs aws p)
  = if decide (home = p \/ away = p) then 1 else 0.
Proof.
  intros Hne. unfold delta, homeDelta, awayDelta.
  destruct (decide (home = p)), (decide (away = p)); subst;
    try contradiction; case_decide; try tauto;
    destruct (hs >? aws), (hs <? aws); simpl; lia.
Qed.

Ltac ledger_simpl :=
  cbn [ledger_add ledger_opp ledger0 l_gf l_ga l_w l_d l_l l_pts] in *.

Lemma ideal_pts p ms :
  l_pts (ideal p ms) = 3 * l_w (ideal p ms) + l_d (ideal p ms).
Proof.
  induction ms as [|m ms IH]; [done|]. rewrite ideal_cons.
  unfold contrib. destruct (Played m); ledger_simpl; [|lia].
  rewrite delta_pts. lia.
Qed.

Lemma ideal_nonneg p ms :
  0 <= l_w (ideal p ms) /\ 0 <= l_d (ideal p ms) /\ 0 <= l_l (ideal p ms).
Proof.
  induction ms as [|m ms IH]; [simpl; lia|]. rewrite ideal_cons.
  unfold contrib. destruct (Played m); ledger_simpl; [|lia].
  pose proof (delta_nonneg (HomeTeam m) (AwayTeam m) (HomeTeamScore m)
                (AwayTeamScore m) p). lia.
Qed.

Lemma ideal_results p ms :
  Forall (fun m => HomeTeam m <> AwayTeam m) ms ->
  l_w (ideal p ms) + l_d (ideal p ms) + l_l (ideal p ms)
  = Z.of_nat (length (played_matches_of p ms)).
Proof.
  unfold played_matches_of.
  induction 1 as [|m ms Hm _ IH]; [done|]. rewrite ideal_cons, filter_cons.
  unfold contrib. destruct (Played m) eqn:Hp; ledger_simpl.
  - pose proof (delta_results (HomeTeam m) (AwayTeam m) (HomeTeamScore m)
                  (AwayTeamScore m) p Hm) as Hd.
    repeat case_decide; cbn [length]; try tauto; lia.
  - case_decide as Hc; [by destruct Hc|]. lia.
Qed.

Lemma length_played_matches_of p ms :
  (length (played_matches_of p ms) <= length ms)%nat.
Proof. apply length_filter. Qed.

(** *** Sums over the teams *)

Lemma sum_over_ext g1 g2 ps :
  (forall p, p ∈ ps -> g1 p = g2 p) -> sum_over g1 ps = sum_over g2 ps.
Proof.
  induction ps as [|q ps IH]; intros Hg; [done|]. simpl.
  rewrite Hg by set_solver. rewrite IH; [done|]. intros; apply Hg; set_solver.
Qed.

Lemma sum_over_add g1 g2 ps :
  sum_over (fun p => g1 p + g2 p) ps = sum_over g1 ps + sum_over g2 ps.
Proof. induction ps as [|q ps IH]; simpl; lia. Qed.

Lemma sum_over_zero ps : sum_over (fun _ => 0) ps = 0.
Proof. induction ps; simpl; lia. Qed.

Lemma sum_over_absent (q : ptr) c ps :
  q ∉ ps -> sum_over (fun p => if decide (q = p) then c else 0) ps = 0.
Proof.
  induction ps as [|r ps IH]; intros Hq; [done|]. simpl.
  rewrite IH by set_solver. case_decide; [set_solver|lia].
Qed.

Lemma sum_over_indicator (q : ptr) c ps :
  NoDup ps -> q ∈ ps ->
  sum_over (fun p => if decide (q = p) then c else 0) ps = c.
Proof.
  induction 1 as [|r ps Hr Hnd IH]; intros Hq; [set_solver|]. simpl.
  case_decide as Hqr.
  - subst. rewrite sum_over_absent by done. lia.
  - apply elem_of_cons in Hq as [Hq|Hq]; [congruence|].
    rewrite (IH Hq). lia.
Qed.

Lemma sum_over_two (home away : ptr) c1 c2 g ps :
  NoDup ps -> home ∈ ps -> away ∈ ps ->
  (forall p, g p = (if decide (home = p) then c1 else 0)
                   + (if decide (away = p) then c2 else 0)) ->
  sum_over g ps = c1 + c2.
Proof.
  intros Hnd Hh Ha Hg.
  rewrite (sum_over_ext g _ ps (fun p _ => Hg p)), sum_over_add.
  by rewrite !sum_over_indicator.
Qed.

(** Summed over a duplicate-free list holding both sides, a scoreline
    gives as many goals as it takes, and as many wins as losses. *)
Lemma sum_over_delta home away hs aws ps :
  NoDup ps -> home ∈ ps -> away ∈ ps ->
  sum_over (fun p => l_gf (delta home away hs aws p)) ps
  = sum_over (fun p => l_ga (delta home away hs aws p)) ps /\
  sum_over (fun p => l_w (delta home away hs aws p)) ps
  = sum_over (fun p => l_l (delta home away hs aws p)) ps.
Proof.
  intros Hnd Hh Ha.
  rewrite (sum_over_two home away (l_gf (homeDelta hs aws)) (l_gf (awayDelta hs aws)))
    by (try done; intros p; unfold delta; repeat case_decide; reflexivity).
  rewrite (sum_over_two home away (l_ga (homeDelta hs aws)) (l_ga (awayDelta hs aws)))
    by (try done; intros p; unfold delta; repeat case_decide; reflexivity).
  rewrite (sum_over_two home away (l_w (homeDelta hs aws)) (l_w (awayDelta hs aws)))
    by (try done; intros p; unfold delta; repeat case_decide; reflexivity).
  rewrite (sum_over_two home away (l_l (homeDelta hs aws)) (l_l (awayDelta hs aws)))
    by (try done; intros p; unfold delta; repeat case_decide; reflexivity).
  unfold homeDelta, awayDelta.
  destruct (hs >? aws), (hs <? aws); simpl; lia.
Qed.

Lemma sum_over_ideal ms ps :
  NoDup ps ->
  Forall (fun m => HomeTeam m ∈ ps /\ AwayTeam m ∈ ps) ms ->
  sum_over (fun p => l_gf (ideal p ms)) ps = sum_over (fun p => l_ga (ideal p ms)) ps /\
  sum_over (fun p => l_w (ideal p ms)) ps = sum_over (fun p => l_l (ideal p ms)) ps.
Proof.
  intros Hnd. induction 1 as [|m ms [Hh Ha] _ [IH1 IH2]].
  - simpl. by rewrite !sum_over_zero.
  - assert (Hc : forall (proj : Ledger -> Z),
              (forall a b, proj (ledger_add a b) = proj a + proj b) ->
              sum_over (fun p => proj (ideal p (m :: ms))) ps
              = sum_over (fun p => proj (contrib p m)) ps
                + sum_over (fun p => proj (ideal p ms)) ps).
    { intros proj Hadd. rewrite <- sum_over_add. apply sum_over_ext.
      intros p _. by rewrite ideal_cons, Hadd. }
    rewrite !Hc by done. rewrite IH1, IH2.
    unfold contrib. destruct (Played m).
    + destruct (sum_over_delta (HomeTeam m) (AwayTeam m) (HomeTeamScore m)
                  (AwayTeamScore m) ps Hnd Hh Ha) as [-> ->]. done.
    + done.
Qed.

Lemma wrap_sum_over g ps :
  wrap (sum_over (fun p => wrap (g p)) ps) = wrap (sum_over g ps).
Proof.
  induction ps as [|q ps IH]; [done|]. simpl.
  rewrite wrap_add_l. rewrite <- wrap_add_r, IH, wrap_add_r. done.
Qed.

Lemma goSum_acc f (h : heap) ps acc :
  foldl (fun total team => wrap (total + f (h !!! team))) acc ps
  = wrap (acc + sum_over (fun p => f (h !!! p)) ps) \/ ps = [].
Proof.
  revert acc. induction ps as [|q ps IH]; intros acc; [by right|left]. simpl.
  destruct (IH (wrap (acc + f (h !!! q)))) as [-> | ->].
  - rewrite wrap_add_l. f_equal. lia.
  - simpl. f_equal. lia.
Qed.

Lemma goSum_sum_over f (h : heap) ps :
  goSum f h ps = wrap (sum_over (fun p => f (h !!! p)) ps).
Proof.
  unfold goSum. destruct (goSum_acc f h ps 0) as [-> | ->]; [done|].
  by vm_compute.
Qed.

(** ** Replaying the results *)

Lemma length_replay ms h : length (replay ms h) = length h.
Proof.
  revert h. induction ms as [|m ms IH]; intros h; [done|]. simpl.
  rewrite IH. destruct (Played m); [apply length_updateTeamStats|done].
Qed.

Lemma statics_replay ms h : fmap statics (replay ms h) = fmap statics h.
Proof.
  revert h. induction ms as [|m ms IH]; intros h; [done|]. simpl.
  rewrite IH. destruct (Played m); [apply statics_updateTeamStats|done].
Qed.

Lemma replay_agrees ms : forall (h : heap) (d : ptr -> Ledger),
  (forall p t, h !! p = Some t -> agrees t (d p)) ->
  forall p t, replay ms h !! p = Some t ->
              agrees t (ledger_add (d p) (ideal p ms)).
Proof.
  induction ms as [|m ms IH]; intros h d Hd p t Hp.
  - simpl in *. rewrite ledger_add_0_r. by apply Hd.
  - simpl in Hp. rewrite ideal_cons, ledger_add_assoc.
    refine (IH _ (fun q => ledger_add (d q) (contrib q m)) _ p t Hp).
    clear p t Hp. intros p t' Hp. unfold contrib.
    destruct (Played m).
    + destruct (lookup_same_length h _ p t' (length_updateTeamStats _ _ _ _ _) Hp)
        as [t Ht].
      rewrite (lookup_updateTeamStats _ _ _ _ _ _ t Ht) in Hp
        by eauto using agrees_int_team.
      injection Hp as <-. by apply agrees_settle, Hd.
    + rewrite ledger_add_0_r. by apply Hd.
Qed.

Lemma agrees_zeroed t : agrees (zeroed t) ledger0.
Proof. by vm_compute. Qed.

(** Two stores of the same teams that both agree with the same
    results are the same store. *)
Lemma agreeing_heaps_equal (h h' : heap) (d : ptr -> Ledger) :
  fmap statics h = fmap statics h' ->
  (forall p t, h !! p = Some t -> agrees t (d p)) ->
  (forall p t, h' !! p = Some t -> agrees t (d p)) ->
  h = h'.
Proof.
  intros Hst Hh Hh'. apply list_eq. intros p.
  pose proof (f_equal (fun l => l !! p) Hst) as Hp. simpl in Hp.
  rewrite !list_lookup_fmap in Hp.
  destruct (h !! p) as [t|] eqn:E, (h' !! p) as [t'|] eqn:E'; simplify_eq/=; [|done].
  f_equal. unfold statics in *. simplify_eq.
  eapply agrees_unique; eauto.
Qed.

(** The store of a League that satisfies the invariant is the replay of
    its results on cleared ledgers. *)
Lemma heap_is_replay s :
  Inv s -> st_heap s = replay (Matches (st_league s)) (zeroed <$> st_heap s).
Proof.
  intros HI.
  apply (agreeing_heaps_equal _ _ (fun p => ideal p (Matches (st_league s)))).
  - rewrite statics_replay. rewrite <- list_fmap_compose.
    by apply list_fmap_ext.
  - exact HI.
  - intros p t Hp.
    rewrite <- (ledger_add_0_l (ideal p (Matches (st_league s)))).
    apply (replay_agrees _ (zeroed <$> st_heap s) (fun _ => ledger0)); [|done].
    intros q t0 Hq. rewrite list_lookup_fmap in Hq.
    destruct (st_heap s !! q); simplify_eq/=. apply agrees_zeroed.
Qed.

(** ** The sample run *)

Lemma initial_main_state : initial main_state.
Proof. split; vm_compute; repeat constructor. Qed.

Lemma reachable_week1 : reachable sample_rand no_store week1.
Proof.
  exists main_state. split; [apply initial_main_state|].
  apply rtc_once. apply step_weeklySimulator.
Qed.

(** ** Invariants of the ledgers *)

Section LedgerTheorems.
Context {F : Type} `{Float64 F}.
Variable rand_Float64 : nat -> F.
Context {DB : Type} `{StorageService DB}.
Variable storageService : option DB.

Local Abbreviation step := (step rand_Float64 storageService).
Local Abbreviation reachable := (reachable rand_Float64 storageService).

(** X27: in every state reached by simulations and corrections from a
    League in which every ledger is zero and no match is played, every
    [Team] object satisfies [Points == 3*Wins + Draws] and
    [GoalsDifference == GoalsFor - GoalsAgainst] (the right-hand sides
    evaluated in [int]), and [Wins + Draws + Losses] is the number of
    played matches that point to the object as one of their two
    distinct sides. *)
Theorem ledger_invariants s p t :
  reachable s ->
  Forall (fun m => HomeTeam m <> AwayTeam m) (Matches (st_league s)) ->
  Z.of_nat (length (Matches (st_league s))) < half ->
  st_heap s !! p = Some t ->
  Points t = wrap (3 * Wins t + Draws t) /\
  GoalsDifference t = wrap (GoalsFor t - GoalsAgainst t) /\
  Wins t + Draws t + Losses t
  = Z.of_nat (length (played_matches_of p (Matches (st_league s)))).
Proof.
  intros Hr Hd Hlen Hp.
  destruct (Inv_reachable _ _ s Hr p t Hp) as (Hgf & Hga & Hw & Hdr & Hl & Hpts & Hgd).
  pose proof (ideal_pts p (Matches (st_league s))) as Ep.
  pose proof (ideal_nonneg p (Matches (st_league s))) as (Nw & Nd & Nl).
  pose proof (ideal_results p _ Hd) as Er.
  pose proof (length_played_matches_of p (Matches (st_league s))) as Hle.
  rewrite wrap_small in Hw, Hdr, Hl by (unfold in_range, half in *; lia).
  rewrite Hpts, Hgd, Hgf, Hga, Hw, Hdr, Hl, Ep.
  split; [done|split; [|done]].
  by rewrite wrap_sub_l, wrap_sub_r.
Qed.

Lemma roster_ok_frame s s' : same_frame s s' -> roster_ok s -> roster_ok s'.
Proof.
  intros (Hst & Ht & Hsk) (Hnd & Hv & Hm). unfold roster_ok. rewrite <- Ht.
  split; [done|split].
  - replace (length (st_heap s')) with (length (st_heap s)); [done|].
    by rewrite <- (length_fmap statics (st_heap s)), Hst, length_fmap.
  - assert (Hsk' : Forall (fun k : Z * Z * ptr * ptr =>
                             k.1.2 ∈ Teams (st_league s) /\ k.2 ∈ Teams (st_league s))
                          (fmap skeleton (Matches (st_league s')))).
    { rewrite <- Hsk. apply Forall_fmap. eapply Forall_impl; [exact Hm|].
      by intros m [? ?]. }
    apply Forall_fmap in Hsk'. eapply Forall_impl; [exact Hsk'|]. by intros m [? ?].
Qed.

Lemma Inv_conserved s : Inv s -> roster_ok s -> conserved s.
Proof.
  intros HI (Hnd & Hv & Hm). unfold conserved. rewrite !goSum_sum_over.
  assert (Hread : forall (f : Team -> Z) (proj : Ledger -> Z),
            (forall t d, agrees t d -> f t = wrap (proj d)) ->
            wrap (sum_over (fun p => f (st_heap s !!! p)) (Teams (st_league s)))
            = wrap (sum_over (fun p => proj (ideal p (Matches (st_league s))))
                             (Teams (st_league s)))).
  { intros f proj Hf.
    rewrite <- (wrap_sum_over (fun p => proj (ideal p (Matches (st_league s))))).
    f_equal. apply sum_over_ext.
    intros p Hp. rewrite Forall_forall in Hv. specialize (Hv p Hp).
    apply lookup_lt_is_Some_2 in Hv as [t Ht].
    rewrite (list_lookup_total_correct _ _ _ Ht). apply Hf. by apply HI. }
  rewrite (Hread GoalsFor l_gf) by (by intros t d (? & ? & ? & ? & ? & ? & ?)).
  rewrite (Hread GoalsAgainst l_ga) by (by intros t d (? & ? & ? & ? & ? & ? & ?)).
  rewrite (Hread Wins l_w) by (by intros t d (? & ? & ? & ? & ? & ? & ?)).
  rewrite (Hread Losses l_l) by (by intros t d (? & ? & ? & ? & ? & ? & ?)).
  destruct (sum_over_ideal (Matches (st_league s)) (Teams (st_league s)) Hnd Hm)
    as [-> ->]. done.
Qed.

(** X28: in every state reached from a League of zero ledgers and
    unplayed matches, when [league.Teams] lists each team object once
    and the sides of the matches are among them, the goals scored of
    the listed teams total their goals conceded and their wins total
    their losses (totals in [int] arithmetic); the state a match
    simulation or a result correction leaves has the property again. *)
Theorem conservation s :
  reachable s -> roster_ok s ->
  conserved s /\
  (forall i, conserved (simulateMatch rand_Float64 i s)) /\
  (forall w r, conserved (editMatchResultHandler storageService w r s).2).
Proof.
  intros Hr Hok. split; [|split].
  - apply Inv_conserved; [by eapply Inv_reachable|done].
  - intros i. apply Inv_conserved.
    + apply Inv_simulateMatch. by eapply Inv_reachable.
    + eapply roster_ok_frame; [apply frame_simulateMatch|done].
  - intros w r. apply Inv_conserved.
    + apply Inv_editMatchResultHandler. by eapply Inv_reachable.
    + eapply roster_ok_frame; [apply frame_editMatchResultHandler|done].
Qed.

(** X29: in a state reached from a League of zero ledgers and unplayed
    matches, after the correction of a played match the store of teams,
    and with it the two ledgers the match points to, is the one the
    engine's ledger update produces from cleared ledgers when the
    replacement scoreline stands in the fixture list in place of the
    original one. *)
Theorem correction_as_if_recorded w s matchId i m hs aws :
  reachable s ->
  findMatch matchId (Matches (st_league s)) = Some (i, m) ->
  Played m = true ->
  let s' := (editMatchResultHandler storageService w
               (mkRequest (Some matchId) (Some (hs, aws))) s).2 in
  Matches (st_league s') = <[i := set_Score hs aws m]> (Matches (st_league s)) /\
  st_heap s' = replay (<[i := set_Score hs aws m]> (Matches (st_league s)))
                      (zeroed <$> st_heap s).
Proof.
  intros Hr Hf Hp s'.
  assert (Es : s' = updateLeagueTable (rescored i m hs aws s))
    by (by apply editMatchResultHandler_played).
  assert (HI : Inv s').
  { rewrite Es. apply Inv_updateLeagueTable, Inv_rescored; [|by apply findMatch_lookup in Hf as [? _]|done].
    by eapply Inv_reachable. }
  split; [by rewrite Es|].
  rewrite (heap_is_replay s' HI). rewrite Es at 1 2. simpl. f_equal.
  apply list_eq. intros p. rewrite !list_lookup_fmap.
  pose proof (frame_rescored i m hs aws s) as (Hst & _ & _);
    [by apply findMatch_lookup in Hf as [? _]|].
  pose proof (f_equal (fun l => l !! p) Hst) as Hq. simpl in Hq.
  rewrite !list_lookup_fmap in Hq.
  destruct (st_heap s !! p) as [t|], (_ !! p) as [t'|]; simplify_eq/=; [|done].
  unfold statics in Hq. simplify_eq. unfold zeroed. congruence.
Qed.

(** The side conditions of the theorems above hold in every state the
    program of [main] reaches. *)
Lemma frame_rtc s0 s : rtc step s0 s -> same_frame s0 s.
Proof.
  induction 1 as [|s1 s2 s3 H12 _ IH]; [apply same_frame_refl|].
  eapply same_frame_trans; [|exact IH]. by eapply frame_step.
Qed.

Lemma main_league_well_formed s :
  rtc step main_state s ->
  Forall (fun m => HomeTeam m <> AwayTeam m) (Matches (st_league s)) /\
  Z.of_nat (length (Matches (st_league s))) < half /\
  roster_ok s.
Proof.
  intros Hs. pose proof (frame_rtc _ _ Hs) as Hf.
  split; [|split].
  - destruct Hf as (_ & _ & Hsk).
    assert (Hk : Forall (fun k : Z * Z * ptr * ptr => Nat.eqb k.1.2 k.2 = false)
                        (skeleton <$> Matches (st_league s))).
    { rewrite <- Hsk. vm_compute. repeat constructor. }
    apply Forall_fmap in Hk. eapply Forall_impl; [exact Hk|].
    intros m Hm. by apply Nat.eqb_neq in Hm.
  - destruct Hf as (_ & _ & Hsk).
    rewrite <- (length_fmap skeleton), <- Hsk. by vm_compute.
  - apply (roster_ok_frame main_state s Hf).
    split; [|split].
    + apply (bool_decide_unpack _). by vm_compute.
    + vm_compute. repeat constructor.
    + vm_compute. repeat constructor; rewrite ?elem_of_cons; auto 10.
Qed.

End LedgerTheorems.

Lemma ledger_invariants_witness :
  let t := mkTeam "Manchester United" 1 80 5 3 1 0 0 3 2 in
  reachable sample_rand no_store week1 /\
  Forall (fun m => HomeTeam m <> AwayTeam m) (Matches (st_league week1)) /\
  Z.of_nat (length (Matches (st_league week1))) < half /\
  st_heap week1 !! 0%nat = Some t /\
  Points t = wrap (3 * Wins t + Draws t) /\
  GoalsDifference t = wrap (GoalsFor t - GoalsAgainst t) /\
  Wins t + Draws t + Losses t
  = Z.of_nat (length (played_matches_of 0%nat (Matches (st_league week1)))).
Proof.
  intros t.
  assert (Hd : Forall (fun m => HomeTeam m <> AwayTeam m) (Matches (st_league week1)))
    by (vm_compute; repeat constructor; discriminate).
  assert (Hlen : Z.of_nat (length (Matches (st_league week1))) < half)
    by (vm_compute; reflexivity).
  assert (Hp : st_heap week1 !! 0%nat = Some t) by (vm_compute; reflexivity).
  split; [apply reachable_week1|]. split; [exact Hd|].
  split; [exact Hlen|]. split; [exact Hp|].
  exact (ledger_invariants sample_rand no_store week1 0%nat t
           reachable_week1 Hd Hlen Hp).
Defined.

Lemma roster_ok_week1 : roster_ok week1.
Proof.
  split; [|split].
  - vm_compute. repeat constructor; rewrite ?elem_of_cons, elem_of_nil;
      intros Hin; repeat destruct Hin as [Hin|Hin]; done.
  - vm_compute. repeat constructor.
  - vm_compute. repeat constructor; rewrite ?elem_of_cons; auto 10.
Qed.

Lemma conservation_witness :
  reachable sample_rand no_store week1 /\ roster_ok week1 /\
  conserved week1 /\
  (forall i, conserved (simulateMatch sample_rand i week1)) /\
  (forall w r, conserved (editMatchResultHandler no_store w r week1).2).
Proof.
  split; [apply reachable_week1|]. split; [apply roster_ok_week1|].
  apply (conservation sample_rand no_store week1 reachable_week1 roster_ok_week1).
Defined.

Lemma correction_as_if_recorded_witness :
  let m := mkMatch 1 1 0%nat 1%nat 5 3 true in
  reachable sample_rand no_store week1 /\
  findMatch 1 (Matches (st_league week1)) = Some (0%nat, m) /\
  Played m = true /\
  let s' := (editMatchResultHandler no_store client
               (mkRequest (Some 1) (Some (0, 2))) week1).2 in
  Matches (st_league s') = <[0%nat := set_Score 0 2 m]> (Matches (st_league week1)) /\
  st_heap s' = replay (<[0%nat := set_Score 0 2 m]> (Matches (st_league week1)))
                      (zeroed <$> st_heap week1).
Proof.
  intros m.
  assert (Hf : findMatch 1 (Matches (st_league week1)) = Some (0%nat, m))
    by (vm_compute; reflexivity).
  split; [apply reachable_week1|]. split; [exact Hf|]. split; [reflexivity|].
  apply (correction_as_if_recorded sample_rand no_store client week1 1 0%nat m 0 2
           reachable_week1 Hf eq_refl).
Defined.


(** ** Error handling *)

Section ErrorHandling.
Context {F : Type} `{Float64 F}.
Variable rand_Float64 : nat -> F.
Context {DB : Type} `{StorageService DB}.
Variable storageService : option DB.

Lemma no_match_due_existsb s :
  no_match_due s ->
  existsb (fun m => (Week m =? wrap (CurrentWeek (st_league s) + 1)) && negb (Played m))
          (Matches (st_league s)) = false.
Proof.
  unfold no_match_due. induction 1 as [|m ms Hm _ IH]; [done|]. simpl.
  rewrite IH, orb_false_r. apply andb_false_iff.
  destruct (Z.eqb_spec (Week m) (wrap (CurrentWeek (st_league s) + 1))) as [Hw|Hw];
    [|by left]. right. destruct (Played m); [done|]. by destruct Hm.
Qed.

(** C6, as the code has it.  When no unplayed match is scheduled for
    week [CurrentWeek + 1], [SimulateNextWeek] fails with "no more
    matches to simulate" and leaves the whole memory, [CurrentWeek]
    included, as it was. *)
Theorem SimulateNextWeek_no_match_due s :
  no_match_due s ->
  SimulateNextWeek rand_Float64 storageService s
  = (Some "no more matches to simulate", s).
Proof.
  intros Hn. unfold SimulateNextWeek.
  by rewrite (no_match_due_existsb s Hn).
Qed.

(** C7.  A correction addressed to a match that is not played fails
    with "Cannot edit unplayed match" (status 400) and leaves the whole
    memory as it was: the teams' counters, the match, the standings. *)
Theorem correction_of_unplayed_match w s matchId hs aws i m :
  findMatch matchId (Matches (st_league s)) = Some (i, m) ->
  Played m = false ->
  editMatchResultHandler storageService w
    (mkRequest (Some matchId) (Some (hs, aws))) s
  = (HttpError "Cannot edit unplayed match" 400, s).
Proof.
  intros Hf Hp. unfold editMatchResultHandler. simpl. by rewrite Hf, Hp.
Qed.

(** C8, as the code has it.  A correction whose body does not decode
    is answered with status 400 at once and leaves the whole memory as
    it was. *)
Theorem correction_with_undecodable_body w s r :
  req_body r = None ->
  (exists msg, (editMatchResultHandler storageService w r s).1 = HttpError msg 400) /\
  (editMatchResultHandler storageService w r s).2 = s.
Proof.
  intros Hb. unfold editMatchResultHandler. rewrite Hb.
  destruct (req_id r); simpl; eauto.
Qed.

End ErrorHandling.

Lemma no_match_due_season_end : no_match_due season_end.
Proof.
  unfold no_match_due. vm_compute.
  repeat constructor; intros [Hw Hp]; discriminate.
Qed.

Lemma SimulateNextWeek_no_match_due_witness :
  no_match_due season_end /\
  SimulateNextWeek sample_rand no_store season_end
  = (Some "no more matches to simulate", season_end).
Proof.
  split; [apply no_match_due_season_end|].
  exact (SimulateNextWeek_no_match_due sample_rand no_store season_end
           no_match_due_season_end).
Defined.

(** C6 as stated fails: at the end of the season the call fails and
    the week counter stays at 6. *)
Lemma SimulateNextWeek_keeps_counter :
  ~ (forall s : State,
       no_match_due s ->
       (SimulateNextWeek sample_rand no_store s).1 = Some "no more matches to simulate" /\
       CurrentWeek (st_league (SimulateNextWeek sample_rand no_store s).2)
       = wrap (CurrentWeek (st_league s) + 1)).
Proof.
  intros Hc. destruct (Hc season_end no_match_due_season_end) as [_ Hw].
  vm_compute in Hw. discriminate.
Qed.

Lemma correction_of_unplayed_match_witness :
  let m := mkMatch 3 2 0%nat 2%nat 0 0 false in
  findMatch 3 (Matches (st_league week1)) = Some (2%nat, m) /\
  Played m = false /\
  editMatchResultHandler no_store client (mkRequest (Some 3) (Some (4, 4))) week1
  = (HttpError "Cannot edit unplayed match" 400, week1).
Proof.
  intros m.
  assert (Hf : findMatch 3 (Matches (st_league week1)) = Some (2%nat, m))
    by (vm_compute; reflexivity).
  split; [exact Hf|]. split; [reflexivity|].
  exact (correction_of_unplayed_match no_store client week1 3 4 4 2%nat m Hf eq_refl).
Defined.

Lemma correction_with_undecodable_body_witness :
  let r := mkRequest (Some 1) None in
  req_body r = None /\
  (exists msg, (editMatchResultHandler no_store client r week1).1 = HttpError msg 400) /\
  (editMatchResultHandler no_store client r week1).2 = week1.
Proof.
  intros r. split; [reflexivity|].
  exact (correction_with_undecodable_body no_store client week1 r eq_refl).
Defined.

(** C8 as stated fails: a negative goal count decodes, is accepted and
    changes the ledgers. *)
Lemma negative_score_is_applied :
  ~ (forall (w : ResponseWriter) (r : Request) (s : State),
       malformed_scoreline (req_body r) ->
       is_error (editMatchResultHandler no_store w r s).1 /\
       (editMatchResultHandler no_store w r s).2 = s).
Proof.
  intros Hc.
  destruct (Hc client (mkRequest (Some 1) (Some (-1, 0))) week1) as [(msg & code & He) _].
  - right. exists (-1), 0. split; [done|lia].
  - vm_compute in He. discriminate.
Qed.

(** ** Fixture generator *)

Lemma createPremierLeagueMatches_rename a b c d :
  createPremierLeagueMatches [a; b; c; d]
  = Some (rename (fun k => [a; b; c; d] !!! k) <$> index_fixtures).
Proof. vm_compute. reflexivity. Qed.

Lemma length_filter_fmap {A B} (g : A -> B) (P : B -> Prop) (Q : A -> Prop)
    `{!forall y, Decision (P y)} `{!forall x, Decision (Q x)} (l : list A) :
  Forall (fun x => P (g x) <-> Q x) l ->
  length (filter P (g <$> l)) = length (filter Q l).
Proof.
  induction 1 as [|x l Hx _ IH]; [done|].
  rewrite fmap_cons, !filter_cons.
  destruct (decide (P (g x))), (decide (Q x)); simpl; try tauto; by rewrite IH.
Qed.

Lemma sides_index_fixtures :
  Forall (fun m => (HomeTeam m < 4)%nat /\ (AwayTeam m < 4)%nat) index_fixtures.
Proof. vm_compute. repeat constructor. Qed.

Section FourTeams.
Variables a b c d : ptr.
Hypothesis distinct : NoDup [a; b; c; d].

Let f : nat -> ptr := fun k => [a; b; c; d] !!! k.

Lemma team_of_index_inj h k :
  (h < 4)%nat -> (k < 4)%nat -> f h = f k <-> h = k.
Proof.
  assert (a <> b /\ a <> c /\ a <> d /\ b <> c /\ b <> d /\ c <> d) as
    (Hab & Hac & Had & Hbc & Hbd & Hcd).
  { pose proof distinct as Hnd. rewrite !NoDup_cons in Hnd.
    rewrite ?elem_of_cons in Hnd. intuition. }
  intros Hh Hk.
  destruct h as [|[|[|[|h]]]]; [| | | |lia];
    destruct k as [|[|[|[|k]]]]; try lia; vm_compute; split; congruence.
Qed.

Lemma count_renamed (P Q : Match -> Prop)
    `{!forall m, Decision (P m)} `{!forall m, Decision (Q m)} :
  (forall m, (HomeTeam m < 4)%nat -> (AwayTeam m < 4)%nat ->
             P (rename f m) <-> Q m) ->
  length (filter P (rename f <$> index_fixtures))
  = length (filter Q index_fixtures).
Proof.
  intros HPQ. apply length_filter_fmap.
  eapply Forall_impl; [apply sides_index_fixtures|].
  intros m [Hh Ha]. by apply HPQ.
Qed.

End FourTeams.

Lemma index_fixtures_weeks_disjoint i j m1 m2 :
  i <> j -> index_fixtures !! i = Some m1 -> index_fixtures !! j = Some m2 ->
  Week m1 = Week m2 -> ~ share_competitor m1 m2.
Proof.
  intros Hij H1 H2 Hw Hs.
  do 12 (destruct i as [|i]; [do 12 (destruct j as [|j];
           [vm_compute in H1, H2; simplify_eq; try done;
            vm_compute in Hw, Hs; try discriminate; intuition discriminate|]);
           vm_compute in H2; discriminate|]).
  vm_compute in H1. discriminate.
Qed.

(** C4.  Given four distinct competitors the generator returns twelve
    matches, two in each of the weeks 1 to 6; every competitor is the
    home side of three and the away side of three, six in all, plays
    exactly once in each week, and no two matches of a week share a
    competitor. *)
Theorem fixtures_double_round_robin teams :
  length teams = 4%nat -> NoDup teams ->
  exists ms,
    createPremierLeagueMatches teams = Some ms /\
    length ms = 12%nat /\
    Week <$> ms = [1; 1; 2; 2; 3; 3; 4; 4; 5; 5; 6; 6] /\
    (forall t, t ∈ teams ->
       home_games t ms = 3%nat /\ away_games t ms = 3%nat /\ games t ms = 6%nat) /\
    (forall t w, t ∈ teams -> 1 <= w <= 6 -> games_in_week t w ms = 1%nat) /\
    (forall i j m1 m2, i <> j -> ms !! i = Some m1 -> ms !! j = Some m2 ->
       Week m1 = Week m2 -> ~ share_competitor m1 m2).
Proof.
  intros Hlen Hnd.
  destruct teams as [|a [|b [|c [|d [|? ?]]]]]; try discriminate. clear Hlen.
  pose (f := fun k : nat => [a; b; c; d] !!! k).
  assert (Hidx : forall t, t ∈ [a; b; c; d] -> exists k, (k < 4)%nat /\ t = f k).
  { intros t Ht. rewrite !elem_of_cons, elem_of_nil in Ht.
    destruct Ht as [->|[->|[->|[->|[]]]]];
      [exists 0%nat|exists 1%nat|exists 2%nat|exists 3%nat]; split; (lia || done). }
  pose proof (team_of_index_inj a b c d Hnd) as Hinj. fold f in Hinj.
  exists (rename f <$> index_fixtures).
  split; [apply createPremierLeagueMatches_rename|].
  split; [done|]. split; [done|]. split; [|split].
  - intros t Ht. destruct (Hidx t Ht) as (k & Hk & ->).
    split; [|split].
    + etrans.
      { apply (count_renamed a b c d _ (fun m => HomeTeam m = k)).
        intros m Hh Ha; simpl; by apply Hinj. }
      destruct k as [|[|[|[|k]]]]; [| | | |lia]; by vm_compute.
    + etrans.
      { apply (count_renamed a b c d _ (fun m => AwayTeam m = k)).
        intros m Hh Ha; simpl; by apply Hinj. }
      destruct k as [|[|[|[|k]]]]; [| | | |lia]; by vm_compute.
    + etrans.
      { apply (count_renamed a b c d _ (fun m => HomeTeam m = k \/ AwayTeam m = k)).
        intros m Hh Ha.
        change (f (HomeTeam m) = f k \/ f (AwayTeam m) = f k
                <-> HomeTeam m = k \/ AwayTeam m = k).
        by rewrite !Hinj. }
      destruct k as [|[|[|[|k]]]]; [| | | |lia]; by vm_compute.
  - intros t w Ht Hw. destruct (Hidx t Ht) as (k & Hk & ->).
    etrans.
    { apply (count_renamed a b c d _
               (fun m => Week m = w /\ (HomeTeam m = k \/ AwayTeam m = k))).
      intros m Hh Ha.
      change (Week m = w /\ (f (HomeTeam m) = f k \/ f (AwayTeam m) = f k)
              <-> Week m = w /\ (HomeTeam m = k \/ AwayTeam m = k)).
      by rewrite !Hinj. }
    assert (Hcases : w = 1 \/ w = 2 \/ w = 3 \/ w = 4 \/ w = 5 \/ w = 6) by lia.
    destruct k as [|[|[|[|k]]]]; [| | | |lia];
      destruct Hcases as [->|[->|[->|[->|[->| ->]]]]]; by vm_compute.
  - intros i j m1 m2 Hij H1 H2 Hw Hs.
    rewrite list_lookup_fmap in H1, H2.
    destruct (index_fixtures !! i) as [n1|] eqn:E1; [|done].
    destruct (index_fixtures !! j) as [n2|] eqn:E2; [|done].
    simplify_eq/=.
    apply (index_fixtures_weeks_disjoint i j n1 n2 Hij E1 E2 Hw).
    pose proof sides_index_fixtures as Hsides. rewrite Forall_lookup in Hsides.
    destruct (Hsides i n1 E1) as [? ?], (Hsides j n2 E2) as [? ?].
    unfold share_competitor in *.
    change (f (HomeTeam n1) = f (HomeTeam n2) \/ f (HomeTeam n1) = f (AwayTeam n2) \/
            f (AwayTeam n1) = f (HomeTeam n2) \/ f (AwayTeam n1) = f (AwayTeam n2)) in Hs.
    by rewrite !Hinj in Hs.
Qed.

Lemma fixtures_double_round_robin_witness :
  let teams := [0; 1; 2; 3]%nat in
  length teams = 4%nat /\ NoDup teams /\
  exists ms,
    createPremierLeagueMatches teams = Some ms /\
    length ms = 12%nat /\
    Week <$> ms = [1; 1; 2; 2; 3; 3; 4; 4; 5; 5; 6; 6] /\
    (forall t, t ∈ teams ->
       home_games t ms = 3%nat /\ away_games t ms = 3%nat /\ games t ms = 6%nat) /\
    (forall t w, t ∈ teams -> 1 <= w <= 6 -> games_in_week t w ms = 1%nat) /\
    (forall i j m1 m2, i <> j -> ms !! i = Some m1 -> ms !! j = Some m2 ->
       Week m1 = Week m2 -> ~ share_competitor m1 m2).
Proof.
  intros teams.
  assert (Hnd : NoDup teams) by (apply (bool_decide_unpack _); vm_compute; exact I).
  split; [reflexivity|]. split; [exact Hnd|].
  exact (fixtures_double_round_robin teams eq_refl Hnd).
Defined.

(** ** Standings builder *)

Lemma tableLess_spec a b :
  tableLess a b = true <->
  LTE.Points b < LTE.Points a \/
  (LTE.Points b = LTE.Points a /\ LTE.GoalsDifference b < LTE.GoalsDifference a).
Proof.
  unfold tableLess.
  destruct (Z.eqb_spec (LTE.Points a) (LTE.Points b)) as [E|E].
  - rewrite Z.gtb_ltb, Z.ltb_lt. lia.
  - rewrite Z.gtb_ltb, Z.ltb_lt. lia.
Qed.

Lemma tableLess_false a b : tableLess b a = false <-> ranks_no_lower a b.
Proof.
  unfold ranks_no_lower. rewrite <- not_true_iff_false, tableLess_spec. lia.
Qed.

Section InsertionSort.
Context {A : Type} (less : A -> A -> bool).

(** The inner loop stops at the first element it may not pass. *)
Lemma sift_split x (r : list A) :
  exists r1 r2,
    r = r1 ++ r2 /\ sift less x r = r1 ++ x :: r2 /\
    Forall (fun y => less x y = true) r1 /\
    match r2 with [] => True | y :: _ => less x y = false end.
Proof.
  induction r as [|y r IH]; simpl.
  - by exists [], [].
  - destruct (less x y) eqn:E.
    + destruct IH as (r1 & r2 & -> & -> & H1 & H2).
      exists (y :: r1), r2. repeat split; [by constructor|done].
    + exists [], (y :: r). by repeat split.
Qed.

Lemma sift_perm x (r : list A) : sift less x r ≡ₚ x :: r.
Proof.
  destruct (sift_split x r) as (r1 & r2 & -> & -> & _).
  symmetry. apply Permutation_middle.
Qed.

Lemma insertion_loop_perm (l acc : list A) :
  foldl (fun r x => sift less x r) acc l ≡ₚ acc ++ l.
Proof.
  revert acc. induction l as [|x l IH]; intros acc; simpl.
  - by rewrite app_nil_r.
  - rewrite IH, sift_perm. simpl. apply Permutation_middle.
Qed.

Lemma insertionSort_perm (l : list A) : insertionSort less l ≡ₚ l.
Proof.
  unfold insertionSort. by rewrite reverse_Permutation, insertion_loop_perm.
Qed.

(** *** Order *)

Hypothesis less_asym : forall x y, less x y = true -> less y x = false.
Hypothesis less_negtrans :
  forall x y z, less x y = false -> less y z = false -> less x z = false.

Lemma sift_sorted x (r : list A) :
  StronglySorted (fun u v => less u v = false) r ->
  StronglySorted (fun u v => less u v = false) (sift less x r).
Proof.
  intros Hs. destruct (sift_split x r) as (r1 & r2 & -> & -> & H1 & H2).
  apply StronglySorted_app in Hs as (H12 & Hs1 & Hs2).
  apply StronglySorted_app. split; [|split; [done|]].
  - intros u v Hu Hv. apply elem_of_cons in Hv as [->|Hv]; [|by apply H12].
    apply less_asym. rewrite Forall_forall in H1. by apply H1.
  - apply StronglySorted_cons. split; [|done].
    destruct r2 as [|y r2]; [done|].
    apply StronglySorted_cons in Hs2 as [Hy _].
    constructor; [done|]. eapply Forall_impl; [exact Hy|].
    intros v Hv. by eapply less_negtrans.
Qed.

Lemma insertion_loop_sorted (l acc : list A) :
  StronglySorted (fun u v => less u v = false) acc ->
  StronglySorted (fun u v => less u v = false)
                 (foldl (fun r x => sift less x r) acc l).
Proof.
  revert acc. induction l as [|x l IH]; intros acc Hs; simpl; [done|].
  by apply IH, sift_sorted.
Qed.

Lemma StronglySorted_reverse (R : relation A) (l : list A) :
  StronglySorted R l -> StronglySorted (flip R) (reverse l).
Proof.
  induction 1 as [|x l _ IH Hx]; [constructor|].
  rewrite reverse_cons. apply StronglySorted_app. split; [|split; [done|]].
  - intros u v Hu Hv. apply list_elem_of_singleton in Hv as ->.
    rewrite elem_of_reverse in Hu. rewrite Forall_forall in Hx. unfold flip. by apply Hx.
  - repeat constructor.
Qed.

Lemma StronglySorted_lookup (R : relation A) (l : list A) i j a b :
  StronglySorted R l -> (i < j)%nat -> l !! i = Some a -> l !! j = Some b -> R a b.
Proof.
  intros Hs. revert i j. induction Hs as [|x l _ IH Hx]; intros i j Hij Hi Hj; [done|].
  destruct j as [|j]; [lia|]. simpl in Hj. destruct i as [|i]; simpl in Hi.
  - simplify_eq. rewrite Forall_forall in Hx. apply Hx.
    by eapply list_elem_of_lookup_2.
  - apply (IH i j); [lia|done..].
Qed.

(** Later elements of the sorted slice are never [less] than earlier
    ones. *)
Lemma insertionSort_sorted (l : list A) i j a b :
  (i < j)%nat -> insertionSort less l !! i = Some a ->
  insertionSort less l !! j = Some b -> less b a = false.
Proof.
  intros Hij Hi Hj.
  apply (StronglySorted_lookup (flip (fun u v => less u v = false))
           (insertionSort less l) i j a b); [|done..].
  apply StronglySorted_reverse, insertion_loop_sorted. constructor.
Qed.

(** *** Stability *)

Section Stable.
Context (P : A -> Prop) `{!forall x, Decision (P x)}.
Hypothesis less_apart : forall x y, less x y = true -> P x -> ~ P y.

Lemma filter_sift x (r : list A) : filter P (sift less x r) = filter P (x :: r).
Proof.
  destruct (sift_split x r) as (r1 & r2 & -> & -> & H1 & _).
  rewrite filter_app, !filter_cons, filter_app.
  destruct (decide (P x)) as [Hx|Hx]; [|done].
  assert (E : filter P r1 = []); [|by rewrite E].
  clear -H1 Hx less_apart. induction H1 as [|y r1 Hy _ IH]; [done|].
  rewrite filter_cons, IH. rewrite decide_False; [done|]. by eapply less_apart.
Qed.

Lemma filter_insertion_loop (l acc : list A) :
  filter P (foldl (fun r x => sift less x r) acc l) = filter P (reverse l ++ acc).
Proof.
  revert acc. induction l as [|x l IH]; intros acc; simpl; [done|].
  rewrite IH, reverse_cons, <- app_assoc. simpl.
  by rewrite !filter_app, filter_sift.
Qed.

(** The elements that satisfy [P] keep their order. *)
Lemma filter_insertionSort (l : list A) :
  filter P (insertionSort less l) = filter P l.
Proof.
  unfold insertionSort.
  by rewrite filter_reverse, filter_insertion_loop, app_nil_r, filter_reverse,
    reverse_involutive.
Qed.

End Stable.

End InsertionSort.

Lemma tableLess_asym a b : tableLess a b = true -> tableLess b a = false.
Proof. rewrite tableLess_false, tableLess_spec. unfold ranks_no_lower. lia. Qed.

Lemma tableLess_negtrans a b c :
  tableLess a b = false -> tableLess b c = false -> tableLess a c = false.
Proof. rewrite !tableLess_false. unfold ranks_no_lower. lia. Qed.

Lemma tableLess_apart pts gd a b :
  tableLess a b = true -> tied_on pts gd a -> ~ tied_on pts gd b.
Proof. rewrite tableLess_spec. unfold tied_on. lia. Qed.

Lemma set_Position_reset v e :
  LTE.Position e = 0 -> set_Position 0 (set_Position v e) = e.
Proof. destruct e; simpl. by intros ->. Qed.

Lemma assignPositions_reset table :
  Forall (fun e => LTE.Position e = 0) table ->
  set_Position 0 <$> assignPositions table = table.
Proof.
  intros Hz. unfold assignPositions. apply list_eq. intros i.
  rewrite list_lookup_fmap, list_lookup_imap.
  destruct (table !! i) as [e|] eqn:E; [|done]. simpl. f_equal.
  apply set_Position_reset. rewrite Forall_lookup in Hz. by eapply Hz.
Qed.

Lemma lookup_assignPositions table i e :
  assignPositions table !! i = Some e ->
  exists e', table !! i = Some e' /\ e = set_Position (wrap (Z.of_nat i + 1)) e'.
Proof.
  unfold assignPositions. rewrite list_lookup_imap.
  destruct (table !! i) as [e'|]; [|done]. simpl. intros [= <-]. eauto.
Qed.

Lemma sift_fmap {A B : Type} (f : A -> B) (less : B -> B -> bool) x (r : list A) :
  sift less (f x) (f <$> r) = f <$> sift (fun a b => less (f a) (f b)) x r.
Proof.
  induction r as [|y r IH]; simpl; [done|].
  destruct (less (f x) (f y)); simpl; [f_equal; apply IH|done].
Qed.

(** Sorting the entries is sorting the teams they are made of. *)
Lemma insertionSort_fmap {A B : Type} (f : A -> B) (less : B -> B -> bool) (l : list A) :
  insertionSort less (f <$> l) = f <$> insertionSort (fun a b => less (f a) (f b)) l.
Proof.
  unfold insertionSort. rewrite fmap_reverse. f_equal.
  change (@nil B) with (f <$> @nil A). generalize (@nil A).
  induction l as [|x l IH]; intros acc; [done|].
  rewrite fmap_cons. cbn [foldl]. rewrite sift_fmap. apply IH.
Qed.

Lemma shows_tableEntry v t : shows (set_Position v (tableEntry t)) t.
Proof. by repeat split. Qed.

(** C5.  For a League of at most twelve teams the rebuilt table lists
    the teams of [league.Teams], one entry each, in an order [order]:
    the entry at an index shows the name and the counters of the team
    at that index of [order]; a team never stands below one that has
    fewer points, or as many points and a smaller goal difference; the
    teams level on both keep the order of [league.Teams]; the entry at
    index [i] has position [i + 1]. *)
Theorem standings_order s :
  (length (Teams (st_league s)) <= 12)%nat ->
  let team := fun p : ptr => st_heap s !!! p in
  let table := LeagueTable (st_league (updateLeagueTable s)) in
  exists order : list ptr,
    order ≡ₚ Teams (st_league s) /\
    Forall2 (fun e p => shows e (team p)) table order /\
    (forall i j p q, (i < j)%nat -> order !! i = Some p -> order !! j = Some q ->
                     stands_no_lower (team p) (team q)) /\
    (forall pts gd, filter (fun p => level_on pts gd (team p)) order
                    = filter (fun p => level_on pts gd (team p)) (Teams (st_league s))) /\
    (forall i e, table !! i = Some e -> LTE.Position e = Z.of_nat i + 1).
Proof.
  intros Hlen team table.
  set (entry := fun p : ptr => tableEntry (team p)).
  set (less := fun p q : ptr => tableLess (entry p) (entry q)).
  set (order := insertionSort less (Teams (st_league s))).
  assert (Et : table = assignPositions (entry <$> order)).
  { unfold table, order, less. by rewrite <- (insertionSort_fmap entry tableLess). }
  assert (Hasym : forall x y, less x y = true -> less y x = false)
    by (intros x y; apply tableLess_asym).
  assert (Hneg : forall x y z, less x y = false -> less y z = false -> less x z = false)
    by (intros x y z; apply tableLess_negtrans).
  exists order. split; [apply insertionSort_perm|]. split; [|split; [|split]].
  - apply Forall2_same_length_lookup. split.
    + rewrite Et. unfold assignPositions. by rewrite length_imap, length_fmap.
    + intros i e p Hi Hp. rewrite Et in Hi.
      apply lookup_assignPositions in Hi as (e' & Hi & ->).
      rewrite list_lookup_fmap, Hp in Hi. injection Hi as <-.
      apply shows_tableEntry.
  - intros i j p q Hij Hi Hj.
    change (ranks_no_lower (entry p) (entry q)). apply tableLess_false.
    by apply (insertionSort_sorted less Hasym Hneg (Teams (st_league s)) i j p q).
  - intros pts gd. apply filter_insertionSort.
    intros x y Hless Hx Hy.
    by apply (tableLess_apart pts gd (entry x) (entry y)).
  - intros i e Hi. rewrite Et in Hi.
    apply lookup_assignPositions in Hi as (e' & Hi & ->). simpl.
    apply wrap_small.
    assert (i < 12)%nat; [|wrap_lia].
    apply lookup_lt_Some in Hi. rewrite length_fmap in Hi.
    assert (Hl : length order = length (Teams (st_league s)))
      by apply (Permutation_length (insertionSort_perm less _)).
    lia.
Qed.

Lemma standings_order_witness :
  (length (Teams (st_league week1)) <= 12)%nat /\
  let team := fun p : ptr => st_heap week1 !!! p in
  let table := LeagueTable (st_league (updateLeagueTable week1)) in
  exists order : list ptr,
    order ≡ₚ Teams (st_league week1) /\
    Forall2 (fun e p => shows e (team p)) table order /\
    (forall i j p q, (i < j)%nat -> order !! i = Some p -> order !! j = Some q ->
                     stands_no_lower (team p) (team q)) /\
    (forall pts gd, filter (fun p => level_on pts gd (team p)) order
                    = filter (fun p => level_on pts gd (team p))
                             (Teams (st_league week1))) /\
    (forall i e, table !! i = Some e -> LTE.Position e = Z.of_nat i + 1).
Proof.
  assert (Hlen : (length (Teams (st_league week1)) <= 12)%nat)
    by (vm_compute; repeat constructor).
  split; [exact Hlen|]. exact (standings_order week1 Hlen).
Defined.

(** ** Outcome predictor, in exact arithmetic *)

Local Open Scope Qc_scope.

Lemma lit_100_nonzero : Q2Qc 100.0 <> 0.
Proof. intros E. apply (f_equal this) in E. vm_compute in E. discriminate. Qed.

Lemma lit_30_over_100 : Q2Qc 30.0 / Q2Qc 100.0 = Q2Qc 0.3.
Proof. apply Qc_is_canon. by vm_compute. Qed.

Lemma lit_75 : Q2Qc 75 = Qc_of_Z 75.
Proof. apply Qc_is_canon. by vm_compute. Qed.

Lemma lit_0_0 : Q2Qc 0.0 = 0.
Proof. apply Qc_is_canon. by vm_compute. Qed.

Lemma lit_0_2_pos : 0 < Q2Qc 0.2.
Proof. by vm_compute. Qed.

(** [math.Max(gd * 0.2, 0)] is [0.2 * max(gd, 0)]. *)
Lemma gdWeight_max gd :
  f_max (f_mul (f_of_int gd) (f_lit 0.2)) (f_lit 0)
  = Q2Qc 0.2 * Qc_of_Z (Z.max gd 0).
Proof.
  cbn [f_max f_mul f_of_int f_lit Exact].
  assert (Hs : Qc_of_Z gd * Q2Qc 0.2 < Q2Qc 0 <-> (gd < 0)%Z).
  { rewrite Z2Qc_inj_lt, Z2Qc_inj_0.
    rewrite (Qcmult_lt_mono_pos_r (Qc_of_Z gd) 0 (Q2Qc 0.2) lit_0_2_pos).
    by rewrite Qcmult_0_l. }
  case_bool_decide as Hd.
  - apply Hs in Hd. rewrite Z.max_r by lia. rewrite Z2Qc_inj_0. ring.
  - rewrite Hs in Hd. rewrite Z.max_l by lia. ring.
Qed.

Lemma entryWeight_exact s e : entryWeight s e = weight_of s e.
Proof.
  unfold entryWeight, weight_of, claimed_weight, strength_of, bonus, team_name.
  cbv zeta. rewrite gdWeight_max.
  cbn [f_max f_mul f_of_int f_lit f_add f_div Exact].
  destruct (list_find _ _) as [[i team]|]; rewrite ?lit_75;
    rewrite <- lit_30_over_100;
    destruct (LTE.Position e =? 1); [|destruct (LTE.Position e =? 2)| |destruct (LTE.Position e =? 2)];
    field; apply lit_100_nonzero.
Qed.

Lemma Qc_sum_acc (ws : list Qc) acc :
  foldl Qcplus acc ws = acc + Qc_sum ws.
Proof.
  revert acc. induction ws as [|w ws IH]; intros acc;
    cbn [foldl Qc_sum foldr]; [ring|].
  rewrite IH. unfold Qc_sum. ring.
Qed.

(** The loop over the table: the map of weights and their total. *)
Lemma weights_loop s (table : list LeagueTableEntry) (tw : gmap string Qc) tot :
  foldl (fun '(teamWeights, totalWeight) entry =>
           let weight := entryWeight s entry in
           (<[LTE.TeamName entry := weight]> teamWeights, f_add totalWeight weight))
        (tw, tot) table
  = (foldl (fun m e => <[LTE.TeamName e := weight_of s e]> m) tw table,
     tot + Qc_sum (weight_of s <$> table)).
Proof.
  revert tw tot. induction table as [|e table IH]; intros tw tot;
    cbn [foldl fmap list_fmap Qc_sum foldr].
  - f_equal. ring.
  - rewrite IH, entryWeight_exact. f_equal. cbn [f_add Exact].
    unfold Qc_sum. ring.
Qed.

Lemma predictChampionship_exact s :
  predictChampionship s
  = (fun w => if bool_decide (0 < total_weight s)
              then w / total_weight s * Q2Qc 100 else Q2Qc 25.0)
    <$> weight_map s.
Proof.
  unfold predictChampionship. cbv zeta. rewrite weights_loop.
  cbn [f_lt f_mul f_div f_lit Exact]. rewrite lit_0_0, Qcplus_0_l. done.
Qed.

(** *** The map of weights *)

Section WeightMap.
Context (v : LeagueTableEntry -> Qc).

Let ins (m : gmap string Qc) (e : LeagueTableEntry) : gmap string Qc :=
  <[LTE.TeamName e := v e]> m.

Lemma lookup_inserts_absent (l : list LeagueTableEntry) (m : gmap string Qc) k :
  k ∉ LTE.TeamName <$> l -> foldl ins m l !! k = m !! k.
Proof.
  revert m. induction l as [|e l IH]; intros m Hk; [done|].
  rewrite fmap_cons, not_elem_of_cons in Hk. destruct Hk as [Hne Hk].
  cbn [foldl]. rewrite IH by done. unfold ins. by rewrite lookup_insert_ne.
Qed.

Lemma lookup_inserts (l : list LeagueTableEntry) (m : gmap string Qc) e :
  NoDup (LTE.TeamName <$> l) -> e ∈ l ->
  foldl ins m l !! LTE.TeamName e = Some (v e).
Proof.
  revert m. induction l as [|e' l IH]; intros m Hnd He; [by apply elem_of_nil in He|].
  rewrite fmap_cons, NoDup_cons in Hnd. destruct Hnd as [Hfresh Hnd].
  cbn [foldl]. apply elem_of_cons in He as [->|He]; [|by apply IH].
  rewrite lookup_inserts_absent by done. unfold ins. by rewrite lookup_insert_eq.
Qed.

Lemma pct_sum_insert (m : gmap string Qc) k x :
  m !! k = None -> pct_sum (<[k := x]> m) = x + pct_sum m.
Proof.
  intros Hk. unfold pct_sum. apply map_fold_insert_L; [|done].
  intros. ring.
Qed.

Lemma pct_sum_inserts (g : Qc -> Qc) (l : list LeagueTableEntry) (m : gmap string Qc) :
  NoDup (LTE.TeamName <$> l) ->
  (forall e, e ∈ l -> m !! LTE.TeamName e = None) ->
  pct_sum (g <$> foldl ins m l) = Qc_sum ((fun e => g (v e)) <$> l) + pct_sum (g <$> m).
Proof.
  revert m. induction l as [|e l IH]; intros m Hnd Hm.
  - cbn [foldl fmap list_fmap Qc_sum foldr]. ring.
  - rewrite fmap_cons, NoDup_cons in Hnd. destruct Hnd as [Hfresh Hnd].
    cbn [foldl]. rewrite IH; [|done|].
    + unfold ins. rewrite fmap_insert, pct_sum_insert.
      * rewrite fmap_cons. unfold Qc_sum. cbn [foldr]. ring.
      * rewrite lookup_fmap, Hm; [done|]. apply elem_of_cons; by left.
    + intros e' He'. unfold ins. rewrite lookup_insert_ne.
      * apply Hm. apply elem_of_cons; by right.
      * intros E. apply Hfresh. rewrite E. by apply list_elem_of_fmap_2.
Qed.

End WeightMap.

Lemma Qc_sum_scaled (T : Qc) (ws : list Qc) :
  T <> 0 ->
  Qc_sum ((fun w => w / T * Q2Qc 100) <$> ws) = Qc_sum ws / T * Q2Qc 100.
Proof.
  intros HT. induction ws as [|w ws IH].
  - cbn [fmap list_fmap Qc_sum foldr]. by field.
  - rewrite fmap_cons. unfold Qc_sum in *. cbn [foldr]. rewrite IH. by field.
Qed.

(** *** The table the predictor reads *)

Lemma buildTable_entries (h : heap) (teams : list ptr) :
  set_Position 0 <$> buildTable h teams
  ≡ₚ (fun team => tableEntry (h !!! team)) <$> teams.
Proof.
  unfold buildTable. cbv zeta. rewrite assignPositions_reset.
  - apply insertionSort_perm.
  - rewrite insertionSort_perm. apply Forall_fmap. by apply Forall_true.
Qed.

Lemma NoDup_fmap_eq {A B} (f : A -> B) (l : list A) x y :
  NoDup (f <$> l) -> x ∈ l -> y ∈ l -> f x = f y -> x = y.
Proof.
  induction l as [|z l IH]; intros Hnd Hx Hy E; [by apply elem_of_nil in Hx|].
  rewrite fmap_cons, NoDup_cons in Hnd. destruct Hnd as [Hz Hnd].
  apply elem_of_cons in Hx as [->|Hx]; apply elem_of_cons in Hy as [->|Hy];
    [done| | |by apply IH].
  - destruct Hz. rewrite E. by apply list_elem_of_fmap_2.
  - destruct Hz. rewrite <- E. by apply list_elem_of_fmap_2.
Qed.

Lemma Qc_of_Z_nonneg n : (0 <= n)%Z -> 0 <= Qc_of_Z n.
Proof. intros Hn. by rewrite <- Z2Qc_inj_0, <- Z2Qc_inj_le. Qed.

Lemma claimed_weight_nonneg points strength gd wins position :
  (0 <= points)%Z -> (0 <= strength)%Z -> (0 <= wins)%Z ->
  0 <= claimed_weight points strength gd wins position.
Proof.
  intros Hp Hs Hw. unfold claimed_weight.
  apply Qcmult_nonneg_nonneg.
  - repeat apply Qcplus_nonneg_nonneg; apply Qcmult_nonneg_nonneg;
      try (by vm_compute); apply Qc_of_Z_nonneg; lia.
  - unfold bonus. destruct (position =? 1); [by vm_compute|].
    destruct (position =? 2); by vm_compute.
Qed.

Lemma Qc_sum_nonneg (ws : list Qc) : Forall (fun w => 0 <= w) ws -> 0 <= Qc_sum ws.
Proof.
  induction 1 as [|w ws Hw _ IH]; [done|].
  unfold Qc_sum in *. cbn [foldr]. by apply Qcplus_nonneg_nonneg.
Qed.

Section FreshTable.
Variable s : State.
Hypothesis fresh :
  LeagueTable (st_league s) = buildTable (st_heap s) (Teams (st_league s)).
Hypothesis names : NoDup (team_name s <$> Teams (st_league s)).

Lemma team_of_entry e :
  e ∈ LeagueTable (st_league s) ->
  exists team, team ∈ Teams (st_league s) /\
               set_Position 0 e = tableEntry (st_heap s !!! team).
Proof.
  intros He. apply (list_elem_of_fmap_2 (set_Position 0)) in He.
  rewrite fresh, buildTable_entries in He.
  apply list_elem_of_fmap in He as (team & E & Ht). eauto.
Qed.

Lemma entry_of_team team :
  team ∈ Teams (st_league s) ->
  exists e, e ∈ LeagueTable (st_league s) /\
            set_Position 0 e = tableEntry (st_heap s !!! team).
Proof.
  intros Ht.
  apply (list_elem_of_fmap_2 (fun team => tableEntry (st_heap s !!! team))) in Ht.
  rewrite <- buildTable_entries, <- fresh in Ht.
  apply list_elem_of_fmap in Ht as (e & E & He). eauto.
Qed.

Lemma table_names :
  LTE.TeamName <$> LeagueTable (st_league s) ≡ₚ team_name s <$> Teams (st_league s).
Proof.
  transitivity (LTE.TeamName <$> (set_Position 0 <$> LeagueTable (st_league s))).
  - rewrite <- list_fmap_compose.
    assert (E : LTE.TeamName <$> LeagueTable (st_league s)
                = LTE.TeamName ∘ set_Position 0 <$> LeagueTable (st_league s))
      by (by apply list_fmap_ext).
    by rewrite E.
  - rewrite fresh, buildTable_entries, <- list_fmap_compose. done.
Qed.

Lemma table_names_NoDup : NoDup (LTE.TeamName <$> LeagueTable (st_league s)).
Proof. by rewrite table_names. Qed.

Lemma strength_of_team team :
  team ∈ Teams (st_league s) ->
  strength_of s (team_name s team) = TeamStrength (st_heap s !!! team).
Proof.
  intros Ht. unfold strength_of.
  destruct (list_find _ _) as [[i team']|] eqn:E.
  - apply list_find_Some in E as (Hi & Hn & _).
    apply list_elem_of_lookup_2 in Hi.
    by rewrite (NoDup_fmap_eq (team_name s) _ team' team names Hi Ht Hn).
  - apply list_find_None in E. rewrite Forall_forall in E. by destruct (E team Ht).
Qed.

(** The weight of the entry of a team, from the team's own data. *)
Lemma weight_of_entry team e :
  team ∈ Teams (st_league s) ->
  set_Position 0 e = tableEntry (st_heap s !!! team) ->
  LTE.TeamName e = team_name s team /\
  weight_of s e
  = claimed_weight (Points (st_heap s !!! team)) (TeamStrength (st_heap s !!! team))
      (wrap (GoalsFor (st_heap s !!! team) - GoalsAgainst (st_heap s !!! team)))
      (Wins (st_heap s !!! team)) (LTE.Position e).
Proof.
  intros Ht E.
  assert (En : LTE.TeamName e = team_name s team)
    by (by apply (f_equal LTE.TeamName) in E; destruct e).
  split; [done|]. unfold weight_of. rewrite En, strength_of_team by done.
  apply (f_equal (fun x => (LTE.Points x, LTE.GoalsDifference x, LTE.Wins x))) in E.
  destruct e; simpl in *. by simplify_eq.
Qed.

Hypothesis nonneg :
  Forall (fun team => let t := st_heap s !!! team in
                      (0 <= TeamStrength t /\ 0 <= Points t /\ 0 <= Wins t)%Z)
         (Teams (st_league s)).

Lemma weight_of_nonneg e : e ∈ LeagueTable (st_league s) -> 0 <= weight_of s e.
Proof.
  intros He. destruct (team_of_entry e He) as (team & Ht & E).
  destruct (weight_of_entry team e Ht E) as [_ ->].
  rewrite Forall_forall in nonneg. destruct (nonneg team Ht) as (? & ? & ?).
  by apply claimed_weight_nonneg.
Qed.

Lemma total_weight_nonneg : 0 <= total_weight s.
Proof.
  apply Qc_sum_nonneg, Forall_fmap, Forall_forall. intros e He.
  by apply weight_of_nonneg.
Qed.

End FreshTable.

Lemma lit_25 : Q2Qc 25.0 = Qc_of_Z 25.
Proof. apply Qc_is_canon. by vm_compute. Qed.

Lemma lit_100 : Q2Qc 100 = Qc_of_Z 100.
Proof. apply Qc_is_canon. by vm_compute. Qed.

Lemma pct_sum_empty : pct_sum ∅ = 0.
Proof. unfold pct_sum. by rewrite map_fold_empty. Qed.

(** C9.  On an up-to-date table of teams with distinct names and
    non-negative strength, points and wins, in exact arithmetic: every
    team is predicted [weight / total * 100], its weight being
    [0.4 points + 0.3 strength + 0.2 max(goal difference, 0) + 1.0 wins]
    times 1.2 at position 1 and 1.1 at position 2, and [total] the sum
    of the weights; when the total is not zero the percentages sum to
    100; when it is zero every team is predicted 25. *)
Theorem predictor_percentages s :
  LeagueTable (st_league s) = buildTable (st_heap s) (Teams (st_league s)) ->
  NoDup (team_name s <$> Teams (st_league s)) ->
  Forall (fun team => let t := st_heap s !!! team in
                      (0 <= TeamStrength t /\ 0 <= Points t /\ 0 <= Wins t)%Z)
         (Teams (st_league s)) ->
  let predictions : gmap string Qc := predictChampionship s in
  let total := total_weight s in
  (forall team, team ∈ Teams (st_league s) ->
     let t := st_heap s !!! team in
     exists e, e ∈ LeagueTable (st_league s) /\
               set_Position 0 e = tableEntry t /\
               let w := claimed_weight (Points t) (TeamStrength t)
                          (wrap (GoalsFor t - GoalsAgainst t)) (Wins t)
                          (LTE.Position e) in
               weight_of s e = w /\
               predictions !! TeamName t
               = Some (if bool_decide (total = 0) then Qc_of_Z 25
                       else w / total * Qc_of_Z 100)) /\
  (total <> 0 -> pct_sum predictions = Qc_of_Z 100).
Proof.
  intros Hfresh Hnames Hnonneg predictions total.
  pose proof (total_weight_nonneg s Hfresh Hnames Hnonneg) as Hge. fold total in Hge.
  assert (Hpos : total <> 0 -> 0 < total).
  { intros Hne. apply Qcle_lt_or_eq in Hge as [?|E]; [done|]. by destruct Hne. }
  assert (Ep : predictions
               = (fun w => if bool_decide (0 < total)
                           then w / total * Q2Qc 100 else Q2Qc 25.0)
                 <$> weight_map s) by apply predictChampionship_exact.
  split.
  - intros team Ht t.
    destruct (entry_of_team s Hfresh team Ht) as (e & He & E).
    destruct (weight_of_entry s Hnames team e Ht E) as [En Ew].
    exists e. split; [done|]. split; [done|]. cbv zeta. split; [done|].
    rewrite Ep, lookup_fmap. change (TeamName t) with (team_name s team).
    rewrite <- En. unfold weight_map.
    rewrite (lookup_inserts (weight_of s) _ ∅ e (table_names_NoDup s Hfresh Hnames) He).
    simpl. f_equal. rewrite Ew, lit_25, lit_100.
    repeat case_bool_decide; try done.
    + match goal with H : 0 < total |- _ => apply Qclt_not_eq in H; by destruct H end.
    + match goal with H : ~ 0 < total |- _ => destruct H; by apply Hpos end.
  - intros Hne. rewrite Ep. rewrite bool_decide_eq_true_2 by auto.
    unfold weight_map.
    rewrite (pct_sum_inserts (weight_of s) (fun w => w / total * Q2Qc 100));
      [|by apply table_names_NoDup|by intros; apply lookup_empty].
    rewrite fmap_empty, pct_sum_empty.
    rewrite (list_fmap_compose (weight_of s) (fun w => w / total * Q2Qc 100)).
    rewrite Qc_sum_scaled by done.
    change (Qc_sum (weight_of s <$> LeagueTable (st_league s))) with total.
    rewrite lit_100. by field.
Qed.

Local Close Scope Qc_scope.

Lemma predictor_percentages_witness :
  LeagueTable (st_league week1) = buildTable (st_heap week1) (Teams (st_league week1)) /\
  NoDup (team_name week1 <$> Teams (st_league week1)) /\
  Forall (fun team => let t := st_heap week1 !!! team in
                      (0 <= TeamStrength t /\ 0 <= Points t /\ 0 <= Wins t)%Z)
         (Teams (st_league week1)) /\
  let predictions : gmap string Qc := predictChampionship week1 in
  let total := total_weight week1 in
  (forall team, team ∈ Teams (st_league week1) ->
     let t := st_heap week1 !!! team in
     exists e, e ∈ LeagueTable (st_league week1) /\
               set_Position 0 e = tableEntry t /\
               let w := claimed_weight (Points t) (TeamStrength t)
                          (wrap (GoalsFor t - GoalsAgainst t)) (Wins t)
                          (LTE.Position e) in
               weight_of week1 e = w /\
               predictions !! TeamName t
               = Some (if bool_decide (total = 0%Qc) then Qc_of_Z 25
                       else (w / total * Qc_of_Z 100)%Qc)) /\
  (total <> 0%Qc -> pct_sum predictions = Qc_of_Z 100).
Proof.
  assert (Hfresh : LeagueTable (st_league week1)
                   = buildTable (st_heap week1) (Teams (st_league week1)))
    by (vm_compute; reflexivity).
  assert (Hnames : NoDup (team_name week1 <$> Teams (st_league week1)))
    by (apply (bool_decide_unpack _); vm_compute; exact I).
  assert (Hnonneg : Forall (fun team => let t := st_heap week1 !!! team in
                      (0 <= TeamStrength t /\ 0 <= Points t /\ 0 <= Wins t)%Z)
                           (Teams (st_league week1)))
    by (vm_compute; repeat constructor; discriminate).
  split; [exact Hfresh|]. split; [exact Hnames|]. split; [exact Hnonneg|].
  exact (predictor_percentages week1 Hfresh Hnames Hnonneg).
Defined.


(** ** The sample run in binary64 *)

(** [float64] of the least and of the greatest [int]: [-2^63] is a
    float, [2^63 - 1] rounds to [2^63]. *)
Example float_of_Z_least_int :
  Prim2SF (float_of_Z (- half)) = S754_finite true (2 ^ 52) 11.
Proof. vm_compute. reflexivity. Qed.

Example float_of_Z_greatest_int :
  Prim2SF (float_of_Z (half - 1)) = S754_finite false (2 ^ 52) 11.
Proof. vm_compute. reflexivity. Qed.

(** Rounded and exact arithmetic draw the same scorelines in the first
    week of the sample run. *)
Example week1_binary64_same : week1_binary64 = week1.
Proof. vm_compute. reflexivity. Qed.

(** In binary64 the predictions after that week sum to 100 within
    [10^-9]. *)
Example week1_binary64_percentages :
  PrimFloat.ltb (pct_error64 (predictChampionship week1_binary64))
                (PrimFloat.div (float_of_Z 1) (float_of_Z (10 ^ 9))) = true.
Proof. vm_compute. reflexivity. Qed.

Lemma lookup_rescored i m hs aws s p t :
  st_heap s !! p = Some t -> int_team t ->
  st_heap (rescored i m hs aws s) !! p
  = Some (settle (HomeTeam m) (AwayTeam m) p
            (bump (delta (HomeTeam m) (AwayTeam m) hs aws p)
               (bump (ledger_opp (delta (HomeTeam m) (AwayTeam m)
                                    (HomeTeamScore m) (AwayTeamScore m) p)) t))).
Proof.
  intros Hp Hi. unfold rescored. simpl. rewrite applyNewResult_updateTeamStats.
  apply lookup_updateTeamStats; [|by apply int_team_bump].
  by apply lookup_revertTeamStats.
Qed.

Lemma int_team_settle home away p t : int_team t -> int_team (settle home away p t).
Proof.
  intros Hi. unfold settle. repeat case_decide; try done;
    destruct Hi as (? & ? & ? & ? & ? & ? & ?);
    unfold fixGD, int_team; simpl; split_and!; try done; apply wrap_in_range.
Qed.

(** Moving a consistent ledger from [a] to [b] and back restores it. *)
Lemma round_trip_team home away p a b t :
  int_team t ->
  GoalsDifference t = wrap (GoalsFor t - GoalsAgainst t) ->
  (home <> p -> away <> p -> a = ledger0 /\ b = ledger0) ->
  settle home away p (bump a (bump (ledger_opp b)
    (settle home away p (bump b (bump (ledger_opp a) t))))) = t.
Proof.
  intros Hi Hgd Hun. unfold settle.
  destruct (decide (home = p)) as [Hh|Hh];
    [|destruct (decide (away = p)) as [Ha|Ha];
      [|destruct (Hun Hh Ha) as [-> ->]]];
    clear Hun; destruct t; try destruct a; try destruct b;
    unfold int_team in Hi; cbn in Hi, Hgd;
    team_eval; f_equal; wrap_lia.
Qed.

Lemma Inv_ledger_consistent s : Inv s -> ledger_consistent s.
Proof.
  intros HI. apply Forall_lookup. intros p t Hp.
  pose proof (HI p t Hp) as Ha. split; [by eapply agrees_int_team|].
  destruct Ha as (-> & -> & _ & _ & _ & _ & ->). by rewrite wrap_sub_l, wrap_sub_r.
Qed.

Section RoundTrip.
Context {DB : Type} `{StorageService DB}.
Variable storageService : option DB.

(** C3.  On a consistent store, correcting a played match to any
    scoreline and then back to the scoreline it had restores every
    team's counters, and the match list, to what they were. *)
Theorem correction_round_trip w1 w2 s matchId i m x y :
  ledger_consistent s ->
  findMatch matchId (Matches (st_league s)) = Some (i, m) ->
  Played m = true ->
  let s1 := (editMatchResultHandler storageService w1
               (mkRequest (Some matchId) (Some (x, y))) s).2 in
  let s2 := (editMatchResultHandler storageService w2
               (mkRequest (Some matchId)
                          (Some (HomeTeamScore m, AwayTeamScore m))) s1).2 in
  st_heap s2 = st_heap s /\ Matches (st_league s2) = Matches (st_league s).
Proof.
  intros Hc Hf Hp s1 s2.
  pose proof (findMatch_lookup _ _ _ _ Hf) as [Hi _].
  assert (E1 : s1 = updateLeagueTable (rescored i m x y s))
    by (by apply editMatchResultHandler_played).
  assert (Hf1 : findMatch matchId (Matches (st_league s1))
                = Some (i, set_Score x y m)).
  { rewrite E1. simpl. by apply (findMatch_insert _ _ _ m). }
  assert (E2 : s2 = updateLeagueTable
                      (rescored i (set_Score x y m) (HomeTeamScore m)
                                (AwayTeamScore m) s1))
    by (by apply editMatchResultHandler_played).
  split.
  - apply list_eq. intros p. rewrite E2, E1.
    destruct (st_heap s !! p) as [t|] eqn:Et.
    + unfold ledger_consistent in Hc. rewrite Forall_lookup in Hc.
      destruct (Hc p t Et) as [Hint Hgd].
      pose proof (lookup_rescored i m x y s p t Et Hint) as L1.
      pose proof (lookup_rescored i (set_Score x y m) (HomeTeamScore m)
                    (AwayTeamScore m) (rescored i m x y s) p _ L1
                    (int_team_settle _ _ _ _
                       (int_team_bump _ _ (int_team_bump _ _ Hint)))) as L2.
      etrans; [exact L2|]. f_equal. simpl.
      apply round_trip_team; [done..|].
      intros Hh Ha. by rewrite !delta_untouched.
    + apply lookup_ge_None. apply lookup_ge_None in Et. simpl.
      rewrite !applyNewResult_updateTeamStats.
      by repeat (rewrite length_updateTeamStats || rewrite length_revertTeamStats).
  - rewrite E2, E1. simpl. rewrite list_insert_insert_eq.
    apply list_insert_id. rewrite Hi. by destruct m.
Qed.

End RoundTrip.

Lemma correction_round_trip_witness :
  let m := mkMatch 1 1 0%nat 1%nat 5 3 true in
  ledger_consistent week1 /\
  findMatch 1 (Matches (st_league week1)) = Some (0%nat, m) /\
  Played m = true /\
  let s1 := (editMatchResultHandler no_store client
               (mkRequest (Some 1) (Some (0, 2))) week1).2 in
  let s2 := (editMatchResultHandler no_store hung_up
               (mkRequest (Some 1) (Some (HomeTeamScore m, AwayTeamScore m))) s1).2 in
  st_heap s2 = st_heap week1 /\ Matches (st_league s2) = Matches (st_league week1).
Proof.
  intros m.
  assert (Hc : ledger_consistent week1)
    by exact (Inv_ledger_consistent _
                (Inv_reachable sample_rand no_store _ reachable_week1)).
  assert (Hf : findMatch 1 (Matches (st_league week1)) = Some (0%nat, m))
    by (vm_compute; reflexivity).
  split; [exact Hc|]. split; [exact Hf|]. split; [reflexivity|].
  exact (correction_round_trip no_store client hung_up week1 1 0%nat m 0 2 Hc Hf eq_refl).
Defined.


(** ** The engine and the weekly scheduler, match by match *)

Lemma untouched_alter (f : Team -> Team) (q p : ptr) (h : heap) :
  q <> p -> alter f q h !! p = h !! p.
Proof. intros Hne. by apply list_lookup_alter_ne. Qed.

Lemma untouched_updateTeamStats home away hs aws (h : heap) (p : ptr) :
  home <> p -> away <> p -> updateTeamStats home away hs aws h !! p = h !! p.
Proof.
  intros Hh Ha. unfold updateTeamStats.
  destruct (hs >? aws); [|destruct (hs <? aws)];
    cbv beta iota zeta delta
      [add_GoalsFor add_GoalsAgainst add_Wins add_Draws add_Losses add_Points
       recompute_GoalsDifference];
    by rewrite !untouched_alter.
Qed.

Lemma untouched_revertTeamStats home away hs aws (h : heap) (p : ptr) :
  home <> p -> away <> p -> revertTeamStats home away hs aws h !! p = h !! p.
Proof.
  intros Hh Ha. unfold revertTeamStats.
  destruct (hs >? aws); [|destruct (hs <? aws)];
    cbv beta iota zeta delta
      [sub_GoalsFor sub_GoalsAgainst sub_Wins sub_Draws sub_Losses sub_Points];
    by rewrite !untouched_alter.
Qed.

Section EngineFacts.
Context {F : Type} `{Float64 F}.
Variable rand_Float64 : nat -> F.

Lemma simulateMatch_unplayed i s m :
  Matches (st_league s) !! i = Some m -> Played m = false ->
  simulateMatch rand_Float64 i s = recorded i m (drawn rand_Float64 m s).1 (drawn rand_Float64 m s).2 s.
Proof.
  intros Hm Hp. unfold simulateMatch, drawn. rewrite Hm, Hp.
  by destruct (drawScore _ _ _ _).
Qed.

Lemma simulateMatch_skip i s :
  (forall m, Matches (st_league s) !! i = Some m -> Played m = true) ->
  simulateMatch rand_Float64 i s = s.
Proof.
  intros Hp. unfold simulateMatch.
  destruct (Matches (st_league s) !! i) as [m|] eqn:Hm; [|done].
  by rewrite (Hp m eq_refl).
Qed.

Lemma drawScore_capped hstr astr r1 r2 :
  (drawScore hstr astr r1 r2).1 <= 6 /\ (drawScore hstr astr r1 r2).2 <= 6.
Proof.
  unfold drawScore. cbv zeta. simpl.
  split;
    match goal with
    | |- (if ?x >? 6 then _ else _) <= 6 => destruct (Z.gtb_spec x 6); lia
    end.
Qed.

(** What [simulateMatch i] does to the match list, index by index. *)
Lemma lookup_simulateMatch i j s m :
  Matches (st_league s) !! j = Some m ->
  exists m', Matches (st_league (simulateMatch rand_Float64 i s)) !! j = Some m' /\
             skeleton m' = skeleton m /\
             (Played m = true -> m' = m) /\
             (i <> j -> m' = m) /\
             (i = j -> Played m' = true) /\
             (m' = m \/ (m' = set_Played true (set_Score (drawn rand_Float64 m s).1 (drawn rand_Float64 m s).2 m)
                         /\ Played m = false /\ i = j)).
Proof.
  intros Hj.
  destruct (Matches (st_league s) !! i) as [mi|] eqn:Hi.
  - destruct (Played mi) eqn:Hp.
    + rewrite simulateMatch_skip by (intros ? ?; simplify_eq; done).
      exists m. repeat split; auto. intros ->. by simplify_eq.
    + rewrite (simulateMatch_unplayed i s mi Hi Hp). simpl.
      destruct (decide (i = j)) as [->|Hne].
      * simplify_eq. eexists. split.
        { apply list_lookup_insert_eq. by eapply lookup_lt_Some. }
        repeat split; try done; [congruence| by right].
      * exists m. rewrite list_lookup_insert_ne by done. repeat split; auto.
  - rewrite simulateMatch_skip by (intros ? ?; simplify_eq).
    exists m. repeat split; auto. intros ->. by simplify_eq.
Qed.

Lemma CurrentWeek_simulateMatch i s :
  CurrentWeek (st_league (simulateMatch rand_Float64 i s)) = CurrentWeek (st_league s).
Proof.
  destruct (simulateMatch_cases rand_Float64 i s) as [->|(m & hs & aws & _ & _ & ->)]; done.
Qed.

(** X1: a match is simulated once: a second call on the same match
    returns at the [Played] guard and changes nothing. *)
Theorem simulateMatch_once i s :
  simulateMatch rand_Float64 i (simulateMatch rand_Float64 i s)
  = simulateMatch rand_Float64 i s.
Proof.
  apply simulateMatch_skip. intros m' Hm'.
  destruct (Matches (st_league s) !! i) as [m|] eqn:Hm.
  - destruct (lookup_simulateMatch i i s m Hm) as (m2 & H2 & _ & _ & _ & Hp & _).
    rewrite H2 in Hm'. simplify_eq. by apply Hp.
  - rewrite simulateMatch_skip in Hm' by (intros ? ?; simplify_eq). by simplify_eq.
Qed.

(** X2: [simulateMatch] on an unplayed match marks it played with the
    drawn scoreline, leaves every other match, every team other than
    the two sides, the week counter, the team list and the league table
    as they were, and consumes two random numbers. *)
Theorem simulateMatch_footprint i s m :
  Matches (st_league s) !! i = Some m -> Played m = false ->
  let s' := simulateMatch rand_Float64 i s in
  Matches (st_league s')
  = <[i := set_Played true (set_Score (drawn rand_Float64 m s).1 (drawn rand_Float64 m s).2 m)]>
      (Matches (st_league s)) /\
  (forall p, HomeTeam m <> p -> AwayTeam m <> p -> st_heap s' !! p = st_heap s !! p) /\
  CurrentWeek (st_league s') = CurrentWeek (st_league s) /\
  Teams (st_league s') = Teams (st_league s) /\
  LeagueTable (st_league s') = LeagueTable (st_league s) /\
  st_rand s' = S (S (st_rand s)).
Proof.
  intros Hm Hp s'. subst s'. rewrite (simulateMatch_unplayed i s m Hm Hp).
  repeat split; try done.
  intros p Hh Ha. simpl. by apply untouched_updateTeamStats.
Qed.

(** The loop of [weeklySimulator] over the indices [l]. *)
Lemma week_loop l : forall s j m,
  Matches (st_league s) !! j = Some m ->
  let s' := foldl (fun s i =>
                     match Matches (st_league s) !! i with
                     | Some m =>
                       if (Week m =? CurrentWeek (st_league s)) && negb (Played m)
                       then simulateMatch rand_Float64 i s else s
                     | None => s
                     end) s l in
  CurrentWeek (st_league s') = CurrentWeek (st_league s) /\
  exists m', Matches (st_league s') !! j = Some m' /\
             skeleton m' = skeleton m /\
             (Played m = true -> m' = m) /\
             (Week m <> CurrentWeek (st_league s) -> m' = m) /\
             (j ∈ l -> Week m = CurrentWeek (st_league s) -> Played m' = true).
Proof.
  induction l as [|a l IH]; intros s j m Hj; simpl.
  - split; [done|]. exists m. repeat split; auto. by intros ?%elem_of_nil.
  - set (s1 := match Matches (st_league s) !! a with
               | Some m0 => if (Week m0 =? CurrentWeek (st_league s)) && negb (Played m0)
                            then simulateMatch rand_Float64 a s else s
               | None => s end).
    assert (Hcw : CurrentWeek (st_league s1) = CurrentWeek (st_league s)).
    { subst s1. destruct (Matches (st_league s) !! a); [|done].
      destruct (_ && _); [apply CurrentWeek_simulateMatch|done]. }
    assert (H1 : exists m1, Matches (st_league s1) !! j = Some m1 /\
                 skeleton m1 = skeleton m /\
                 (Played m = true -> m1 = m) /\
                 (Week m <> CurrentWeek (st_league s) -> m1 = m) /\
                 (a = j -> Week m = CurrentWeek (st_league s) -> Played m1 = true)).
    { subst s1. destruct (Matches (st_league s) !! a) as [ma|] eqn:Ha.
      - destruct ((Week ma =? CurrentWeek (st_league s)) && negb (Played ma)) eqn:Hc.
        + destruct (lookup_simulateMatch a j s m Hj) as (m1 & H1 & Hsk & Hpl & Hne & Heq & _).
          exists m1. repeat split; auto.
          intros Hw. apply Hne. intros ->. simplify_eq.
          apply andb_true_iff in Hc as [Hc _]. apply Z.eqb_eq in Hc. done.
        + exists m. repeat split; auto. intros -> Hw. simplify_eq.
          apply andb_false_iff in Hc as [Hc|Hc].
          * apply Z.eqb_neq in Hc. done.
          * by destruct (Played m).
      - exists m. repeat split; auto. intros ->. by simplify_eq. }
    destruct H1 as (m1 & Hj1 & Hsk1 & Hpl1 & Hw1 & Ha1).
    destruct (IH s1 j m1 Hj1) as (Hcw' & m' & Hj' & Hsk' & Hpl' & Hw' & Hl').
    assert (Hweek : Week m1 = Week m).
    { unfold skeleton in Hsk1. by simplify_eq. }
    split; [congruence|]. exists m'. split; [done|]. split; [congruence|].
    split; [|split].
    + intros Hp. rewrite <- (Hpl1 Hp). apply Hpl'. by rewrite (Hpl1 Hp).
    + intros Hw. rewrite <- (Hw1 Hw). apply Hw'. rewrite Hcw. by rewrite (Hw1 Hw).
    + intros Hin Hw. apply elem_of_cons in Hin as [->|Hin].
      * rewrite (Hpl' (Ha1 eq_refl Hw)). by apply Ha1.
      * apply Hl'; [done|]. congruence.
Qed.

Lemma weeklySimulator_matches s j m :
  Matches (st_league s) !! j = Some m ->
  exists m', Matches (st_league (weeklySimulator rand_Float64 s)) !! j = Some m' /\
             skeleton m' = skeleton m /\
             (Played m = true -> m' = m) /\
             (Week m <> wrap (CurrentWeek (st_league s) + 1) -> m' = m) /\
             (Week m = wrap (CurrentWeek (st_league s) + 1) -> Played m' = true).
Proof.
  intros Hj. unfold weeklySimulator. cbv zeta.
  set (s0 := mkState (st_heap s)
               (set_CurrentWeek (wrap (CurrentWeek (st_league s) + 1)) (st_league s))
               (st_rand s)).
  destruct (week_loop (seq 0 (length (Matches (st_league s0)))) s0 j m Hj)
    as (_ & m' & Hj' & Hsk & Hpl & Hw & Hin).
  exists m'. split; [exact Hj'|]. repeat split; auto.
  intros Hwk. apply Hin; [|done].
  apply elem_of_seq. apply lookup_lt_Some in Hj. simpl in *. lia.
Qed.

Lemma CurrentWeek_weeklySimulator s :
  CurrentWeek (st_league (weeklySimulator rand_Float64 s))
  = wrap (CurrentWeek (st_league s) + 1).
Proof.
  unfold weeklySimulator. cbv zeta.
  set (s0 := mkState (st_heap s)
               (set_CurrentWeek (wrap (CurrentWeek (st_league s) + 1)) (st_league s))
               (st_rand s)).
  change (wrap (CurrentWeek (st_league s) + 1)) with (CurrentWeek (st_league s0)).
  generalize (seq 0 (length (Matches (st_league s0)))). intros l.
  unfold updateLeagueTable. simpl.
  apply (foldl_preserves
           (fun a => CurrentWeek (st_league a) = CurrentWeek (st_league s0))); [|done].
  intros a i Ha. destruct (Matches (st_league a) !! i); [|done].
  destruct (_ && _); [by rewrite CurrentWeek_simulateMatch|done].
Qed.

End EngineFacts.

Lemma totalWeeks_acc (ms : list Match) acc :
  acc <= foldl (fun tw m => if Week m >? tw then Week m else tw) acc ms /\
  Forall (fun m => Week m <= foldl (fun tw m => if Week m >? tw then Week m else tw) acc ms) ms.
Proof.
  revert acc. induction ms as [|m ms IH]; intros acc; simpl; [split; [lia|constructor]|].
  destruct (IH (if Week m >? acc then Week m else acc)) as [Hle Hall].
  destruct (Z.gtb_spec (Week m) acc); (split; [lia|constructor; [lia|done]]).
Qed.

Lemma totalWeeks_nonneg ms : 0 <= totalWeeks ms.
Proof. apply totalWeeks_acc. Qed.

Lemma totalWeeks_ge ms m : m ∈ ms -> Week m <= totalWeeks ms.
Proof.
  intros Hin. destruct (totalWeeks_acc ms 0) as [_ Hall].
  rewrite Forall_forall in Hall. by apply Hall.
Qed.

Lemma totalWeeks_skeleton (ms ms' : list Match) :
  skeleton <$> ms = skeleton <$> ms' -> totalWeeks ms = totalWeeks ms'.
Proof.
  unfold totalWeeks. generalize 0. revert ms'.
  induction ms as [|m ms IH]; intros [|m' ms'] acc Hsk; try done.
  rewrite !fmap_cons in Hsk. injection Hsk as Hm Hrest. simpl.
  assert (Week m = Week m') as -> by (unfold skeleton in Hm; congruence).
  by apply IH.
Qed.

Section SchedulerFacts.
Context {F : Type} `{Float64 F}.
Variable rand_Float64 : nat -> F.
Context {DB : Type} `{StorageService DB}.
Variable storageService : option DB.

Lemma length_Matches_frame s s' :
  same_frame s s' -> length (Matches (st_league s')) = length (Matches (st_league s)).
Proof.
  intros (_ & _ & Hsk). apply (f_equal length) in Hsk.
  by rewrite !length_fmap in Hsk.
Qed.

Lemma table_fresh_weeklySimulator s : table_fresh (weeklySimulator rand_Float64 s).
Proof. unfold weeklySimulator. cbv zeta. by unfold table_fresh, updateLeagueTable. Qed.

(** X3: [weeklySimulator] moves the week counter on by one, plays every
    match scheduled for the new week, leaves the matches of other weeks
    and the matches already played as they are, and rebuilds the table. *)
Theorem weeklySimulator_effect s :
  let s' := weeklySimulator rand_Float64 s in
  let week := wrap (CurrentWeek (st_league s) + 1) in
  CurrentWeek (st_league s') = week /\
  length (Matches (st_league s')) = length (Matches (st_league s)) /\
  (forall j m, Matches (st_league s) !! j = Some m ->
     exists m', Matches (st_league s') !! j = Some m' /\
                skeleton m' = skeleton m /\
                (Week m = week -> Played m' = true) /\
                (Week m <> week \/ Played m = true -> m' = m)) /\
  table_fresh s'.
Proof.
  intros s' week. split; [apply CurrentWeek_weeklySimulator|].
  split; [apply length_Matches_frame, frame_weeklySimulator|].
  split; [|apply table_fresh_weeklySimulator].
  intros j m Hj.
  destruct (weeklySimulator_matches rand_Float64 s j m Hj) as (m' & Hj' & Hsk & Hp & Hw & Hpl).
  exists m'. repeat split; auto. intros [?|?]; auto.
Qed.

(** [k] rounds of [weeklySimulator] from week [c]. *)
Lemma iter_weeklySimulator k : forall s c,
  CurrentWeek (st_league s) = c -> - half <= c -> c + Z.of_nat k < half ->
  let s' := Nat.iter k (weeklySimulator rand_Float64) s in
  CurrentWeek (st_league s') = c + Z.of_nat k /\
  forall j m, Matches (st_league s) !! j = Some m ->
    exists m', Matches (st_league s') !! j = Some m' /\
               skeleton m' = skeleton m /\
               (Played m = true -> m' = m) /\
               (c < Week m <= c + Z.of_nat k -> Played m' = true) /\
               (~ (c < Week m <= c + Z.of_nat k) -> m' = m).
Proof.
  induction k as [|k IH]; intros s c Hc Hlo Hhi; cbv zeta.
  - simpl. split; [lia|]. intros j m Hj. exists m. repeat split; auto. lia.
  - rewrite Nat.iter_succ_r.
    set (s1 := weeklySimulator rand_Float64 s).
    assert (Hc1 : CurrentWeek (st_league s1) = c + 1).
    { subst s1. rewrite CurrentWeek_weeklySimulator, Hc. apply wrap_small.
      unfold in_range. lia. }
    destruct (IH s1 (c + 1) Hc1 ltac:(lia) ltac:(lia)) as [Hcw Hms].
    split; [lia|]. intros j m Hj.
    destruct (weeklySimulator_matches rand_Float64 s j m Hj)
      as (m1 & Hj1 & Hsk1 & Hp1 & Hw1 & Hpl1).
    fold s1 in Hj1. rewrite Hc in Hw1, Hpl1.
    rewrite (wrap_small (c + 1)) in Hw1, Hpl1 by (unfold in_range; lia).
    destruct (Hms j m1 Hj1) as (m' & Hj' & Hsk' & Hp' & Hin' & Hout').
    assert (Hweek : Week m1 = Week m) by (unfold skeleton in Hsk1; by simplify_eq).
    exists m'. split; [done|]. split; [congruence|]. split; [|split].
    + intros Hp. rewrite <- (Hp1 Hp). apply Hp'. by rewrite (Hp1 Hp).
    + intros Hw. destruct (decide (Week m = c + 1)) as [Heq|Hne].
      * rewrite (Hp' (Hpl1 Heq)). by apply Hpl1.
      * apply Hin'. lia.
    + intros Hw. rewrite <- (Hw1 ltac:(lia)). apply Hout'. lia.
Qed.

Lemma saveWeek_ok db s :
  store_ok (Some db) -> saveWeek db s = None.
Proof.
  intros (Hm & Ht & Hw). unfold saveWeek. rewrite Hw.
  assert (E1 : forall (l : list Match) (g : Match -> bool),
            firstError (fun m => if g m then SaveMatchResult db m else None) l = None).
  { intros l g. induction l as [|x l IHl]; [done|]. simpl.
    destruct (g x); [by rewrite Hm|done]. }
  rewrite E1.
  assert (E2 : forall l : list ptr,
            firstError (fun team => UpdateTeam db (st_heap s !!! team)) l = None).
  { induction l as [|x l IHl]; [done|]. simpl. by rewrite Ht. }
  by rewrite E2.
Qed.

Lemma simulateWeeks_ok (store : option DB) n : forall s,
  store_ok store ->
  simulateWeeks rand_Float64 store n s
  = (None, Nat.iter n (weeklySimulator rand_Float64) s).
Proof.
  induction n as [|n IH]; intros s Hok; [done|].
  rewrite Nat.iter_succ_r. simpl.
  destruct store as [db|]; [|by apply IH].
  rewrite saveWeek_ok by done. by apply IH.
Qed.

End SchedulerFacts.

Section ServiceFacts.
Context {F : Type} `{Float64 F}.
Variable rand_Float64 : nat -> F.
Context {DB : Type} `{StorageService DB}.
Variable storageService : option DB.



(** X4: the season of [playSeason], started at week 0: the counter ends
    at the last week of the fixture list and every match scheduled for
    week 1 or later is played; what was already played is not replayed. *)
Theorem playSeason_plays_all s :
  CurrentWeek (st_league s) = 0 ->
  totalWeeks (Matches (st_league s)) < half - 1 ->
  let s' := playSeason rand_Float64 s in
  CurrentWeek (st_league s') = totalWeeks (Matches (st_league s)) /\
  forall j m, Matches (st_league s) !! j = Some m ->
    exists m', Matches (st_league s') !! j = Some m' /\
               skeleton m' = skeleton m /\
               (1 <= Week m -> Played m' = true) /\
               (Week m < 1 \/ Played m = true -> m' = m).
Proof.
  intros Hc Htw s'. subst s'. unfold playSeason.
  pose proof (totalWeeks_nonneg (Matches (st_league s))) as Hnn.
  destruct (iter_weeklySimulator rand_Float64
              (Z.to_nat (totalWeeks (Matches (st_league s)))) s 0 Hc)
    as [Hcw Hms]; [unfold half; lia|lia|].
  split; [lia|]. intros j m Hj.
  destruct (Hms j m Hj) as (m' & Hj' & Hsk & Hp & Hin & Hout).
  exists m'. repeat split; auto.
  - intros Hw. apply Hin.
    pose proof (totalWeeks_ge _ m (list_elem_of_lookup_2 _ _ _ Hj)). lia.
  - intros [Hw|Hp']; [apply Hout; lia|by apply Hp].
Qed.

(** X5: [SimulateAllMatches] with nothing left to simulate (the counter
    has reached the last week) returns [nil] and changes nothing, where
    [SimulateNextWeek] reports an error. *)
Theorem SimulateAllMatches_season_over s :
  - half <= CurrentWeek (st_league s) < half - 1 ->
  totalWeeks (Matches (st_league s)) <= CurrentWeek (st_league s) ->
  SimulateAllMatches rand_Float64 storageService s = (None, s).
Proof.
  intros Hr Htw. unfold SimulateAllMatches.
  rewrite wrap_small by (unfold in_range; lia).
  by replace (Z.to_nat _) with 0%nat by lia.
Qed.

(** X6: when no write fails, [SimulateAllMatches] returns [nil], leaves
    the counter at the last week, has played every match scheduled
    after the week it started from, has kept every earlier or already
    played match as it was, and a following [SimulateNextWeek] reports
    that no matches are left. *)
Theorem SimulateAllMatches_completes s :
  store_ok storageService ->
  - half <= CurrentWeek (st_league s) < half - 1 ->
  totalWeeks (Matches (st_league s)) < half - 1 ->
  let r := SimulateAllMatches rand_Float64 storageService s in
  r.1 = None /\
  CurrentWeek (st_league r.2)
  = Z.max (CurrentWeek (st_league s)) (totalWeeks (Matches (st_league s))) /\
  (forall j m, Matches (st_league s) !! j = Some m ->
     exists m', Matches (st_league r.2) !! j = Some m' /\
                skeleton m' = skeleton m /\
                (CurrentWeek (st_league s) < Week m -> Played m' = true) /\
                (Week m <= CurrentWeek (st_league s) \/ Played m = true -> m' = m)) /\
  SimulateNextWeek rand_Float64 storageService r.2
  = (Some "no more matches to simulate", r.2).
Proof.
  intros Hok Hr Htw r.
  pose proof (totalWeeks_nonneg (Matches (st_league s))) as Hnn.
  assert (Hfr : same_frame s r.2) by (apply (frame_step rand_Float64 storageService); constructor).
  subst r. revert Hfr. unfold SimulateAllMatches.
  rewrite wrap_small by (unfold in_range; lia).
  rewrite simulateWeeks_ok by done. simpl. intros Hfr.
  set (n := Z.to_nat (totalWeeks (Matches (st_league s)) - (CurrentWeek (st_league s) + 1) + 1)).
  destruct (iter_weeklySimulator rand_Float64 n s _ eq_refl) as [Hcw Hms]; [lia|lia|].
  fold n in Hfr. set (s' := Nat.iter n (weeklySimulator rand_Float64) s) in *.
  assert (Hcw' : CurrentWeek (st_league s')
                 = Z.max (CurrentWeek (st_league s)) (totalWeeks (Matches (st_league s))))
    by lia.
  split; [done|]. split; [done|]. split.
  - intros j m Hj. destruct (Hms j m Hj) as (m' & Hj' & Hsk & Hp & Hin & Hout).
    exists m'. repeat split; auto.
    + intros Hw. apply Hin.
      pose proof (totalWeeks_ge _ m (list_elem_of_lookup_2 _ _ _ Hj)). lia.
    + intros [Hw|Hp']; [apply Hout; lia|by apply Hp].
  - unfold SimulateNextWeek.
    rewrite (no_match_due_existsb s'); [done|].
    unfold no_match_due. apply Forall_forall. intros m' Hin [Hw _].
    destruct Hfr as (_ & _ & Hsk).
    pose proof (totalWeeks_ge _ m' Hin) as Hle.
    rewrite <- (totalWeeks_skeleton _ _ Hsk) in Hle.
    rewrite wrap_small in Hw by (unfold in_range; lia). lia.
Qed.


(** X8: simulation never rewrites a recorded result: a played match,
    whether simulated or corrected, comes out of [simulateMatch],
    [weeklySimulator], [SimulateNextWeek] and [SimulateAllMatches] with
    the scoreline it had. *)
Theorem recorded_results_survive s j m :
  Matches (st_league s) !! j = Some m -> Played m = true ->
  (forall i, Matches (st_league (simulateMatch rand_Float64 i s)) !! j = Some m) /\
  Matches (st_league (weeklySimulator rand_Float64 s)) !! j = Some m /\
  Matches (st_league (SimulateNextWeek rand_Float64 storageService s).2) !! j = Some m /\
  Matches (st_league (SimulateAllMatches rand_Float64 storageService s).2) !! j = Some m.
Proof.
  intros Hj Hp.
  assert (Hweek : forall a, Matches (st_league a) !! j = Some m ->
            Matches (st_league (weeklySimulator rand_Float64 a)) !! j = Some m).
  { intros a Ha.
    destruct (weeklySimulator_matches rand_Float64 a j m Ha) as (m' & Hj' & _ & Hp' & _).
    by rewrite Hj', (Hp' Hp). }
  split; [|split; [|split]].
  - intros i. destruct (lookup_simulateMatch rand_Float64 i j s m Hj)
      as (m' & Hj' & _ & Hp' & _).
    by rewrite Hj', (Hp' Hp).
  - by apply Hweek.
  - destruct (SimulateNextWeek_cases rand_Float64 storageService s) as [-> | ->];
      [done|by apply Hweek].
  - unfold SimulateAllMatches.
    by apply (simulateWeeks_preserves rand_Float64 storageService
                (fun a => Matches (st_league a) !! j = Some m)).
Qed.

Lemma scores_capped_simulateMatch i s :
  scores_capped s -> scores_capped (simulateMatch rand_Float64 i s).
Proof.
  unfold scores_capped. rewrite !Forall_lookup. intros Hs j m' Hj'.
  destruct (lookup_same_length (Matches (st_league s)) _ j m'
              (length_Matches_frame _ _ (frame_simulateMatch rand_Float64 i s)) Hj')
    as [m Hj].
  destruct (lookup_simulateMatch rand_Float64 i j s m Hj)
    as (m2 & Hj2 & _ & _ & _ & _ & Hcase).
  rewrite Hj2 in Hj'. simplify_eq.
  destruct Hcase as [->|(-> & _ & _)]; [by apply (Hs j)|].
  intros _. simpl. apply drawScore_capped.
Qed.

(** X9: whatever the arithmetic and the random source, the engine
    records at most 6 goals a side: a League whose results are all
    within that cap stays so through every simulation. *)
Theorem simulation_caps_scores s :
  scores_capped s ->
  (forall i, scores_capped (simulateMatch rand_Float64 i s)) /\
  scores_capped (weeklySimulator rand_Float64 s) /\
  scores_capped (SimulateNextWeek rand_Float64 storageService s).2 /\
  scores_capped (SimulateAllMatches rand_Float64 storageService s).2.
Proof.
  intros Hs.
  assert (Hweek : forall a, scores_capped a -> scores_capped (weeklySimulator rand_Float64 a)).
  { intros a Ha. apply weeklySimulator_preserves; auto using scores_capped_simulateMatch. }
  split; [|split; [|split]].
  - intros i. by apply scores_capped_simulateMatch.
  - by apply Hweek.
  - destruct (SimulateNextWeek_cases rand_Float64 storageService s) as [-> | ->];
      [done|by apply Hweek].
  - unfold SimulateAllMatches. by apply simulateWeeks_preserves.
Qed.


End ServiceFacts.

(** ** The engine in exact arithmetic *)

Lemma exact_to_int_nonneg (x : Qc) : (0 <= x)%Qc -> 0 <= f_to_int x.
Proof.
  intros Hx. simpl. apply Z.quot_pos; [|lia].
  unfold Qcle, Qle in Hx. simpl in Hx. lia.
Qed.

Lemma drawScore_exact_nonneg hstr astr (r1 r2 : Qc) :
  0 <= (drawScore hstr astr r1 r2).1 /\ 0 <= (drawScore hstr astr r1 r2).2.
Proof.
  assert (Hclamp : forall x : Qc,
            0 <= f_to_int (f_add (if f_lt x (f_lit 0) then f_lit 0 else x) (f_lit 0.5))).
  { intros x. apply exact_to_int_nonneg. simpl.
    destruct (bool_decide_reflect (x < Q2Qc 0)%Qc) as [Hlt|Hge].
    - by vm_compute.
    - apply Qcnot_lt_le in Hge.
      apply Qcle_trans with (Q2Qc 0 + Q2Qc 0.5)%Qc; [by vm_compute|].
      by apply Qcplus_le_compat; [|apply Qcle_refl]. }
  unfold drawScore. cbv zeta. cbn [fst snd].
  split;
    match goal with
    | |- 0 <= (if ?x >? 6 then _ else _) =>
      destruct (Z.gtb_spec x 6); [lia|apply Hclamp]
    end.
Qed.

Section ExactEngine.
Variable rand_Float64 : nat -> Qc.
Context {DB : Type} `{StorageService DB}.
Variable storageService : option DB.

Lemma scores_within_cap_simulateMatch i s :
  scores_within_cap s -> scores_within_cap (simulateMatch rand_Float64 i s).
Proof.
  unfold scores_within_cap. rewrite !Forall_lookup. intros Hs j m' Hj'.
  destruct (lookup_same_length (Matches (st_league s)) _ j m'
              (length_Matches_frame _ _ (frame_simulateMatch rand_Float64 i s)) Hj')
    as [m Hj].
  destruct (lookup_simulateMatch rand_Float64 i j s m Hj)
    as (m2 & Hj2 & _ & _ & _ & _ & Hcase).
  rewrite Hj2 in Hj'. simplify_eq.
  destruct Hcase as [->|(-> & _ & _)]; [by apply (Hs j)|].
  intros _. cbn [HomeTeamScore AwayTeamScore set_Played set_Score].
  pose proof (drawScore_capped
                (TeamStrength (st_heap s !!! HomeTeam m))
                (TeamStrength (st_heap s !!! AwayTeam m))
                (rand_Float64 (st_rand s)) (rand_Float64 (S (st_rand s)))) as [? ?].
  pose proof (drawScore_exact_nonneg
                (TeamStrength (st_heap s !!! HomeTeam m))
                (TeamStrength (st_heap s !!! AwayTeam m))
                (rand_Float64 (st_rand s)) (rand_Float64 (S (st_rand s)))) as [? ?].
  unfold drawn. lia.
Qed.

(** X11: in exact arithmetic, whatever the random source returns, the
    engine records between 0 and 6 goals a side: a League whose results
    are all in that range stays so through every simulation. *)
Theorem simulation_scores_exact s :
  scores_within_cap s ->
  (forall i, scores_within_cap (simulateMatch rand_Float64 i s)) /\
  scores_within_cap (weeklySimulator rand_Float64 s) /\
  scores_within_cap (SimulateNextWeek rand_Float64 storageService s).2 /\
  scores_within_cap (SimulateAllMatches rand_Float64 storageService s).2.
Proof.
  intros Hs.
  assert (Hweek : forall a, scores_within_cap a ->
                            scores_within_cap (weeklySimulator rand_Float64 a)).
  { intros a Ha. apply weeklySimulator_preserves;
      auto using scores_within_cap_simulateMatch. }
  split; [|split; [|split]].
  - intros i. by apply scores_within_cap_simulateMatch.
  - by apply Hweek.
  - destruct (SimulateNextWeek_cases rand_Float64 storageService s) as [-> | ->];
      [done|by apply Hweek].
  - unfold SimulateAllMatches. by apply simulateWeeks_preserves.
Qed.

End ExactEngine.

(** ** Corrections: errors and composition *)

(** Moving a ledger from [a] to [b] and then from [b] to [c] is moving
    it from [a] to [c]. *)
Lemma two_moves_team home away p a b c t :
  int_team t ->
  (home <> p -> away <> p -> a = ledger0 /\ b = ledger0 /\ c = ledger0) ->
  settle home away p (bump c (bump (ledger_opp b)
    (settle home away p (bump b (bump (ledger_opp a) t)))))
  = settle home away p (bump c (bump (ledger_opp a) t)).
Proof.
  intros Hi Hun. unfold settle.
  destruct (decide (home = p)) as [Hh|Hh];
    [|destruct (decide (away = p)) as [Ha|Ha];
      [|destruct (Hun Hh Ha) as (-> & -> & ->)]];
    clear Hun; destruct t; try destruct a; try destruct b; try destruct c;
    unfold int_team in Hi; cbn in Hi;
    team_eval; f_equal; wrap_lia.
Qed.

(** The rebuilt table forgets the table there was. *)
Lemma updateLeagueTable_ext a b :
  st_heap a = st_heap b ->
  Teams (st_league a) = Teams (st_league b) ->
  Matches (st_league a) = Matches (st_league b) ->
  CurrentWeek (st_league a) = CurrentWeek (st_league b) ->
  st_rand a = st_rand b ->
  updateLeagueTable a = updateLeagueTable b.
Proof.
  destruct a as [h [t m w tb] r], b as [h' [t' m' w' tb'] r']. simpl.
  by intros -> -> -> -> ->.
Qed.

Section CorrectionFacts.
Context {DB : Type} `{StorageService DB}.
Variable storageService : option DB.

Lemma findMatch_None matchId (ms : list Match) :
  Forall (fun m => MatchId m <> matchId) ms -> findMatch matchId ms = None.
Proof.
  intros Hall. unfold findMatch. apply list_find_None.
  by eapply Forall_impl; [done|].
Qed.

(** X12: a correction addressed to an id no match has is answered "Match
    not found" (status 404) and changes nothing. *)
Theorem correction_of_unknown_match w s matchId body :
  Forall (fun m => MatchId m <> matchId) (Matches (st_league s)) ->
  editMatchResultHandler storageService w (mkRequest (Some matchId) (Some body)) s
  = (HttpError "Match not found" 404, s).
Proof.
  intros Hall. unfold editMatchResultHandler. simpl. destruct body as [hs aws].
  by rewrite findMatch_None.
Qed.


(** X14: of two corrections of the same match the last one wins: the
    memory after both is the memory after the second alone. *)
Theorem last_correction_wins w1 w2 s matchId i m b1 b2 :
  int_heap s ->
  findMatch matchId (Matches (st_league s)) = Some (i, m) ->
  Played m = true ->
  let s1 := (editMatchResultHandler storageService w1
               (mkRequest (Some matchId) (Some b1)) s).2 in
  (editMatchResultHandler storageService w2 (mkRequest (Some matchId) (Some b2)) s1).2
  = (editMatchResultHandler storageService w2 (mkRequest (Some matchId) (Some b2)) s).2.
Proof.
  intros Hc Hf Hp s1. destruct b1 as [x1 y1], b2 as [x2 y2].
  pose proof (findMatch_lookup _ _ _ _ Hf) as [Hi _].
  assert (E1 : s1 = updateLeagueTable (rescored i m x1 y1 s))
    by (by apply editMatchResultHandler_played).
  assert (Hf1 : findMatch matchId (Matches (st_league s1))
                = Some (i, set_Score x1 y1 m)).
  { rewrite E1. simpl. by apply (findMatch_insert _ _ _ m). }
  rewrite (editMatchResultHandler_played storageService w2 matchId x2 y2 i
             (set_Score x1 y1 m) s1 Hf1 Hp).
  rewrite (editMatchResultHandler_played storageService w2 matchId x2 y2 i m s Hf Hp).
  assert (Hheap : st_heap (rescored i (set_Score x1 y1 m) x2 y2 s1)
                  = st_heap (rescored i m x2 y2 s)).
  { apply list_eq. intros p. rewrite E1.
    destruct (st_heap s !! p) as [t|] eqn:Et.
    - unfold int_heap in Hc. rewrite Forall_lookup in Hc.
      pose proof (Hc p t Et) as Hint.
      pose proof (lookup_rescored i m x1 y1 s p t Et Hint) as L1.
      pose proof (lookup_rescored i (set_Score x1 y1 m) x2 y2
                    (rescored i m x1 y1 s) p _ L1
                    (int_team_settle _ _ _ _
                       (int_team_bump _ _ (int_team_bump _ _ Hint)))) as L2.
      etrans; [exact L2|]. rewrite (lookup_rescored i m x2 y2 s p t Et Hint).
      f_equal. simpl. apply two_moves_team; [done|].
      intros Hh Ha. by rewrite !delta_untouched.
    - etrans; [|symmetry]; apply lookup_ge_None; apply lookup_ge_None in Et; simpl;
        rewrite !applyNewResult_updateTeamStats;
        by repeat (rewrite length_updateTeamStats || rewrite length_revertTeamStats). }
  apply updateLeagueTable_ext; [exact Hheap|rewrite E1..]; simpl; try done.
  by rewrite list_insert_insert_eq.
Qed.

Lemma table_fresh_editMatchResultHandler w r s :
  table_fresh s -> table_fresh (editMatchResultHandler storageService w r s).2.
Proof.
  intros Hs.
  by destruct (editMatchResultHandler_cases storageService w r s)
    as [->|(id & hs & aws & i & m & _ & _ & _ & _ & ->)].
Qed.

End CorrectionFacts.

Lemma settle_touched home away p t :
  settle home away p t = if bool_decide (home = p \/ away = p) then fixGD t else t.
Proof.
  unfold settle. destruct (decide (home = p)), (decide (away = p));
    case_bool_decide; (done || (exfalso; tauto)).
Qed.

(** Moves of a ledger on behalf of two matches can be made in either
    order. *)
Lemma two_matches_team h1 w1 h2 w2 p a1 b1 a2 b2 t :
  int_team t ->
  (h1 <> p -> w1 <> p -> a1 = ledger0 /\ b1 = ledger0) ->
  (h2 <> p -> w2 <> p -> a2 = ledger0 /\ b2 = ledger0) ->
  settle h2 w2 p (bump b2 (bump (ledger_opp a2)
    (settle h1 w1 p (bump b1 (bump (ledger_opp a1) t)))))
  = settle h1 w1 p (bump b1 (bump (ledger_opp a1)
      (settle h2 w2 p (bump b2 (bump (ledger_opp a2) t))))).
Proof.
  intros Hi Hun1 Hun2.
  assert (T1 : (h1 = p \/ w1 = p) \/ (h1 <> p /\ w1 <> p))
    by (destruct (decide (h1 = p)), (decide (w1 = p)); tauto).
  assert (T2 : (h2 = p \/ w2 = p) \/ (h2 <> p /\ w2 <> p))
    by (destruct (decide (h2 = p)), (decide (w2 = p)); tauto).
  rewrite !settle_touched.
  destruct T1 as [T1|[N1 M1]]; [rewrite (bool_decide_eq_true_2 _ T1)
    |rewrite (bool_decide_eq_false_2 (h1 = p \/ w1 = p)) by tauto;
     destruct (Hun1 N1 M1) as [-> ->]];
  (destruct T2 as [T2|[N2 M2]]; [rewrite (bool_decide_eq_true_2 _ T2)
    |rewrite (bool_decide_eq_false_2 (h2 = p \/ w2 = p)) by tauto;
     destruct (Hun2 N2 M2) as [-> ->]]);
  clear Hun1 Hun2; destruct t; try destruct a1; try destruct b1;
  try destruct a2; try destruct b2;
  unfold int_team in Hi; cbn in Hi;
  team_eval; f_equal; wrap_lia.
Qed.

Lemma findMatch_insert_ne matchId (ms : list Match) i j m m0 m' :
  findMatch matchId ms = Some (j, m) -> ms !! i = Some m0 ->
  MatchId m' = MatchId m0 -> i <> j ->
  findMatch matchId (<[i := m']> ms) = Some (j, m).
Proof.
  unfold findMatch. intros Hf Hi Hid Hne.
  apply list_find_Some in Hf as (Hj & Hm & Hlt).
  apply list_find_Some. split; [|split].
  - by rewrite list_lookup_insert_ne.
  - done.
  - intros k y Hk Hkj. destruct (decide (i = k)) as [<-|Hik].
    + rewrite list_lookup_insert_eq in Hk by (by eapply lookup_lt_Some).
      simplify_eq. rewrite Hid. by eapply Hlt.
    + rewrite list_lookup_insert_ne in Hk by done. by eapply Hlt.
Qed.

Section CorrectionsCommute.
Context {DB : Type} `{StorageService DB}.
Variable storageService : option DB.

Lemma two_corrections_state wa wb s id1 id2 i1 i2 m1 m2 x1 y1 x2 y2 :
  findMatch id1 (Matches (st_league s)) = Some (i1, m1) ->
  findMatch id2 (Matches (st_league s)) = Some (i2, m2) ->
  id1 <> id2 -> Played m1 = true -> Played m2 = true ->
  let s1 := updateLeagueTable (rescored i1 m1 x1 y1 s) in
  (editMatchResultHandler storageService wb (mkRequest (Some id2) (Some (x2, y2)))
     (editMatchResultHandler storageService wa (mkRequest (Some id1) (Some (x1, y1))) s).2).2
  = updateLeagueTable (rescored i2 m2 x2 y2 s1).
Proof.
  intros Hf1 Hf2 Hne Hp1 Hp2 s1.
  pose proof (findMatch_lookup _ _ _ _ Hf1) as [Hi1 Hid1].
  pose proof (findMatch_lookup _ _ _ _ Hf2) as [Hi2 Hid2].
  assert (Hidx : i1 <> i2) by (intros ->; simplify_eq; done).
  rewrite (editMatchResultHandler_played storageService wa id1 x1 y1 i1 m1 s Hf1 Hp1).
  apply editMatchResultHandler_played; [|done].
  simpl. by apply (findMatch_insert_ne _ _ _ _ _ m1).
Qed.

Lemma lookup_two_corrections s i1 i2 m1 m2 x1 y1 x2 y2 p t :
  int_team t -> st_heap s !! p = Some t ->
  st_heap (rescored i2 m2 x2 y2 (updateLeagueTable (rescored i1 m1 x1 y1 s))) !! p
  = Some (settle (HomeTeam m2) (AwayTeam m2) p
            (bump (delta (HomeTeam m2) (AwayTeam m2) x2 y2 p)
               (bump (ledger_opp (delta (HomeTeam m2) (AwayTeam m2)
                                    (HomeTeamScore m2) (AwayTeamScore m2) p))
                  (settle (HomeTeam m1) (AwayTeam m1) p
                     (bump (delta (HomeTeam m1) (AwayTeam m1) x1 y1 p)
                        (bump (ledger_opp (delta (HomeTeam m1) (AwayTeam m1)
                                             (HomeTeamScore m1) (AwayTeamScore m1) p))
                           t)))))).
Proof.
  intros Hint Et.
  pose proof (lookup_rescored i1 m1 x1 y1 s p t Et Hint) as L1.
  exact (lookup_rescored i2 m2 x2 y2 (rescored i1 m1 x1 y1 s) p _ L1
           (int_team_settle _ _ _ _
              (int_team_bump _ _ (int_team_bump _ _ Hint)))).
Qed.

Lemma length_rescored i m x y s :
  length (st_heap (rescored i m x y s)) = length (st_heap s).
Proof.
  simpl. rewrite !applyNewResult_updateTeamStats.
  by repeat (rewrite length_updateTeamStats || rewrite length_revertTeamStats).
Qed.

(** X15: corrections of two different matches commute: either order
    leaves the same memory. *)
Theorem corrections_commute wa wb s id1 id2 i1 i2 m1 m2 b1 b2 :
  int_heap s ->
  findMatch id1 (Matches (st_league s)) = Some (i1, m1) ->
  findMatch id2 (Matches (st_league s)) = Some (i2, m2) ->
  id1 <> id2 -> Played m1 = true -> Played m2 = true ->
  let edit1 := editMatchResultHandler storageService wa (mkRequest (Some id1) (Some b1)) in
  let edit2 := editMatchResultHandler storageService wb (mkRequest (Some id2) (Some b2)) in
  (edit2 (edit1 s).2).2 = (edit1 (edit2 s).2).2.
Proof.
  intros Hc Hf1 Hf2 Hne Hp1 Hp2 edit1 edit2. subst edit1 edit2.
  destruct b1 as [x1 y1], b2 as [x2 y2].
  pose proof (findMatch_lookup _ _ _ _ Hf1) as [Hi1 Hid1].
  pose proof (findMatch_lookup _ _ _ _ Hf2) as [Hi2 Hid2].
  assert (Hidx : i1 <> i2) by (intros ->; simplify_eq; done).
  rewrite (two_corrections_state wa wb s id1 id2 i1 i2 m1 m2 x1 y1 x2 y2) by done.
  rewrite (two_corrections_state wb wa s id2 id1 i2 i1 m2 m1 x2 y2 x1 y1) by done.
  apply updateLeagueTable_ext; try done.
  - apply list_eq. intros p. destruct (st_heap s !! p) as [t|] eqn:Et.
    + unfold int_heap in Hc. rewrite Forall_lookup in Hc.
      pose proof (Hc p t Et) as Hint.
      rewrite !lookup_two_corrections with (t := t) by done. f_equal.
      apply two_matches_team; [done|intros Hh Ha; by rewrite !delta_untouched..].
    + apply lookup_ge_None in Et.
      assert (L : forall i m x y i' m' x' y',
                length (st_heap (rescored i m x y
                                   (updateLeagueTable (rescored i' m' x' y' s))))
                = length (st_heap s)).
      { intros. rewrite length_rescored.
        change (st_heap (updateLeagueTable ?a)) with (st_heap a).
        apply length_rescored. }
      rewrite !lookup_ge_None_2; [done|rewrite L; lia..].
  - simpl. by apply list_insert_insert_ne.
Qed.

End CorrectionsCommute.

(** ** The table that is served and the champion *)

Lemma first_of_table (h : heap) (teams : list ptr) :
  teams <> [] ->
  exists e, buildTable h teams !! 0%nat = Some e /\ LTE.Position e = 1 /\
            forall j e', buildTable h teams !! j = Some e' -> ranks_no_lower e e'.
Proof.
  intros Hne. unfold buildTable. cbv zeta.
  set (entries := (fun team => tableEntry (h !!! team)) <$> teams).
  destruct (insertionSort tableLess entries) as [|e0 rest] eqn:Es.
  { exfalso. apply Hne.
    assert (Hl : length (insertionSort tableLess entries) = length teams).
    { rewrite (Permutation_length (insertionSort_perm tableLess entries)).
      apply length_fmap. }
    rewrite Es in Hl. by destruct teams. }
  exists (set_Position (wrap (0 + 1)) e0). split; [done|]. split; [done|].
  intros j e' Hj. apply lookup_assignPositions in Hj as (e1 & Hj & ->).
  change (ranks_no_lower e0 e1).
  destruct j as [|j].
  - simpl in Hj. simplify_eq. right. lia.
  - apply tableLess_false. rewrite <- Es in Hj.
    apply (insertionSort_sorted tableLess tableLess_asym tableLess_negtrans
             entries 0 (S j) e0 e1); [lia| |done].
    by rewrite Es.
Qed.


Lemma encodeLeagueTable_table w t table :
  encodeLeagueTable w t = HttpTable table -> table = t.
Proof. unfold encodeLeagueTable. destruct (Encode w t); [done|]. by intros [= <-]. Qed.


Section ServedTable.
Context {F : Type} `{Float64 F}.
Variable rand_Float64 : nat -> F.
Context {DB : Type} `{StorageService DB}.
Variable storageService : option DB.

Lemma table_fresh_SimulateNextWeek s :
  table_fresh s -> table_fresh (SimulateNextWeek rand_Float64 storageService s).2.
Proof.
  intros Hs. destruct (SimulateNextWeek_cases rand_Float64 storageService s) as [-> | ->];
    [done|apply table_fresh_weeklySimulator].
Qed.

Lemma table_fresh_SimulateAllMatches s :
  table_fresh s -> table_fresh (SimulateAllMatches rand_Float64 storageService s).2.
Proof.
  intros Hs. unfold SimulateAllMatches.
  apply simulateWeeks_preserves; [|done]. intros a _. apply table_fresh_weeklySimulator.
Qed.

(** X17: the table the server holds is never stale: if it is the table of
    the current ledgers before a request, it is so after
    [simulateNextWeekHandler], [simulateAllMatchesHandler] and
    [editMatchResultHandler], whether they succeed or fail, and a table
    they answer with is the table of the ledgers they leave. *)
Theorem served_table_is_fresh w s :
  table_fresh s ->
  let next := simulateNextWeekHandler rand_Float64 storageService w s in
  let all := simulateAllMatchesHandler rand_Float64 storageService w s in
  table_fresh next.2 /\ table_fresh all.2 /\
  (forall r, table_fresh (editMatchResultHandler storageService w r s).2) /\
  (forall table, next.1 = HttpTable table ->
     table = buildTable (st_heap next.2) (Teams (st_league next.2))) /\
  (forall table, all.1 = HttpTable table ->
     table = buildTable (st_heap all.2) (Teams (st_league all.2))) /\
  (forall r table, (editMatchResultHandler storageService w r s).1 = HttpTable table ->
     table = buildTable (st_heap (editMatchResultHandler storageService w r s).2)
                        (Teams (st_league (editMatchResultHandler storageService w r s).2))).
Proof.
  intros Hs next all.
  pose proof (table_fresh_SimulateNextWeek s Hs) as Hn.
  pose proof (table_fresh_SimulateAllMatches s Hs) as Ha.
  assert (Hedit : forall r table,
            (editMatchResultHandler storageService w r s).1 = HttpTable table ->
            table = LeagueTable (st_league (editMatchResultHandler storageService w r s).2)).
  { intros r table. unfold editMatchResultHandler.
    destruct (req_id r); [|done]. destruct (req_body r) as [[hs aws]|]; [|done].
    destruct (findMatch _ _) as [[i m]|]; [|done].
    destruct (negb (Played m)); [done|]. cbv zeta.
    destruct storageService as [db|]; [|apply encodeLeagueTable_table].
    destruct (SaveMatchResult db _); [done|].
    destruct (UpdateTeam db _); [done|].
    destruct (UpdateTeam db _); [done|]. apply encodeLeagueTable_table. }
  subst next all. unfold simulateNextWeekHandler, simulateAllMatchesHandler.
  destruct (SimulateNextWeek _ _ _) as [[e|] s1];
    destruct (SimulateAllMatches _ _ _) as [[e'|] s2]; simpl in *;
    (split; [done|]; split; [done|];
     split; [intros r; by apply table_fresh_editMatchResultHandler|];
     split; [|split];
     [try done; by intros table ->%encodeLeagueTable_table
     |try done; by intros table ->%encodeLeagueTable_table
     |intros r table Ht; rewrite (Hedit r table Ht);
      by apply table_fresh_editMatchResultHandler]).
Qed.


End ServedTable.

(** ** The season of [main] *)

Lemma Played_set_Position_0 e : LTE.Played (set_Position 0 e) = LTE.Played e.
Proof. by destruct e. Qed.

Lemma main_totalWeeks : totalWeeks (Matches (st_league main_state)) = 6.
Proof. vm_compute. reflexivity. Qed.

Lemma main_weeks_in_season :
  Forall (fun m => 0 < Week m <= 6) (Matches (st_league main_state)).
Proof. apply (bool_decide_unpack _). by vm_compute. Qed.

Lemma main_skeleton :
  skeleton <$> Matches (st_league main_state) = skeleton <$> index_fixtures.
Proof. vm_compute. reflexivity. Qed.

Lemma main_teams : Teams (st_league main_state) = [0; 1; 2; 3]%nat.
Proof. vm_compute. reflexivity. Qed.

Lemma main_statics :
  statics <$> st_heap main_state
  = [("Manchester United", 1, 80); ("Liverpool", 2, 85);
     ("Manchester City", 3, 90); ("Chelsea", 4, 88)].
Proof. vm_compute. reflexivity. Qed.

(** Every team is a side of six of the twelve fixtures. *)
Lemma index_fixtures_six p :
  p ∈ [0; 1; 2; 3]%nat ->
  length (filter (fun k : Z * Z * ptr * ptr => k.1.2 = p \/ k.2 = p)
                 (skeleton <$> index_fixtures)) = 6%nat.
Proof.
  intros Hp.
  assert (Hcases : (p = 0 \/ p = 1 \/ p = 2 \/ p = 3)%nat)
    by (rewrite !elem_of_cons, elem_of_nil in Hp; tauto).
  destruct Hcases as [->|[->|[->| ->]]]; vm_compute; reflexivity.
Qed.

(** A store of four teams whose fixed part is that of [main]. *)
Lemma four_teams (h : heap) :
  statics <$> h = [("Manchester United", 1, 80); ("Liverpool", 2, 85);
                   ("Manchester City", 3, 90); ("Chelsea", 4, 88)] ->
  exists t0 t1 t2 t3,
    h = [t0; t1; t2; t3] /\
    TeamName t0 = "Manchester United" /\ TeamName t1 = "Liverpool" /\
    TeamName t2 = "Manchester City" /\ TeamName t3 = "Chelsea".
Proof.
  intros Hst. destruct h as [|t0 [|t1 [|t2 [|t3 [|]]]]]; try done.
  exists t0, t1, t2, t3. unfold statics in Hst. simpl in Hst.
  split; [done|]. repeat split; congruence.
Qed.

Lemma positions_of_four (a b c d : LeagueTableEntry) :
  LTE.Position <$> assignPositions [a; b; c; d] = [1; 2; 3; 4].
Proof. reflexivity. Qed.

Section MainSeason.
Context {F : Type} `{Float64 F}.
Variable rand_Float64 : nat -> F.

Local Abbreviation weeks k s := (Nat.iter k (weeklySimulator rand_Float64) s).

Lemma rtc_weeks k s : rtc (step rand_Float64 no_store) s (weeks k s).
Proof.
  induction k as [|k IH]; simpl; [done|].
  eapply rtc_r; [exact IH|]. constructor.
Qed.

Lemma table_fresh_weeks k s : table_fresh (weeks (S k) s).
Proof. rewrite Nat.iter_succ. apply table_fresh_weeklySimulator. Qed.

Lemma playSeason_main : playSeason rand_Float64 main_state = weeks 6 main_state.
Proof. unfold playSeason. by rewrite main_totalWeeks. Qed.

(** The memory at the end of the season of [main]. *)
Lemma season_memory :
  let s := playSeason rand_Float64 main_state in
  CurrentWeek (st_league s) = 6 /\
  Forall (fun m => Played m = true) (Matches (st_league s)) /\
  Teams (st_league s) = [0; 1; 2; 3]%nat /\
  skeleton <$> Matches (st_league s) = skeleton <$> index_fixtures /\
  statics <$> st_heap s
  = [("Manchester United", 1, 80); ("Liverpool", 2, 85);
     ("Manchester City", 3, 90); ("Chelsea", 4, 88)] /\
  Forall (fun m => HomeTeam m <> AwayTeam m) (Matches (st_league s)) /\
  Inv s /\ table_fresh s.
Proof.
  intros s. subst s. rewrite playSeason_main.
  generalize (rtc_weeks 6 main_state).
  generalize (table_fresh_weeks 5 main_state).
  destruct (iter_weeklySimulator rand_Float64 6 main_state 0 eq_refl) as [Hcw Hms];
    [by vm_compute..|]. revert Hcw Hms. cbv zeta.
  generalize (weeks 6 main_state). intros s Hcw Hms Hfresh Hrtc.
  pose proof (frame_rtc _ _ _ _ Hrtc) as (Hst & Hteams & Hsk).
  destruct (main_league_well_formed _ _ _ Hrtc) as (Hdist & _ & _).
  split; [exact Hcw|]. split; [|split; [|split; [|split; [|split; [|split]]]]].
  - apply Forall_lookup. intros j m' Hj'.
    assert (Hlen : length (Matches (st_league s))
                   = length (Matches (st_league main_state))).
    { apply (f_equal length) in Hsk. by rewrite !length_fmap in Hsk. }
    destruct (lookup_same_length (Matches (st_league main_state)) _ j m' Hlen Hj')
      as [m Hj].
    destruct (Hms j m Hj) as (m2 & Hj2 & _ & _ & Hin & _).
    rewrite Hj2 in Hj'. injection Hj' as <-. apply Hin.
    pose proof main_weeks_in_season as Hw.
    rewrite Forall_lookup in Hw. apply (Hw j m Hj).
  - by rewrite <- Hteams, main_teams.
  - by rewrite <- Hsk, main_skeleton.
  - by rewrite <- Hst, main_statics.
  - exact Hdist.
  - apply (Inv_reachable rand_Float64 no_store). exists main_state.
    split; [apply initial_main_state|done].
  - exact Hfresh.
Qed.

(** X19: the program of [main], whatever the random numbers and the
    arithmetic: the week counter ends at 6, all twelve matches are
    played, each of the four teams is in the table with 6 matches
    played, the positions are 1 to 4, and the champion declared is one
    of the four teams. *)
Theorem main_season :
  let s := playSeason rand_Float64 main_state in
  CurrentWeek (st_league s) = 6 /\
  Forall (fun m => Played m = true) (Matches (st_league s)) /\
  Forall (fun e => LTE.Played e = 6) (LeagueTable (st_league s)) /\
  LTE.Position <$> LeagueTable (st_league s) = [1; 2; 3; 4] /\
  LTE.TeamName <$> LeagueTable (st_league s)
  ≡ₚ ["Manchester United"; "Liverpool"; "Manchester City"; "Chelsea"] /\
  exists name, main rand_Float64 main_state = Some name /\
               name ∈ ["Manchester United"; "Liverpool"; "Manchester City"; "Chelsea"].
Proof.
  unfold main. generalize season_memory.
  generalize (playSeason rand_Float64 main_state). cbv zeta.
  intros s (Hcw & Hplayed & Hteams & Hsk & Hst & Hdist & HI & Hfresh).
  destruct (four_teams _ Hst) as (t0 & t1 & t2 & t3 & Eh & N0 & N1 & N2 & N3).
  assert (Hgames : forall p, p ∈ [0; 1; 2; 3]%nat ->
            length (played_matches_of p (Matches (st_league s))) = 6%nat).
  { intros p Hp. unfold played_matches_of.
    rewrite <- (length_filter_fmap skeleton
                  (fun k : Z * Z * ptr * ptr => k.1.2 = p \/ k.2 = p)
                  (fun m => Played m = true /\ (HomeTeam m = p \/ AwayTeam m = p))).
    - rewrite Hsk. by apply index_fixtures_six.
    - eapply Forall_impl; [exact Hplayed|]. intros m Hm. simpl. tauto. }
  assert (Hledger : forall p t, st_heap s !! p = Some t ->
            LTE.Played (tableEntry t) = 6).
  { intros p t Hp.
    assert (Hin : p ∈ [0; 1; 2; 3]%nat).
    { apply lookup_lt_Some in Hp. rewrite Eh in Hp. simpl in Hp.
      rewrite !elem_of_cons. lia. }
    destruct (HI p t Hp) as (_ & _ & Hw & Hd & Hl & _).
    pose proof (ideal_nonneg p (Matches (st_league s))) as (Nw & Nd & Nl).
    pose proof (ideal_results p _ Hdist) as Er. rewrite (Hgames p Hin) in Er.
    simpl. rewrite Hw, Hd, Hl. wrap_lia. }
  assert (Htable : LeagueTable (st_league s)
                   = buildTable [t0; t1; t2; t3] [0; 1; 2; 3]%nat).
  { rewrite Hfresh, Eh, Hteams. done. }
  split; [done|]. split; [done|]. split; [|split; [|split]].
  - apply Forall_forall. intros e He.
    destruct (team_of_entry s Hfresh e He) as (team & Hteam & Ee).
    rewrite <- Played_set_Position_0, Ee.
    assert (Hlt : (team < length (st_heap s))%nat).
    { rewrite Hteams in Hteam. rewrite Eh. simpl.
      rewrite !elem_of_cons, elem_of_nil in Hteam. lia. }
    apply lookup_lt_is_Some_2 in Hlt as [t Ht].
    rewrite (list_lookup_total_correct _ _ _ Ht). by apply (Hledger team).
  - rewrite Htable. unfold buildTable. cbv zeta.
    destruct (insertionSort tableLess
                ((fun team => tableEntry ([t0; t1; t2; t3] !!! team)) <$> [0; 1; 2; 3]%nat))
      as [|a [|b [|c [|d [|x l]]]]] eqn:Esort;
      apply (f_equal length) in Esort;
      rewrite (Permutation_length (insertionSort_perm _ _)) in Esort;
      try discriminate Esort.
    apply positions_of_four.
  - rewrite (table_names s Hfresh), Hteams. unfold team_name. rewrite Eh.
    cbn. by rewrite N0, N1, N2, N3.
  - destruct (first_of_table (st_heap s) (Teams (st_league s))) as (e & H0 & Hpos & _);
      [by rewrite Hteams|].
    rewrite <- Hfresh in H0. exists (LTE.TeamName e). split.
    + unfold declareChampions.
      assert (Hf : list_find (fun entry => LTE.Position entry = 1)
                             (LeagueTable (st_league s)) = Some (0%nat, e)).
      { apply list_find_Some. split; [done|]. split; [done|]. intros; lia. }
      by rewrite Hf.
    + assert (Hin : LTE.TeamName e ∈ LTE.TeamName <$> LeagueTable (st_league s)).
      { apply list_elem_of_fmap_2. by eapply list_elem_of_lookup_2. }
      rewrite (table_names s Hfresh), Hteams in Hin. unfold team_name in Hin.
      rewrite Eh in Hin. cbn in Hin. by rewrite N0, N1, N2, N3 in Hin.
Qed.

End MainSeason.

(** ** The SQL store and the start of the server *)

Lemma GetTeams_loop (rows : list (Z * SQLStorageService.TeamRow)) : forall teams (h : heap),
  foldl (fun '(teams, h) '(id, row) =>
           (teams ++ [length h],
            h ++ [mkTeam (SQLStorageService.name row) id (SQLStorageService.strength row)
                         (SQLStorageService.goals_for row)
                         (SQLStorageService.goals_against row)
                         (SQLStorageService.wins row) (SQLStorageService.draws row)
                         (SQLStorageService.losses row) (SQLStorageService.points row)
                         (SQLStorageService.goals_difference row)]))
        (teams, h) rows
  = (teams ++ seq (length h) (length rows), h ++ (team_of_row <$> rows)).
Proof.
  induction rows as [|[id row] rows IH]; intros teams h; simpl.
  - by rewrite !app_nil_r.
  - rewrite IH. rewrite length_app. simpl.
    rewrite <- !app_assoc. simpl. f_equal. f_equal. f_equal. f_equal. lia.
Qed.

Lemma GetTeams_spec db (h : heap) :
  SQLStorageService.GetTeams db h
  = (seq (length h) (length (SQLStorageService.by_id (SQLStorageService.teams db))),
     h ++ (team_of_row <$> SQLStorageService.by_id (SQLStorageService.teams db))).
Proof. unfold SQLStorageService.GetTeams. by rewrite GetTeams_loop. Qed.

Lemma sides_apart_frame s s' : same_frame s s' -> sides_apart s -> sides_apart s'.
Proof.
  intros (_ & Ht & Hsk) Ha. unfold sides_apart in *. rewrite <- Ht.
  assert (Hk : Forall (fun k : Z * Z * ptr * ptr =>
                         (k.1.2 ∉ Teams (st_league s)) /\ (k.2 ∉ Teams (st_league s)))
                      (skeleton <$> Matches (st_league s')))
    by (rewrite <- Hsk; by apply Forall_fmap).
  by apply Forall_fmap in Hk.
Qed.

Lemma sides_apart_lookup s i m p :
  sides_apart s -> Matches (st_league s) !! i = Some m -> p ∈ Teams (st_league s) ->
  HomeTeam m <> p /\ AwayTeam m <> p.
Proof.
  intros Ha Hi Hp. unfold sides_apart in Ha. rewrite Forall_lookup in Ha.
  destruct (Ha i m Hi) as [Hh Hw]. split; intros E; [apply Hh|apply Hw]; by rewrite E.
Qed.

Section Quiet.
Context {F : Type} `{Float64 F}.
Variable rand_Float64 : nat -> F.
Context {DB : Type} `{StorageService DB}.
Variable storageService : option DB.

Lemma quiet_refl s : quiet s s.
Proof. split; [apply same_frame_refl|done]. Qed.

Lemma quiet_apart s0 s : sides_apart s0 -> quiet s0 s -> sides_apart s.
Proof. intros Ha [Hf _]. by eapply sides_apart_frame. Qed.

Lemma quiet_Teams s0 s : quiet s0 s -> Teams (st_league s) = Teams (st_league s0).
Proof. by intros [(_ & -> & _) _]. Qed.

Lemma quiet_simulateMatch s0 i s :
  sides_apart s0 -> quiet s0 s -> quiet s0 (simulateMatch rand_Float64 i s).
Proof.
  intros Ha Hq. pose proof (quiet_apart _ _ Ha Hq) as Ha'.
  pose proof (quiet_Teams _ _ Hq) as Ht. destruct Hq as [Hf Hh].
  split; [eapply same_frame_trans; [done|apply frame_simulateMatch]|].
  intros p Hp. rewrite <- (Hh p Hp).
  destruct (simulateMatch_cases rand_Float64 i s) as [->|(m & hs & aws & Hm & _ & ->)];
    [done|].
  destruct (sides_apart_lookup s i m p Ha' Hm) as [? ?]; [by rewrite Ht|].
  simpl. by apply untouched_updateTeamStats.
Qed.

Lemma quiet_updateLeagueTable s0 s : quiet s0 s -> quiet s0 (updateLeagueTable s).
Proof.
  intros [Hf Hh]. split; [|done].
  eapply same_frame_trans; [done|apply frame_updateLeagueTable].
Qed.

Lemma quiet_weeklySimulator s0 s :
  sides_apart s0 -> quiet s0 s -> quiet s0 (weeklySimulator rand_Float64 s).
Proof.
  intros Ha. apply weeklySimulator_preserves.
  - intros i a. by apply quiet_simulateMatch.
  - apply quiet_updateLeagueTable.
  - intros a w [Hf Hh]. split; [|done].
    eapply same_frame_trans; [done|]. by repeat split.
Qed.

Lemma quiet_editMatchResultHandler w s0 r s :
  sides_apart s0 -> quiet s0 s ->
  quiet s0 (editMatchResultHandler storageService w r s).2.
Proof.
  intros Ha Hq.
  destruct (editMatchResultHandler_cases storageService w r s)
    as [->|(id & hs & aws & i & m & _ & _ & Hf & _ & ->)]; [done|].
  apply quiet_updateLeagueTable.
  pose proof (quiet_apart _ _ Ha Hq) as Ha'.
  pose proof (quiet_Teams _ _ Hq) as Ht. destruct Hq as [Hfr Hh].
  apply findMatch_lookup in Hf as [Hi _].
  split; [eapply same_frame_trans; [done|by apply frame_rescored]|].
  intros p Hp. rewrite <- (Hh p Hp).
  destruct (sides_apart_lookup s i m p Ha' Hi) as [? ?]; [by rewrite Ht|].
  simpl. rewrite applyNewResult_updateTeamStats.
  rewrite untouched_updateTeamStats by done. by apply untouched_revertTeamStats.
Qed.

Lemma quiet_step s0 s s' :
  sides_apart s0 -> quiet s0 s -> step rand_Float64 storageService s s' -> quiet s0 s'.
Proof.
  intros Ha Hq Hs. destruct Hs.
  - by apply quiet_simulateMatch.
  - by apply quiet_weeklySimulator.
  - destruct (SimulateNextWeek_cases rand_Float64 storageService s) as [-> | ->];
      [done|by apply quiet_weeklySimulator].
  - unfold SimulateAllMatches. apply simulateWeeks_preserves; [|done].
    intros a. by apply quiet_weeklySimulator.
  - by apply quiet_editMatchResultHandler.
Qed.

Lemma quiet_rtc s0 s :
  sides_apart s0 -> rtc (step rand_Float64 storageService) s0 s -> quiet s0 s.
Proof.
  intros Ha Hs. apply rtc_ind_r with (P := quiet s0) (3 := Hs); [apply quiet_refl|].
  intros a b _ Hab Hq. by eapply quiet_step.
Qed.

End Quiet.

Lemma buildTable_ext (h h' : heap) (teams : list ptr) :
  (forall p, p ∈ teams -> h' !! p = h !! p) ->
  buildTable h' teams = buildTable h teams.
Proof.
  intros Hh. unfold buildTable. cbv zeta. f_equal. f_equal.
  apply list_fmap_ext. intros i p Hp. f_equal.
  rewrite !list_lookup_total_alt. f_equal. apply Hh. by eapply list_elem_of_lookup_2.
Qed.

(** *** The loop of [GetMatches] *)

Lemma cached_team_app (h ext : heap) id p :
  cached_team h id p -> cached_team (h ++ ext) id p.
Proof.
  intros (t & Hp & Hid & Hz). exists t. split; [|done]. by apply lookup_app_l_Some.
Qed.

Lemma cache_ok_app n0 cache (h ext : heap) :
  cache_ok n0 cache h -> cache_ok n0 cache (h ++ ext).
Proof.
  intros Hc id p Hp. destruct (Hc id p Hp) as [? ?].
  split; [done|]. by apply cached_team_app.
Qed.

Lemma match_of_row_weaken (cache cache' : gmap Z ptr) row m :
  cache ⊆ cache' -> match_of_row cache row m -> match_of_row cache' row m.
Proof.
  intros Hsub (? & ? & ? & ? & ? & Hh & Ha).
  repeat split; try done; by eapply lookup_weaken.
Qed.

Lemma getOrCreate_spec n0 id teamName teamStrength (cache : gmap Z ptr) (h : heap) :
  (n0 <= length h)%nat -> cache_ok n0 cache h ->
  exists p cache' ext,
    SQLStorageService.getOrCreate id teamName teamStrength cache h
    = (p, cache', h ++ ext) /\
    cache' !! id = Some p /\ cache ⊆ cache' /\ cache_ok n0 cache' (h ++ ext).
Proof.
  intros Hn Hc. unfold SQLStorageService.getOrCreate.
  destruct (cache !! id) as [p|] eqn:Hid.
  - exists p, cache, []. rewrite app_nil_r. done.
  - exists (length h), (<[id := length h]> cache),
           [mkTeam teamName id teamStrength 0 0 0 0 0 0 0].
    split; [done|]. split; [apply lookup_insert_eq|].
    split; [by apply insert_subseteq|].
    intros id' p' Hp'. destruct (decide (id = id')) as [<-|Hne].
    + rewrite lookup_insert_eq in Hp'. injection Hp' as <-. split; [done|].
      eexists. split; [apply list_lookup_middle; done|]. by repeat split.
    + rewrite lookup_insert_ne in Hp' by done.
      by apply (cache_ok_app n0 cache h _ Hc).
Qed.

Lemma scanRow_spec n0 (ms : list Match) cache (h : heap) row :
  (n0 <= length h)%nat -> cache_ok n0 cache h ->
  exists m cache' ext,
    SQLStorageService.scanRow (ms, cache, h) row = (ms ++ [m], cache', h ++ ext) /\
    cache ⊆ cache' /\ cache_ok n0 cache' (h ++ ext) /\ match_of_row cache' row m.
Proof.
  intros Hn Hc. unfold SQLStorageService.scanRow.
  destruct (getOrCreate_spec n0 (SQLStorageService.m_home_team_id row)
              (SQLStorageService.home_name row) (SQLStorageService.home_strength row)
              cache h Hn Hc) as (p1 & c1 & e1 & -> & Hp1 & Hs1 & Hc1).
  destruct (getOrCreate_spec n0 (SQLStorageService.m_away_team_id row)
              (SQLStorageService.away_name row) (SQLStorageService.away_strength row)
              c1 (h ++ e1)) as (p2 & c2 & e2 & -> & Hp2 & Hs2 & Hc2);
    [rewrite length_app; lia|done|].
  eexists _, c2, (e1 ++ e2). rewrite app_assoc. split; [done|].
  split; [by etrans|]. split; [done|].
  repeat split; try done. simpl. by eapply lookup_weaken.
Qed.

Lemma scan_loop n0 rows : forall (ms : list Match) cache (h : heap),
  (n0 <= length h)%nat -> cache_ok n0 cache h ->
  exists ms' cache' ext,
    foldl SQLStorageService.scanRow (ms, cache, h) rows = (ms ++ ms', cache', h ++ ext) /\
    cache ⊆ cache' /\ cache_ok n0 cache' (h ++ ext) /\
    Forall2 (match_of_row cache') rows ms'.
Proof.
  induction rows as [|row rows IH]; intros ms cache h Hn Hc; cbn [foldl].
  - exists [], cache, []. rewrite !app_nil_r.
    split; [done|]. split; [done|]. split; [done|]. constructor.
  - destruct (scanRow_spec n0 ms cache h row Hn Hc) as (m & c1 & e1 & -> & Hs1 & Hc1 & Hm).
    destruct (IH (ms ++ [m]) c1 (h ++ e1)) as (ms' & c2 & e2 & -> & Hs2 & Hc2 & Hms);
      [rewrite length_app; lia|done|].
    exists (m :: ms'), c2, (e1 ++ e2).
    split; [by rewrite <- !app_assoc|].
    split; [by etrans|]. split; [by rewrite app_assoc|].
    constructor; [by eapply match_of_row_weaken|done].
Qed.

(** What [GetMatches] returns: the matches of the rows of its query, in
    their order, whose sides are objects it has made itself, one for
    each team id, with an empty ledger. *)
Lemma GetMatches_spec db (h : heap) :
  exists teamCache ext,
    (SQLStorageService.GetMatches db h).2 = h ++ ext /\
    cache_ok (length h) teamCache (h ++ ext) /\
    Forall2 (match_of_row teamCache) (SQLStorageService.matches_query db)
            (SQLStorageService.GetMatches db h).1.
Proof.
  unfold SQLStorageService.GetMatches.
  destruct (scan_loop (length h) (SQLStorageService.matches_query db) [] ∅ h)
    as (ms & cache & ext & -> & _ & Hc & Hms); [done|by intros id p ?|].
  by exists cache, ext.
Qed.

Lemma GetMatches_sides db (h : heap) :
  Forall (fun m => (length h <= HomeTeam m)%nat /\ (length h <= AwayTeam m)%nat)
         (SQLStorageService.GetMatches db h).1.
Proof.
  destruct (GetMatches_spec db h) as (cache & ext & _ & Hc & Hms).
  induction Hms as [|row m rows ms Hm _ IH]; constructor; [|done].
  destruct Hm as (_ & _ & _ & _ & _ & Hh & Ha).
  split; [by apply (Hc _ _ Hh)|by apply (Hc _ _ Ha)].
Qed.

(** The League the server starts with: its matches point to objects
    that are not the objects of [league.Teams]. *)
Lemma initializeLeague_apart db s db' :
  initializeLeague db = Some (s, db') -> sides_apart s /\ table_fresh s.
Proof.
  unfold initializeLeague.
  destruct (SQLStorageService.InitializeTeamsAndMatches _ _) as [[db1 h1]|]; [|done].
  simpl. rewrite GetTeams_spec.
  set (h2 := h1 ++ _). set (teams := seq _ _).
  pose proof (GetMatches_sides db1 h2) as Hsides.
  destruct (SQLStorageService.GetMatches db1 h2) as [ms h3].
  destruct (SQLStorageService.GetCurrentWeek db1) as [w|]; [|done].
  simpl. intros [= <- <-]. split; [|done].
  unfold sides_apart. simpl. eapply Forall_impl; [exact Hsides|].
  intros m [Hh Ha]. subst teams h2. rewrite length_app, length_fmap in Hh, Ha.
  rewrite !elem_of_seq. lia.
Qed.

Section ServerStandings.
Context {F : Type} `{Float64 F}.
Variable rand_Float64 : nat -> F.
Context {DB : Type} `{StorageService DB}.
Variable storageService : option DB.

(** X20: in server mode the standings never change.  [initializeLeague]
    gives the matches their own [Team] objects, apart from the ones
    [league.Teams] lists; so whatever is then simulated or corrected,
    the ledgers of [league.Teams] stay as they were loaded and the table
    [updateLeagueTable] builds is the table built at the start. *)
Theorem server_standings_never_change db s0 db' s :
  initializeLeague db = Some (s0, db') ->
  rtc (step rand_Float64 storageService) s0 s ->
  sides_apart s /\
  Teams (st_league s) = Teams (st_league s0) /\
  (forall p, p ∈ Teams (st_league s0) -> st_heap s !! p = st_heap s0 !! p) /\
  LeagueTable (st_league (updateLeagueTable s)) = LeagueTable (st_league s0).
Proof.
  intros Hinit Hs. destruct (initializeLeague_apart _ _ _ Hinit) as [Ha Hfresh].
  pose proof (quiet_rtc rand_Float64 storageService s0 s Ha Hs) as Hq.
  split; [by eapply quiet_apart|]. split; [by apply quiet_Teams|].
  destruct Hq as [(_ & Ht & _) Hh]. split; [done|].
  simpl. rewrite Hfresh, <- Ht. by apply buildTable_ext.
Qed.

End ServerStandings.

(** *** [GetTeams] and [UpdateTeam] *)

Lemma team_of_row_of_team t : team_of_row (row_of_team t) = t.
Proof. by destruct t. Qed.

Lemma row_of_team_of_row r : row_of_team (team_of_row r) = r.
Proof. by destruct r as [id []]. Qed.

Lemma elem_of_teams_of_rows t (rows : list (Z * SQLStorageService.TeamRow)) :
  t ∈ team_of_row <$> rows <-> row_of_team t ∈ rows.
Proof.
  rewrite list_elem_of_fmap. split.
  - intros (r & -> & Hr). by rewrite row_of_team_of_row.
  - intros Hr. exists (row_of_team t). by rewrite team_of_row_of_team.
Qed.

Lemma loaded_app (h new : heap) :
  (fun p => (h ++ new) !!! p) <$> seq (length h) (length new) = new.
Proof.
  revert h. induction new as [|t new IH]; intros h; [done|].
  cbn [length seq fmap list_fmap]. f_equal.
  - by rewrite list_lookup_total_middle.
  - assert (E : h ++ t :: new = (h ++ [t]) ++ new) by (by rewrite <- app_assoc).
    rewrite E.
    replace (S (length h)) with (length (h ++ [t])) by (rewrite length_app; simpl; lia).
    apply IH.
Qed.

Lemma GetTeams_loaded db (h : heap) :
  loaded (SQLStorageService.GetTeams db h)
  = team_of_row <$> SQLStorageService.by_id (SQLStorageService.teams db).
Proof.
  rewrite GetTeams_spec. unfold loaded. simpl.
  rewrite <- (length_fmap team_of_row). apply loaded_app.
Qed.

Lemma by_id_perm {A} (table : gmap Z A) :
  SQLStorageService.by_id table ≡ₚ map_to_list table.
Proof. apply merge_sort_Permutation. Qed.

Lemma elem_of_by_id {A} (table : gmap Z A) id (row : A) :
  (id, row) ∈ SQLStorageService.by_id table <-> table !! id = Some row.
Proof. by rewrite by_id_perm, elem_of_map_to_list. Qed.

#[local] Instance id_le_trans {A} : Transitive (@SQLStorageService.id_le A).
Proof. intros x y z. unfold SQLStorageService.id_le. lia. Qed.

#[local] Instance id_le_total {A} : Total (@SQLStorageService.id_le A).
Proof. intros x y. unfold SQLStorageService.id_le. lia. Qed.

Lemma by_id_sorted {A} (table : gmap Z A) :
  StronglySorted Z.le ((SQLStorageService.by_id table).*1).
Proof.
  pose proof (StronglySorted_merge_sort SQLStorageService.id_le (map_to_list table)) as Hs.
  fold (SQLStorageService.by_id table) in Hs.
  induction Hs as [|x l _ IH Hx]; [constructor|].
  rewrite fmap_cons. constructor; [done|]. by apply Forall_fmap.
Qed.

Lemma by_id_NoDup {A} (table : gmap Z A) : NoDup ((SQLStorageService.by_id table).*1).
Proof. rewrite by_id_perm. apply NoDup_fst_map_to_list. Qed.

Lemma TeamId_teams_of_rows (rows : list (Z * SQLStorageService.TeamRow)) :
  TeamId <$> (team_of_row <$> rows) = rows.*1.
Proof. rewrite <- list_fmap_compose. by apply list_fmap_ext. Qed.

(** X21: a team written by [UpdateTeam] is read back by [GetTeams]: the
    objects loaded afterwards come in increasing order of their ids,
    one per id, the one with the id of the team written has all its
    values, and the others are the teams that were there before. *)
Theorem GetTeams_after_UpdateTeam db (h : heap) t :
  let before := loaded (SQLStorageService.GetTeams db h) in
  let after := loaded (SQLStorageService.GetTeams (SQLStorageService.UpdateTeam t db) h) in
  t ∈ after /\
  StronglySorted Z.le (TeamId <$> after) /\
  NoDup (TeamId <$> after) /\
  (forall t', TeamId t' <> TeamId t -> t' ∈ after <-> t' ∈ before) /\
  (SQLStorageService.GetTeams (SQLStorageService.UpdateTeam t db) h).2 = h ++ after.
Proof.
  intros before after. subst before after. rewrite !GetTeams_loaded.
  split; [|split; [|split; [|split]]].
  - apply elem_of_teams_of_rows. unfold row_of_team. apply elem_of_by_id.
    simpl. apply lookup_insert_eq.
  - rewrite TeamId_teams_of_rows. apply by_id_sorted.
  - rewrite TeamId_teams_of_rows. apply by_id_NoDup.
  - intros t' Hne. rewrite !elem_of_teams_of_rows. unfold row_of_team.
    rewrite !elem_of_by_id. simpl. by rewrite lookup_insert_ne.
  - by rewrite GetTeams_spec.
Qed.

(** *** [GetMatches] and [SaveMatchResult] *)

Lemma by_week_and_id_perm (table : gmap Z SQLStorageService.MatchRow) :
  SQLStorageService.by_week_and_id table ≡ₚ map_to_list table.
Proof. apply merge_sort_Permutation. Qed.

Lemma elem_of_by_week_and_id (table : gmap Z SQLStorageService.MatchRow) id row :
  (id, row) ∈ SQLStorageService.by_week_and_id table <-> table !! id = Some row.
Proof. by rewrite by_week_and_id_perm, elem_of_map_to_list. Qed.

Lemma cached_team_total (h : heap) id p :
  cached_team h id p -> TeamId (h !!! p) = id /\ zero_ledger (h !!! p).
Proof.
  intros (t & Hp & Hid & Hz). by rewrite (list_lookup_total_correct _ _ _ Hp).
Qed.

Lemma match_values_of_rows n0 (cache : gmap Z ptr) (h : heap) rows (ms : list Match) :
  cache_ok n0 cache h -> Forall2 (match_of_row cache) rows ms ->
  match_values h ms = row_values <$> rows.
Proof.
  intros Hc Hms. unfold match_values.
  induction Hms as [|row m rows ms Hm _ IH]; [done|].
  rewrite !fmap_cons, IH. f_equal.
  destruct Hm as (-> & -> & -> & -> & -> & Hh & Ha).
  destruct (Hc _ _ Hh) as [_ [-> _]%cached_team_total].
  destruct (Hc _ _ Ha) as [_ [-> _]%cached_team_total]. done.
Qed.

Lemma GetMatches_values db (h : heap) :
  match_values (SQLStorageService.GetMatches db h).2 (SQLStorageService.GetMatches db h).1
  = row_values <$> SQLStorageService.matches_query db.
Proof.
  destruct (GetMatches_spec db h) as (cache & ext & E & Hc & Hms).
  rewrite E. by eapply match_values_of_rows.
Qed.

(** X22: [GetMatches] gives the matches objects of its own: each side is
    an object made by the call (it was not in the store before), with
    the id of the team and an empty ledger, whatever the table of teams
    holds; two sides are the same object exactly when they have the same
    team id; and id, week, score and played flag are those of the rows,
    in the order of the query. *)
Theorem GetMatches_objects db (h : heap) :
  let r := SQLStorageService.GetMatches db h in
  match_values r.2 r.1 = row_values <$> SQLStorageService.matches_query db /\
  (exists ext, r.2 = h ++ ext) /\
  Forall (fun m => (length h <= HomeTeam m)%nat /\ (length h <= AwayTeam m)%nat /\
                   zero_ledger (r.2 !!! HomeTeam m) /\ zero_ledger (r.2 !!! AwayTeam m))
         r.1 /\
  (forall m1 m2 p q, m1 ∈ r.1 -> m2 ∈ r.1 ->
     p ∈ [HomeTeam m1; AwayTeam m1] -> q ∈ [HomeTeam m2; AwayTeam m2] ->
     p = q <-> TeamId (r.2 !!! p) = TeamId (r.2 !!! q)).
Proof.
  intros r. subst r. split; [apply GetMatches_values|].
  destruct (GetMatches_spec db h) as (cache & ext & E & Hc & Hms).
  split; [by exists ext|]. rewrite E.
  assert (Hside : forall m p, m ∈ (SQLStorageService.GetMatches db h).1 ->
            p ∈ [HomeTeam m; AwayTeam m] ->
            exists id, cache !! id = Some p).
  { intros m p Hm Hp. apply list_elem_of_lookup in Hm as [i Hi].
    destruct (Forall2_lookup_r _ _ _ _ _ Hms Hi) as (row & _ & Hrow).
    destruct Hrow as (_ & _ & _ & _ & _ & Hh & Ha).
    rewrite !elem_of_cons, elem_of_nil in Hp.
    destruct Hp as [->|[->|[]]]; eauto. }
  split.
  - apply Forall_forall. intros m Hm.
    destruct (Hside m (HomeTeam m) Hm) as [idh Hh]; [rewrite !elem_of_cons; auto|].
    destruct (Hside m (AwayTeam m) Hm) as [ida Ha]; [rewrite !elem_of_cons; auto|].
    destruct (Hc _ _ Hh) as [? [_ ?]%cached_team_total].
    destruct (Hc _ _ Ha) as [? [_ ?]%cached_team_total]. done.
  - intros m1 m2 p q Hm1 Hm2 Hp Hq.
    destruct (Hside m1 p Hm1 Hp) as [idp Hidp].
    destruct (Hside m2 q Hm2 Hq) as [idq Hidq].
    destruct (Hc _ _ Hidp) as [_ [Ep _]%cached_team_total].
    destruct (Hc _ _ Hidq) as [_ [Eq _]%cached_team_total].
    rewrite Ep, Eq. split; [intros ->; congruence|].
    intros ->. congruence.
Qed.

Lemma elem_of_matches_query db row :
  row ∈ SQLStorageService.matches_query db <->
  exists m ht at',
    SQLStorageService.matches db !! SQLStorageService.m_id row = Some m /\
    SQLStorageService.teams db !! SQLStorageService.home_team_id m = Some ht /\
    SQLStorageService.teams db !! SQLStorageService.away_team_id m = Some at' /\
    row = SQLStorageService.mkJoinedRow (SQLStorageService.m_id row)
            (SQLStorageService.week m) (SQLStorageService.home_team_id m)
            (SQLStorageService.away_team_id m) (SQLStorageService.home_score m)
            (SQLStorageService.away_score m) (SQLStorageService.played m)
            (SQLStorageService.name ht) (SQLStorageService.strength ht)
            (SQLStorageService.name at') (SQLStorageService.strength at').
Proof.
  unfold SQLStorageService.matches_query. rewrite list_elem_of_omap. split.
  - intros ([id m] & Hin & Hrow). apply elem_of_by_week_and_id in Hin.
    destruct (SQLStorageService.teams db !! SQLStorageService.home_team_id m)
      as [ht|] eqn:Hh; [|done].
    destruct (SQLStorageService.teams db !! SQLStorageService.away_team_id m)
      as [at'|] eqn:Ha; [|done].
    simpl in Hrow. injection Hrow as <-. exists m, ht, at'. done.
  - intros (m & ht & at' & Hm & Hh & Ha & Hrow).
    exists (SQLStorageService.m_id row, m). split; [by apply elem_of_by_week_and_id|].
    rewrite Hh, Ha. simpl. by rewrite Hrow.
Qed.

(** X23: a match written by [SaveMatchResult] is read back by
    [GetMatches] when both its teams have a row in the table of teams:
    id, week, score and played flag are those written and the sides
    carry the ids of the teams of the match written. *)
Theorem GetMatches_after_SaveMatchResult db (h0 h : heap) m :
  is_Some (SQLStorageService.teams db !! TeamId (h0 !!! HomeTeam m)) ->
  is_Some (SQLStorageService.teams db !! TeamId (h0 !!! AwayTeam m)) ->
  let r := SQLStorageService.GetMatches (SQLStorageService.SaveMatchResult h0 m db) h in
  (MatchId m, Week m, TeamId (h0 !!! HomeTeam m), TeamId (h0 !!! AwayTeam m),
   HomeTeamScore m, AwayTeamScore m, Played m) ∈ match_values r.2 r.1.
Proof.
  intros [ht Hh] [at' Ha] r. subst r. rewrite GetMatches_values.
  apply list_elem_of_fmap.
  exists (SQLStorageService.mkJoinedRow (MatchId m) (Week m)
            (TeamId (h0 !!! HomeTeam m)) (TeamId (h0 !!! AwayTeam m))
            (HomeTeamScore m) (AwayTeamScore m) (Played m)
            (SQLStorageService.name ht) (SQLStorageService.strength ht)
            (SQLStorageService.name at') (SQLStorageService.strength at')).
  split; [done|]. apply elem_of_matches_query.
  eexists _, ht, at'. simpl. rewrite lookup_insert_eq. by repeat split.
Qed.

(** X24: the joins of [GetMatches] drop, without an error, a match one of
    whose teams has no row in the table of teams: after [SaveMatchResult]
    of such a match no match of its id is loaded. *)
Theorem GetMatches_drops_orphan db (h0 h : heap) m :
  SQLStorageService.teams db !! TeamId (h0 !!! HomeTeam m) = None \/
  SQLStorageService.teams db !! TeamId (h0 !!! AwayTeam m) = None ->
  let r := SQLStorageService.GetMatches (SQLStorageService.SaveMatchResult h0 m db) h in
  MatchId m ∉ MatchId <$> r.1.
Proof.
  intros Hnone r Hin. subst r.
  assert (Hid : MatchId m ∈ (fun v : Z * Z * Z * Z * Z * Z * bool => v.1.1.1.1.1.1)
                            <$> match_values
                                  (SQLStorageService.GetMatches
                                     (SQLStorageService.SaveMatchResult h0 m db) h).2
                                  (SQLStorageService.GetMatches
                                     (SQLStorageService.SaveMatchResult h0 m db) h).1).
  { unfold match_values. rewrite <- list_fmap_compose. exact Hin. }
  rewrite GetMatches_values, <- list_fmap_compose in Hid.
  apply list_elem_of_fmap in Hid as (row & Hid & Hrow). simpl in Hid.
  apply elem_of_matches_query in Hrow as (mr & ht & at' & Hm & Hh & Ha & _).
  simpl in Hm, Hh, Ha. rewrite <- Hid, lookup_insert_eq in Hm. injection Hm as <-.
  simpl in Hh, Ha. destruct Hnone as [Hn|Hn]; congruence.
Qed.

(** *** The week counter in the database *)

Lemma InitializeDatabase_kept db w :
  SQLStorageService.league_state db !! 1 = Some w ->
  SQLStorageService.InitializeDatabase db = db.
Proof.
  intros Hw. unfold SQLStorageService.InitializeDatabase.
  case_bool_decide as Hsize; [|done].
  apply map_size_empty_iff in Hsize. rewrite Hsize in Hw. done.
Qed.

(** X25: the week counter in the database.  [InitializeDatabase] on a
    database without a row of [league_state] makes the counter 0, and a
    second call changes nothing; [UpdateCurrentWeek] followed by
    [GetCurrentWeek] gives the week written, and touches neither teams
    nor matches; but where [GetCurrentWeek] finds no row (the table has
    a row under another id), [UpdateCurrentWeek] succeeds and changes
    nothing. *)
Theorem current_week_round_trip db w :
  let db0 := SQLStorageService.InitializeDatabase db in
  (SQLStorageService.league_state db = ∅ ->
   SQLStorageService.GetCurrentWeek db0 = Some 0) /\
  SQLStorageService.InitializeDatabase db0 = db0 /\
  (is_Some (SQLStorageService.GetCurrentWeek db) ->
   SQLStorageService.GetCurrentWeek (SQLStorageService.UpdateCurrentWeek w db) = Some w) /\
  (SQLStorageService.GetCurrentWeek db = None ->
   SQLStorageService.UpdateCurrentWeek w db = db) /\
  SQLStorageService.teams (SQLStorageService.UpdateCurrentWeek w db)
  = SQLStorageService.teams db /\
  SQLStorageService.matches (SQLStorageService.UpdateCurrentWeek w db)
  = SQLStorageService.matches db.
Proof.
  intros db0. subst db0. split; [|split; [|split; [|split]]].
  - intros He. unfold SQLStorageService.InitializeDatabase. rewrite He.
    rewrite bool_decide_eq_true_2 by apply map_size_empty.
    unfold SQLStorageService.GetCurrentWeek. simpl. apply lookup_insert_eq.
  - destruct (decide (size (SQLStorageService.league_state db) = 0%nat)) as [Hs|Hs].
    + assert (E : SQLStorageService.InitializeDatabase db
                  = SQLStorageService.mkDatabase (SQLStorageService.teams db)
                      (SQLStorageService.matches db)
                      (<[1 := 0]> (SQLStorageService.league_state db))).
      { unfold SQLStorageService.InitializeDatabase. by rewrite bool_decide_eq_true_2. }
      rewrite E. eapply InitializeDatabase_kept. simpl. apply lookup_insert_eq.
    + assert (E : SQLStorageService.InitializeDatabase db = db).
      { unfold SQLStorageService.InitializeDatabase. by rewrite bool_decide_eq_false_2. }
      by rewrite !E.
  - intros [w0 Hw0]. unfold SQLStorageService.GetCurrentWeek in *. simpl.
    by rewrite lookup_alter_eq, Hw0.
  - intros Hnone. unfold SQLStorageService.GetCurrentWeek in Hnone.
    unfold SQLStorageService.UpdateCurrentWeek. destruct db as [ts ms ls].
    simpl in *. f_equal. apply map_eq. intros k.
    destruct (decide (k = 1)) as [->|Hk].
    + by rewrite lookup_alter_eq, Hnone.
    + by rewrite lookup_alter_ne.
  - done.
Qed.

(** *** A restart of the server *)

Lemma length_by_id {A} (table : gmap Z A) :
  length (SQLStorageService.by_id table) = size table.
Proof. by rewrite by_id_perm, length_map_to_list. Qed.

Lemma teams_save_loop (h : heap) (ms : list Match) : forall db,
  SQLStorageService.teams (foldl (fun db m => SQLStorageService.SaveMatchResult h m db) db ms)
  = SQLStorageService.teams db /\
  SQLStorageService.league_state
    (foldl (fun db m => SQLStorageService.SaveMatchResult h m db) db ms)
  = SQLStorageService.league_state db.
Proof.
  induction ms as [|m ms IH]; intros db; [done|]. simpl.
  destruct (IH (SQLStorageService.SaveMatchResult h m db)) as [-> ->]. done.
Qed.

(** After [InitializeTeamsAndMatches] the table of teams has a row, and
    [league_state] is as it was. *)
Lemma InitializeTeamsAndMatches_populated db (h : heap) db1 h1 :
  SQLStorageService.InitializeTeamsAndMatches db h = Some (db1, h1) ->
  (0 < size (SQLStorageService.teams db1))%nat /\
  SQLStorageService.league_state db1 = SQLStorageService.league_state db.
Proof.
  unfold SQLStorageService.InitializeTeamsAndMatches. rewrite GetTeams_spec.
  rewrite length_seq, length_by_id. case_bool_decide as Hn.
  - by intros [= <- <-].
  - unfold createPremierLeagueTeams. cbv zeta.
    match goal with
    | |- context [createPremierLeagueMatches ?ts] =>
      destruct (createPremierLeagueMatches ts) as [ms|]; [|done]
    end.
    simpl. intros [= <- <-].
    match goal with
    | |- context [foldl (fun db0 m => SQLStorageService.SaveMatchResult ?hh m db0) ?d ms] =>
      destruct (teams_save_loop hh ms d) as [-> ->]
    end.
    split; [|done]. simpl.
    match goal with
    | |- (0 < size ?t)%nat =>
      assert (Hne : size t <> 0%nat)
        by (rewrite map_size_empty_iff; apply insert_non_empty); lia
    end.
Qed.

(** With a row in the table of teams [InitializeTeamsAndMatches] writes
    nothing. *)
Lemma InitializeTeamsAndMatches_skip db (h : heap) :
  (0 < size (SQLStorageService.teams db))%nat ->
  exists h1, SQLStorageService.InitializeTeamsAndMatches db h = Some (db, h1).
Proof.
  intros Hn. unfold SQLStorageService.InitializeTeamsAndMatches. rewrite GetTeams_spec.
  rewrite length_seq, length_by_id. rewrite bool_decide_eq_true_2 by done. eauto.
Qed.

Lemma loaded_under (h new ext : heap) :
  (fun p => ((h ++ new) ++ ext) !!! p) <$> seq (length h) (length new) = new.
Proof.
  rewrite <- (loaded_app h new) at 2. apply list_fmap_ext. intros i p Hp.
  apply lookup_seq in Hp as [-> Hi]. apply lookup_total_app_l.
  rewrite length_app. lia.
Qed.

(** The League [initializeLeague] returns, as the database it returns
    holds it. *)
Lemma initializeLeague_values db s db' :
  initializeLeague db = Some (s, db') ->
  team_values s = team_of_row <$> SQLStorageService.by_id (SQLStorageService.teams db') /\
  match_values (st_heap s) (Matches (st_league s))
  = row_values <$> SQLStorageService.matches_query db' /\
  SQLStorageService.GetCurrentWeek db' = Some (CurrentWeek (st_league s)) /\
  (0 < size (SQLStorageService.teams db'))%nat /\
  table_fresh s.
Proof.
  unfold initializeLeague.
  destruct (SQLStorageService.InitializeTeamsAndMatches _ _) as [[db1 h1]|] eqn:E1; [|done].
  apply InitializeTeamsAndMatches_populated in E1 as [Hn _].
  simpl. rewrite GetTeams_spec.
  set (new := team_of_row <$> _).
  pose proof (GetMatches_values db1 (h1 ++ new)) as Hv.
  destruct (GetMatches_spec db1 (h1 ++ new)) as (_ & ext & Eh & _).
  destruct (SQLStorageService.GetMatches db1 (h1 ++ new)) as [ms h3].
  destruct (SQLStorageService.GetCurrentWeek db1) as [w|] eqn:Ew; [|done].
  simpl in *. intros [= <- <-]. subst h3. repeat split; try done.
  unfold team_values. simpl. rewrite <- (length_fmap team_of_row). apply loaded_under.
Qed.

Lemma buildTable_values (h h' : heap) (teams teams' : list ptr) :
  (fun p => h !!! p) <$> teams = (fun p => h' !!! p) <$> teams' ->
  buildTable h teams = buildTable h' teams'.
Proof.
  intros Hv. unfold buildTable. cbv zeta. f_equal. f_equal.
  change ((tableEntry ∘ (fun p => h !!! p)) <$> teams
          = (tableEntry ∘ (fun p => h' !!! p)) <$> teams').
  by rewrite !list_fmap_compose, Hv.
Qed.

(** X26: a restart of the server right after a start finds the League it
    left: the second [initializeLeague], on the database the first one
    returns, writes nothing and loads the same teams by value, the same
    matches (with the same team ids on each side), the same week and
    the same table. *)
Theorem restart_restores_league db s db' :
  initializeLeague db = Some (s, db') ->
  exists s', initializeLeague db' = Some (s', db') /\
    team_values s' = team_values s /\
    match_values (st_heap s') (Matches (st_league s'))
    = match_values (st_heap s) (Matches (st_league s)) /\
    CurrentWeek (st_league s') = CurrentWeek (st_league s) /\
    LeagueTable (st_league s') = LeagueTable (st_league s).
Proof.
  intros Hinit.
  destruct (initializeLeague_values _ _ _ Hinit) as (Ht & Hm & Hw & Hn & Hfresh).
  assert (Hagain : exists s', initializeLeague db' = Some (s', db')).
  { unfold initializeLeague, SQLStorageService.NewSQLStorageService.
    rewrite (InitializeDatabase_kept db' _ Hw).
    destruct (InitializeTeamsAndMatches_skip db' [] Hn) as [h1 ->]. simpl.
    destruct (SQLStorageService.GetTeams db' h1) as [teams h2].
    destruct (SQLStorageService.GetMatches db' h2) as [ms h3].
    rewrite Hw. simpl. eauto. }
  destruct Hagain as [s' Hs']. exists s'. split; [done|].
  destruct (initializeLeague_values _ _ _ Hs') as (Ht' & Hm' & Hw' & _ & Hfresh').
  split; [congruence|]. split; [congruence|]. split; [congruence|].
  rewrite Hfresh, Hfresh'. apply buildTable_values.
  change (team_values s' = team_values s). congruence.
Qed.

(** ** The ledgers on the server

    [initializeLeague] gives the matches [Team] objects of their own,
    made by [GetMatches] with empty ledgers, beside the objects of
    [league.Teams], made by [GetTeams] from the rows of the database.
    The engine and the correction write to the former; the table and
    the block that saves a week read the latter. *)

(** C1 on the server.  The first week is simulated, match 1 ending
    5-3, and the server is stopped and started again: the sides of the
    matches come back with empty ledgers.  The correction of match 1 to
    0-2 then leaves its home side with the counters
    (-5, -1, -1, 0, 1, -3, -4), where the engine's ledger update, had
    0-2 been the result from the start, gives (0, 2, 0, 0, 1, 0, -2). *)
Theorem correction_after_restart :
  exists s db m,
    reloaded_week1 = Some (s, db) /\
    findMatch 1 (Matches (st_league s)) = Some (0%nat, m) /\
    Played m = true /\ HomeTeamScore m = 5 /\ AwayTeamScore m = 3 /\
    let s' := (editMatchResultHandler (Some tt) client
                 (mkRequest (Some 1) (Some (0, 2))) s).2 in
    let as_if := replay (<[0%nat := set_Score 0 2 m]> (Matches (st_league s)))
                        (zeroed <$> st_heap s) in
    counters (st_heap s' !!! HomeTeam m) = (-5, -1, -1, 0, 1, -3, -4) /\
    counters (as_if !!! HomeTeam m) = (0, 2, 0, 0, 1, 0, -2) /\
    st_heap s' <> as_if.
Proof.
  destruct reloaded_week1 as [[s db]|] eqn:E; vm_compute in E; [|discriminate E].
  injection E as <- <-.
  eexists _, _, (mkMatch 1 1 8%nat 9%nat 5 3 true).
  split; [reflexivity|]. split; [by vm_compute|]. do 3 (split; [reflexivity|]).
  cbv zeta. split; [by vm_compute|]. split; [by vm_compute|].
  intros Heq. apply (f_equal (fun h : heap => counters (h !!! 8%nat))) in Heq.
  vm_compute in Heq. discriminate Heq.
Qed.

(** C2 on the server.  After the first week each team has played a
    match, yet the teams [league.Teams] lists, which the table is built
    from and the database is written from, have empty ledgers: the team
    of id 1 has no win, draw or loss against one played match of that
    team, and the table shows no match played.  After a restart the
    sides of the matches have empty ledgers as well: wins, draws and
    losses of the home side of match 1 total 0 against the one played
    match that points to it. *)
Theorem ledgers_miss_played_matches :
  (exists s db team t,
     served_week1 = Some (s, db) /\
     Teams (st_league s) !! 0%nat = Some team /\
     st_heap s !! team = Some t /\ TeamId t = 1 /\
     Wins t + Draws t + Losses t = 0 /\
     length (played_matches_of_id (st_heap s) 1 (Matches (st_league s))) = 1%nat /\
     LTE.Played <$> LeagueTable (st_league s) = [0; 0; 0; 0]) /\
  (exists s db m t,
     reloaded_week1 = Some (s, db) /\
     Matches (st_league s) !! 0%nat = Some m /\ Played m = true /\
     st_heap s !! HomeTeam m = Some t /\
     Wins t + Draws t + Losses t = 0 /\
     length (played_matches_of (HomeTeam m) (Matches (st_league s))) = 1%nat /\
     Forall zero_ledger (st_heap s)).
Proof.
  split.
  - destruct served_week1 as [[s db]|] eqn:E; vm_compute in E; [|discriminate E].
    injection E as <- <-.
    eexists _, _, 4%nat, (mkTeam "Manchester United" 1 80 0 0 0 0 0 0 0).
    split; [reflexivity|]. do 4 (split; [reflexivity|]).
    split; by vm_compute.
  - destruct reloaded_week1 as [[s db]|] eqn:E; vm_compute in E; [|discriminate E].
    injection E as <- <-.
    eexists _, _, (mkMatch 1 1 8%nat 9%nat 5 3 true),
      (mkTeam "Manchester United" 1 80 0 0 0 0 0 0 0).
    split; [reflexivity|]. do 4 (split; [reflexivity|]).
    split; [by vm_compute|]. by repeat constructor.
Qed.

(** C10 on the server.  Two weeks are simulated and match 1 is
    corrected to 6-0: the correction writes the two sides of the match
    to the table of teams, whose other rows the weeks have left empty.
    After a restart the teams of [league.Teams] total 16 goals scored
    against 12 conceded and 3 wins against 1 loss. *)
Theorem totals_after_restart :
  exists s db,
    reloaded_correction = Some (s, db) /\
    goSum GoalsFor (st_heap s) (Teams (st_league s)) = 16 /\
    goSum GoalsAgainst (st_heap s) (Teams (st_league s)) = 12 /\
    goSum Wins (st_heap s) (Teams (st_league s)) = 3 /\
    goSum Losses (st_heap s) (Teams (st_league s)) = 1 /\
    ~ conserved s.
Proof.
  destruct reloaded_correction as [[s db]|] eqn:E; vm_compute in E; [|discriminate E].
  injection E as <- <-. eexists _, _. split; [reflexivity|].
  do 4 (split; [by vm_compute|]).
  intros [Hgoals _]. vm_compute in Hgoals. discriminate Hgoals.
Qed.

(** ** The identities that survive a restart *)

Lemma identities_move home away p d t :
  l_pts d = 3 * l_w d + l_d d ->
  (home <> p -> away <> p -> d = ledger0) ->
  ledger_identities t -> ledger_identities (settle home away p (bump d t)).
Proof.
  intros Hd Hun (Hi & Hp & Hg).
  split; [by apply int_team_settle, int_team_bump|].
  unfold settle.
  destruct (decide (home = p)) as [Hh|Hh];
    [|destruct (decide (away = p)) as [Ha|Ha]; [|rewrite (Hun Hh Ha) in *]];
    clear Hun; destruct t, d; unfold int_team in Hi; cbn in *;
    team_eval; split; wrap_lia.
Qed.

Lemma identities_two_moves home away p a b t :
  l_pts a = 3 * l_w a + l_d a -> l_pts b = 3 * l_w b + l_d b ->
  (home <> p -> away <> p -> a = ledger0 /\ b = ledger0) ->
  ledger_identities t ->
  ledger_identities (settle home away p (bump b (bump (ledger_opp a) t))).
Proof.
  intros Ha Hb Hun (Hi & Hp & Hg).
  split; [by apply int_team_settle, int_team_bump, int_team_bump|].
  unfold settle.
  destruct (decide (home = p)) as [Hh|Hh];
    [|destruct (decide (away = p)) as [Hw|Hw];
      [|destruct (Hun Hh Hw) as [-> ->]]];
    clear Hun; destruct t; try destruct a; try destruct b;
    unfold int_team in Hi; cbn in *;
    team_eval; split; wrap_lia.
Qed.

Lemma identities_hold_recorded i m hs aws s :
  identities_hold s -> identities_hold (recorded i m hs aws s).
Proof.
  unfold identities_hold. rewrite !Forall_lookup. intros Hs p t' Hp. simpl in Hp.
  assert (Hlt : (p < length (st_heap s))%nat).
  { apply lookup_lt_Some in Hp. by rewrite length_updateTeamStats in Hp. }
  apply lookup_lt_is_Some_2 in Hlt as [t Ht].
  pose proof (Hs p t Ht) as Hid.
  rewrite (lookup_updateTeamStats _ _ _ _ _ _ t Ht (proj1 Hid)) in Hp.
  injection Hp as <-. apply identities_move; [apply delta_pts| |done].
  apply delta_untouched.
Qed.

Lemma identities_hold_rescored i m hs aws s :
  identities_hold s -> identities_hold (rescored i m hs aws s).
Proof.
  unfold identities_hold. rewrite !Forall_lookup. intros Hs p t' Hp.
  assert (Hlt : (p < length (st_heap s))%nat).
  { apply lookup_lt_Some in Hp. simpl in Hp.
    rewrite applyNewResult_updateTeamStats, length_updateTeamStats,
      length_revertTeamStats in Hp. done. }
  apply lookup_lt_is_Some_2 in Hlt as [t Ht].
  pose proof (Hs p t Ht) as Hid.
  rewrite (lookup_rescored i m hs aws s p t Ht (proj1 Hid)) in Hp.
  injection Hp as <-. apply identities_two_moves; [apply delta_pts..| |done].
  intros Hh Ha. by rewrite !delta_untouched.
Qed.

Section IdentitiesKept.
Context {F : Type} `{Float64 F}.
Variable rand_Float64 : nat -> F.
Context {DB : Type} `{StorageService DB}.
Variable storageService : option DB.

Lemma identities_hold_simulateMatch i s :
  identities_hold s -> identities_hold (simulateMatch rand_Float64 i s).
Proof.
  intros Hs.
  destruct (simulateMatch_cases rand_Float64 i s) as [->|(m & hs & aws & _ & _ & ->)];
    [done|by apply identities_hold_recorded].
Qed.

Lemma identities_hold_weeklySimulator s :
  identities_hold s -> identities_hold (weeklySimulator rand_Float64 s).
Proof.
  apply weeklySimulator_preserves; [|done..].
  intros i a. apply identities_hold_simulateMatch.
Qed.

Lemma identities_hold_step s s' :
  step rand_Float64 storageService s s' -> identities_hold s -> identities_hold s'.
Proof.
  destruct 1 as [i s|s|s|s|w r s]; intros Hs.
  - by apply identities_hold_simulateMatch.
  - by apply identities_hold_weeklySimulator.
  - destruct (SimulateNextWeek_cases rand_Float64 storageService s) as [-> | ->];
      [done|by apply identities_hold_weeklySimulator].
  - unfold SimulateAllMatches. apply simulateWeeks_preserves; [|done].
    intros a. apply identities_hold_weeklySimulator.
  - destruct (editMatchResultHandler_cases storageService w r s)
      as [->|(id & hs & aws & i & m & _ & _ & _ & _ & ->)]; [done|].
    by apply (identities_hold_rescored i m hs aws s).
Qed.

(** X30: two identities of the ledgers do not depend on how the League
    was built, and so survive a restart: in a League whose teams have
    [Points == 3*Wins + Draws] and
    [GoalsDifference == GoalsFor - GoalsAgainst] (in [int] arithmetic),
    whatever its matches and their played flags, every team has them
    again after any sequence of simulations and corrections. *)
Theorem ledger_identities_kept s s' :
  identities_hold s ->
  rtc (step rand_Float64 storageService) s s' ->
  forall p t, st_heap s' !! p = Some t ->
    Points t = wrap (3 * Wins t + Draws t) /\
    GoalsDifference t = wrap (GoalsFor t - GoalsAgainst t).
Proof.
  intros Hs Hsteps.
  assert (Hs' : identities_hold s').
  { induction Hsteps as [|a b c Hab _ IH]; [done|].
    apply IH. by eapply identities_hold_step. }
  intros p t Hp. unfold identities_hold in Hs'. rewrite Forall_lookup in Hs'.
  by destruct (Hs' p t Hp) as (_ & ? & ?).
Qed.

End IdentitiesKept.

(** ** The theorems above on the sample run *)

Lemma Inv_int_heap s : Inv s -> int_heap s.
Proof.
  intros HI. apply Forall_lookup. intros p t Hp. by eapply agrees_int_team, HI.
Qed.

Lemma int_heap_week1 : int_heap week1.
Proof.
  exact (Inv_int_heap _ (Inv_reachable sample_rand no_store _ reachable_week1)).
Qed.

Lemma table_fresh_week1 : table_fresh week1.
Proof. apply table_fresh_weeklySimulator. Qed.

Lemma simulateMatch_footprint_witness :
  let m := mkMatch 1 1 0%nat 1%nat 0 0 false in
  Matches (st_league main_state) !! 0%nat = Some m /\ Played m = false /\
  let s' := simulateMatch sample_rand 0 main_state in
  Matches (st_league s')
  = <[0%nat := set_Played true (set_Score (drawn sample_rand m main_state).1
                                          (drawn sample_rand m main_state).2 m)]>
      (Matches (st_league main_state)) /\
  (forall p, HomeTeam m <> p -> AwayTeam m <> p ->
             st_heap s' !! p = st_heap main_state !! p) /\
  CurrentWeek (st_league s') = CurrentWeek (st_league main_state) /\
  Teams (st_league s') = Teams (st_league main_state) /\
  LeagueTable (st_league s') = LeagueTable (st_league main_state) /\
  st_rand s' = S (S (st_rand main_state)).
Proof.
  intros m. split; [reflexivity|]. split; [reflexivity|].
  exact (simulateMatch_footprint sample_rand 0 main_state m eq_refl eq_refl).
Defined.

Lemma playSeason_plays_all_witness :
  CurrentWeek (st_league main_state) = 0 /\
  totalWeeks (Matches (st_league main_state)) < half - 1 /\
  let s' := playSeason sample_rand main_state in
  CurrentWeek (st_league s') = totalWeeks (Matches (st_league main_state)) /\
  forall j m, Matches (st_league main_state) !! j = Some m ->
    exists m', Matches (st_league s') !! j = Some m' /\
               skeleton m' = skeleton m /\
               (1 <= Week m -> Played m' = true) /\
               (Week m < 1 \/ Played m = true -> m' = m).
Proof.
  assert (Htw : totalWeeks (Matches (st_league main_state)) < half - 1)
    by (vm_compute; reflexivity).
  split; [reflexivity|]. split; [exact Htw|].
  exact (playSeason_plays_all sample_rand main_state eq_refl Htw).
Defined.

Lemma season_end_week : CurrentWeek (st_league season_end) = 6.
Proof. vm_compute. reflexivity. Qed.

Lemma SimulateAllMatches_season_over_witness :
  - half <= CurrentWeek (st_league season_end) < half - 1 /\
  totalWeeks (Matches (st_league season_end)) <= CurrentWeek (st_league season_end) /\
  SimulateAllMatches sample_rand no_store season_end = (None, season_end).
Proof.
  assert (Hr : - half <= CurrentWeek (st_league season_end) < half - 1)
    by (rewrite season_end_week; vm_compute; split; discriminate || reflexivity).
  assert (Htw : totalWeeks (Matches (st_league season_end))
                <= CurrentWeek (st_league season_end))
    by (vm_compute; discriminate).
  split; [exact Hr|]. split; [exact Htw|].
  exact (SimulateAllMatches_season_over sample_rand no_store season_end Hr Htw).
Defined.

Lemma SimulateAllMatches_completes_witness :
  store_ok no_store /\
  - half <= CurrentWeek (st_league week1) < half - 1 /\
  totalWeeks (Matches (st_league week1)) < half - 1 /\
  let r := SimulateAllMatches sample_rand no_store week1 in
  r.1 = None /\
  CurrentWeek (st_league r.2)
  = Z.max (CurrentWeek (st_league week1)) (totalWeeks (Matches (st_league week1))) /\
  (forall j m, Matches (st_league week1) !! j = Some m ->
     exists m', Matches (st_league r.2) !! j = Some m' /\
                skeleton m' = skeleton m /\
                (CurrentWeek (st_league week1) < Week m -> Played m' = true) /\
                (Week m <= CurrentWeek (st_league week1) \/ Played m = true -> m' = m)) /\
  SimulateNextWeek sample_rand no_store r.2
  = (Some "no more matches to simulate", r.2).
Proof.
  assert (Hr : - half <= CurrentWeek (st_league week1) < half - 1)
    by (vm_compute; split; discriminate || reflexivity).
  assert (Htw : totalWeeks (Matches (st_league week1)) < half - 1)
    by (vm_compute; reflexivity).
  split; [exact I|]. split; [exact Hr|]. split; [exact Htw|].
  exact (SimulateAllMatches_completes sample_rand no_store week1 I Hr Htw).
Defined.


Lemma recorded_results_survive_witness :
  let m := mkMatch 1 1 0%nat 1%nat 5 3 true in
  Matches (st_league week1) !! 0%nat = Some m /\ Played m = true /\
  (forall i, Matches (st_league (simulateMatch sample_rand i week1)) !! 0%nat = Some m) /\
  Matches (st_league (weeklySimulator sample_rand week1)) !! 0%nat = Some m /\
  Matches (st_league (SimulateNextWeek sample_rand no_store week1).2) !! 0%nat = Some m /\
  Matches (st_league (SimulateAllMatches sample_rand no_store week1).2) !! 0%nat = Some m.
Proof.
  intros m.
  assert (Hj : Matches (st_league week1) !! 0%nat = Some m) by (vm_compute; reflexivity).
  split; [exact Hj|]. split; [reflexivity|].
  exact (recorded_results_survive sample_rand no_store week1 0 m Hj eq_refl).
Defined.

Lemma scores_within_cap_week1 : scores_within_cap week1.
Proof.
  unfold scores_within_cap. apply (bool_decide_unpack _). by vm_compute.
Qed.

Lemma scores_capped_week1 : scores_capped week1.
Proof.
  eapply Forall_impl; [exact scores_within_cap_week1|]. simpl. intros m Hm Hp.
  destruct (Hm Hp). lia.
Qed.

Lemma simulation_caps_scores_witness :
  scores_capped week1 /\
  (forall i, scores_capped (simulateMatch sample_rand i week1)) /\
  scores_capped (weeklySimulator sample_rand week1) /\
  scores_capped (SimulateNextWeek sample_rand no_store week1).2 /\
  scores_capped (SimulateAllMatches sample_rand no_store week1).2.
Proof.
  split; [exact scores_capped_week1|].
  exact (simulation_caps_scores sample_rand no_store week1 scores_capped_week1).
Defined.

Lemma simulation_scores_exact_witness :
  scores_within_cap week1 /\
  (forall i, scores_within_cap (simulateMatch sample_rand i week1)) /\
  scores_within_cap (weeklySimulator sample_rand week1) /\
  scores_within_cap (SimulateNextWeek sample_rand no_store week1).2 /\
  scores_within_cap (SimulateAllMatches sample_rand no_store week1).2.
Proof.
  split; [exact scores_within_cap_week1|].
  exact (simulation_scores_exact sample_rand no_store week1 scores_within_cap_week1).
Defined.

Lemma correction_of_unknown_match_witness :
  Forall (fun m => MatchId m <> 99) (Matches (st_league week1)) /\
  editMatchResultHandler no_store client (mkRequest (Some 99) (Some (1, 0))) week1
  = (HttpError "Match not found" 404, week1).
Proof.
  assert (Hall : Forall (fun m => MatchId m <> 99) (Matches (st_league week1)))
    by (apply (bool_decide_unpack _); by vm_compute).
  split; [exact Hall|].
  exact (correction_of_unknown_match no_store client week1 99 (1, 0) Hall).
Defined.


Lemma last_correction_wins_witness :
  let m := mkMatch 1 1 0%nat 1%nat 5 3 true in
  int_heap week1 /\
  findMatch 1 (Matches (st_league week1)) = Some (0%nat, m) /\
  Played m = true /\
  let s1 := (editMatchResultHandler no_store client
               (mkRequest (Some 1) (Some (0, 2))) week1).2 in
  (editMatchResultHandler no_store hung_up (mkRequest (Some 1) (Some (4, 4))) s1).2
  = (editMatchResultHandler no_store hung_up (mkRequest (Some 1) (Some (4, 4))) week1).2.
Proof.
  intros m.
  assert (Hf : findMatch 1 (Matches (st_league week1)) = Some (0%nat, m))
    by (vm_compute; reflexivity).
  split; [exact int_heap_week1|]. split; [exact Hf|]. split; [reflexivity|].
  exact (last_correction_wins no_store client hung_up week1 1 0%nat m (0, 2) (4, 4)
           int_heap_week1 Hf eq_refl).
Defined.

Lemma corrections_commute_witness :
  let m1 := mkMatch 1 1 0%nat 1%nat 5 3 true in
  let m2 := mkMatch 2 1 2%nat 3%nat 5 3 true in
  int_heap week1 /\
  findMatch 1 (Matches (st_league week1)) = Some (0%nat, m1) /\
  findMatch 2 (Matches (st_league week1)) = Some (1%nat, m2) /\
  1 <> 2 /\ Played m1 = true /\ Played m2 = true /\
  let edit1 := editMatchResultHandler no_store client (mkRequest (Some 1) (Some (0, 2))) in
  let edit2 := editMatchResultHandler no_store hung_up (mkRequest (Some 2) (Some (1, 1))) in
  (edit2 (edit1 week1).2).2 = (edit1 (edit2 week1).2).2.
Proof.
  intros m1 m2.
  assert (Hf1 : findMatch 1 (Matches (st_league week1)) = Some (0%nat, m1))
    by (vm_compute; reflexivity).
  assert (Hf2 : findMatch 2 (Matches (st_league week1)) = Some (1%nat, m2))
    by (vm_compute; reflexivity).
  assert (Hne : 1 <> 2) by discriminate.
  split; [exact int_heap_week1|]. split; [exact Hf1|]. split; [exact Hf2|].
  split; [exact Hne|]. split; [reflexivity|]. split; [reflexivity|].
  exact (corrections_commute no_store client hung_up week1 1 2 0%nat 1%nat m1 m2 (0, 2) (1, 1)
           int_heap_week1 Hf1 Hf2 Hne eq_refl eq_refl).
Defined.


Lemma served_table_is_fresh_witness :
  table_fresh week1 /\
  let next := simulateNextWeekHandler sample_rand no_store client week1 in
  let all := simulateAllMatchesHandler sample_rand no_store client week1 in
  table_fresh next.2 /\ table_fresh all.2 /\
  (forall r, table_fresh (editMatchResultHandler no_store client r week1).2) /\
  (forall table, next.1 = HttpTable table ->
     table = buildTable (st_heap next.2) (Teams (st_league next.2))) /\
  (forall table, all.1 = HttpTable table ->
     table = buildTable (st_heap all.2) (Teams (st_league all.2))) /\
  (forall r table, (editMatchResultHandler no_store client r week1).1 = HttpTable table ->
     table = buildTable (st_heap (editMatchResultHandler no_store client r week1).2)
                        (Teams (st_league (editMatchResultHandler no_store client r week1).2))).
Proof.
  split; [exact table_fresh_week1|].
  exact (served_table_is_fresh sample_rand no_store client week1 table_fresh_week1).
Defined.

(** ** The storage theorems on the first start of the server *)

Lemma first_start : is_Some (initializeLeague SQLStorageService.empty).
Proof. vm_compute. eauto. Qed.

Lemma server_standings_never_change_witness :
  exists s0 db',
    initializeLeague SQLStorageService.empty = Some (s0, db') /\
    let s := weeklySimulator sample_rand s0 in
    rtc (step sample_rand no_store) s0 s /\
    sides_apart s /\
    Teams (st_league s) = Teams (st_league s0) /\
    (forall p, p ∈ Teams (st_league s0) -> st_heap s !! p = st_heap s0 !! p) /\
    LeagueTable (st_league (updateLeagueTable s)) = LeagueTable (st_league s0).
Proof.
  destruct first_start as [[s0 db'] Hinit]. exists s0, db'. split; [exact Hinit|].
  assert (Hs : rtc (step sample_rand no_store) s0 (weeklySimulator sample_rand s0))
    by (apply rtc_once; constructor).
  split; [exact Hs|].
  exact (server_standings_never_change sample_rand no_store
           SQLStorageService.empty s0 db' _ Hinit Hs).
Defined.

Lemma GetMatches_after_SaveMatchResult_witness :
  let h0 := st_heap main_state in
  let m := mkMatch 1 1 0%nat 1%nat 5 3 true in
  is_Some (SQLStorageService.teams sample_db !! TeamId (h0 !!! HomeTeam m)) /\
  is_Some (SQLStorageService.teams sample_db !! TeamId (h0 !!! AwayTeam m)) /\
  let r := SQLStorageService.GetMatches (SQLStorageService.SaveMatchResult h0 m sample_db) [] in
  (1, 1, 1, 2, 5, 3, true) ∈ match_values r.2 r.1.
Proof.
  intros h0 m.
  assert (Hh : is_Some (SQLStorageService.teams sample_db !! TeamId (h0 !!! HomeTeam m)))
    by (vm_compute; eauto).
  assert (Ha : is_Some (SQLStorageService.teams sample_db !! TeamId (h0 !!! AwayTeam m)))
    by (vm_compute; eauto).
  split; [exact Hh|]. split; [exact Ha|].
  exact (GetMatches_after_SaveMatchResult sample_db h0 [] m Hh Ha).
Defined.

Lemma GetMatches_drops_orphan_witness :
  let h0 := st_heap main_state in
  let m := mkMatch 1 1 0%nat 1%nat 5 3 true in
  (SQLStorageService.teams SQLStorageService.empty !! TeamId (h0 !!! HomeTeam m) = None \/
   SQLStorageService.teams SQLStorageService.empty !! TeamId (h0 !!! AwayTeam m) = None) /\
  let r := SQLStorageService.GetMatches
             (SQLStorageService.SaveMatchResult h0 m SQLStorageService.empty) [] in
  MatchId m ∉ MatchId <$> r.1.
Proof.
  intros h0 m.
  assert (Hn : SQLStorageService.teams SQLStorageService.empty
                 !! TeamId (h0 !!! HomeTeam m) = None \/
               SQLStorageService.teams SQLStorageService.empty
                 !! TeamId (h0 !!! AwayTeam m) = None)
    by (left; reflexivity).
  split; [exact Hn|].
  exact (GetMatches_drops_orphan SQLStorageService.empty h0 [] m Hn).
Defined.

Lemma restart_restores_league_witness :
  exists s db',
    initializeLeague SQLStorageService.empty = Some (s, db') /\
    exists s', initializeLeague db' = Some (s', db') /\
      team_values s' = team_values s /\
      match_values (st_heap s') (Matches (st_league s'))
      = match_values (st_heap s) (Matches (st_league s)) /\
      CurrentWeek (st_league s') = CurrentWeek (st_league s) /\
      LeagueTable (st_league s') = LeagueTable (st_league s).
Proof.
  destruct first_start as [[s db'] Hinit]. exists s, db'. split; [exact Hinit|].
  exact (restart_restores_league SQLStorageService.empty s db' Hinit).
Defined.

Lemma ledger_identities_kept_witness :
  exists s db,
    reloaded_week1 = Some (s, db) /\
    identities_hold s /\
    let s' := (editMatchResultHandler no_store client
                 (mkRequest (Some 1) (Some (0, 2))) s).2 in
    rtc (step sample_rand no_store) s s' /\
    forall p t, st_heap s' !! p = Some t ->
      Points t = wrap (3 * Wins t + Draws t) /\
      GoalsDifference t = wrap (GoalsFor t - GoalsAgainst t).
Proof.
  destruct reloaded_week1 as [[s db]|] eqn:E; vm_compute in E; [|discriminate E].
  injection E as <- <-. eexists _, _. split; [reflexivity|].
  match goal with
  | |- identities_hold ?s0 /\ _ =>
    assert (Hs : identities_hold s0)
      by (repeat constructor; vm_compute; congruence);
    assert (Hstep : rtc (step sample_rand no_store) s0
                        (editMatchResultHandler no_store client
                           (mkRequest (Some 1) (Some (0, 2))) s0).2)
      by (apply rtc_once; constructor)
  end.
  split; [exact Hs|]. split; [exact Hstep|].
  exact (ledger_identities_kept sample_rand no_store _ _ Hs Hstep).
Defined.
